(** * Polinom: polynomial arithmetic over GF(p) and the irreducibility test

    A shallow embedding of [lab2.cpp] (class [Poly]) and the properties of
    its operations.

    - [int] and [long long] values are integers of [Z]; every arithmetic
      operation that can leave the range of its C++ type is followed by the
      two's-complement wrap-around of that type ([wrap32], [wrap64]).
    - The C++ operators [/] and [%] truncate toward zero: [Z.quot], [Z.rem].
    - [std::vector<int>] is [list Z], index 0 first; [back()] is [last],
      [pop_back()] is [removelast], [v[i] = x] is [upd v i x].  Sizes and
      indices are natural numbers and are taken to fit their C++ types;
      [back()] of an empty vector and a write past the end, undefined in
      C++, read 0 and write nothing.
    - A [while] loop whose termination depends on the data takes a [fuel]
      argument and answers [OutOfFuel] when it is exhausted; a C++ exception
      is the outcome [Throw]. *)

From Stdlib Require Import String.
From Stdlib Require Import ZArith Zdivisibility List Sorted Lia Bool.
From Stdlib Require Import Setoid Morphisms.
From Stdlib Require Zmod.ZmodInv.
Import ListNotations.
Local Open Scope Z_scope.

(** ** Machine integers *)

Definition wrap32 (z : Z) : Z := (z + 2 ^ 31) mod 2 ^ 32 - 2 ^ 31.
Definition wrap64 (z : Z) : Z := (z + 2 ^ 63) mod 2 ^ 64 - 2 ^ 63.

Definition INT_MAX : Z := 2 ^ 31 - 1.

(** ** Outcomes of a computation *)

Inductive exception : Type :=
| runtime_error (what : string)
| length_error.

Inductive res (A : Type) : Type :=
| Val (v : A)
| Throw (e : exception)
| OutOfFuel.

Arguments Val {A} v.
Arguments Throw {A} e.
Arguments OutOfFuel {A}.

Definition bind {A B : Type} (c : res A) (k : A -> res B) : res B :=
  match c with
  | Val v => k v
  | Throw e => Throw e
  | OutOfFuel => OutOfFuel
  end.

Notation "x <- c ;; k" := (bind c (fun x => k))
  (at level 61, c at next level, right associativity).
Notation "' pat <- c ;; k" := (bind c (fun x => match x with pat => k end))
  (at level 61, pat pattern, c at next level, right associativity).

(** The two failures the class raises, under the names the specification
    gives them. *)
Definition DivisionByZeroPolynomial : exception :=
  runtime_error "division by zero polynomial".
Definition NotInvertible : exception :=
  runtime_error "element is not invertible".

(** ** Vectors *)

Fixpoint upd (v : list Z) (i : nat) (x : Z) : list Z :=
  match v, i with
  | [], _ => []
  | _ :: tl, O => x :: tl
  | y :: tl, S j => y :: upd tl j x
  end.

(** [for (size_t i = 0; i < n; i++) body] over a state [S]. *)
Definition for_range {S : Type} (n : nat) (body : nat -> S -> S) (s : S) : S :=
  fold_left (fun s i => body i s) (seq 0 n) s.

(** [v.resize(n, 0)] *)
Definition resize (v : list Z) (n : nat) : list Z :=
  firstn n v ++ repeat 0 (n - length v).

(** ** class Poly *)

Module Poly.

Record t : Type := mk { p : Z; a : list Z }.

(** [Poly(int mod)] *)
Definition zero (md : Z) : t := mk md [0].

(** The first loop of [Normalize]: each iteration pops one element, so
    [length v] iterations are enough. *)
Fixpoint pop_zeros (n : nat) (md : Z) (v : list Z) : list Z :=
  match n with
  | O => v
  | S n' =>
      if (1 <? length v)%nat && (Z.rem (last v 0) md =? 0)
      then pop_zeros n' md (removelast v)
      else v
  end.

(** [x = (x % p + p) % p] *)
Definition reduce (md x : Z) : Z := Z.rem (wrap32 (Z.rem x md + md)) md.

Definition Normalize (this : t) : t :=
  mk (p this)
     (map (reduce (p this)) (pop_zeros (length (a this)) (p this) (a this))).

(** [Poly(const std::vector<int>& v, int mod)] *)
Definition of_vector (v : list Z) (md : Z) : t := Normalize (mk md v).

(** [(int)a.size() - 1]: -1 for an empty vector. *)
Definition Degree (this : t) : Z := Z.of_nat (length (a this)) - 1.

(** The test [x.a.size() == 1 && x.a[0] == 0] the class uses for the zero
    polynomial. *)
Definition is_zero (x : t) : bool :=
  (length (a x) =? 1)%nat && (nth 0 (a x) 0 =? 0).

(** [operator +] *)
Definition add (this t0 : t) : t :=
  let r := a this in
  let r := if (length r <? length (a t0))%nat
           then resize r (length (a t0)) else r in
  let r := for_range (length (a t0))
             (fun i r =>
                upd r i (Z.rem (wrap32 (nth i r 0 + nth i (a t0) 0)) (p this)))
             r in
  Normalize (mk (p this) r).

(** [operator -] *)
Definition sub (this t0 : t) : t :=
  let r := a this in
  let r := if (length r <? length (a t0))%nat
           then resize r (length (a t0)) else r in
  let r := for_range (length (a t0))
             (fun i r =>
                upd r i
                  (Z.rem (wrap32 (wrap32 (nth i r 0 - nth i (a t0) 0) + p this))
                         (p this)))
             r in
  Normalize (mk (p this) r).

(** [operator *].  The size [a.size() + t.a.size() - 1] is computed in
    [size_t]: for two empty vectors it is the largest [size_t], and
    [assign] throws [std::length_error]. *)
Definition mul (this t0 : t) : res t :=
  if (length (a this) + length (a t0) =? 0)%nat then Throw length_error
  else
    let r := repeat 0 (length (a this) + length (a t0) - 1) in
    let r :=
      for_range (length (a this))
        (fun i r =>
           for_range (length (a t0))
             (fun j r =>
                upd r (i + j)
                  (wrap32
                     (Z.rem
                        (wrap64 (nth (i + j) r 0
                                 + wrap64 (nth i (a this) 0 * nth j (a t0) 0)))
                        (p this))))
             r)
        r in
    Val (Normalize (mk (p this) r)).

(** [InvMod]: the extended Euclidean algorithm on [(a, p)], keeping the
    coefficient of [a] only. *)
Fixpoint InvMod_loop (fuel : nat) (r0 r1 s0 s1 : Z) : res (Z * Z) :=
  match fuel with
  | O => OutOfFuel
  | S k =>
      if r1 =? 0 then Val (r0, s0)
      else
        let q := wrap32 (Z.quot r0 r1) in
        let r0' := wrap32 (r0 - wrap32 (q * r1)) in
        let s0' := wrap32 (s0 - wrap32 (q * s1)) in
        InvMod_loop k r1 r0' s1 s0'
  end.

Definition InvMod (fuel : nat) (x md : Z) : res Z :=
  ' (r0, s0) <- InvMod_loop fuel x md 1 0 ;;
  if r0 =? 1 then Val (Z.rem (wrap32 (Z.rem s0 md + md)) md)
  else Throw NotInvertible.

(** The loop of [DivMod]; [md] is [this->p]. *)
Fixpoint DivMod_loop (fuel : nat) (md : Z) (d : t) (invLead : Z) (Q R : t)
  : res (t * t) :=
  match fuel with
  | O => OutOfFuel
  | S k =>
      if (Degree d <=? Degree R) && negb (is_zero R) then
        let coef := wrap32 (Z.rem (wrap64 (last (a R) 0 * invLead)) md) in
        let shift := Z.to_nat (Degree R - Degree d) in
        let Q' := mk (p Q) (upd (a Q) shift coef) in
        let sb :=
          for_range (length (a d))
            (fun i s =>
               upd s (shift + i)
                 (wrap32 (Z.rem (wrap64 (coef * nth i (a d) 0)) md)))
            (repeat 0 (shift + length (a d))) in
        DivMod_loop k md d invLead Q' (sub R (of_vector sb md))
      else Val (Q, R)
  end.

Definition DivMod (fuel : nat) (this d : t) : res (t * t) :=
  if (Degree d =? 0) && (nth 0 (a d) 0 =? 0)
  then Throw DivisionByZeroPolynomial
  else
    let Q := mk (p this)
               (repeat 0 (Z.to_nat (Z.max 0 (Degree this - Degree d + 1)))) in
    invLead <- InvMod fuel (last (a d) 0) (p this) ;;
    ' (Q, R) <- DivMod_loop fuel (p this) d invLead Q this ;;
    Val (Normalize Q, Normalize R).

Fixpoint GCD_loop (fuel : nat) (A B : t) : res t :=
  match fuel with
  | O => OutOfFuel
  | S k =>
      if negb (is_zero B) then
        ' (_, R) <- DivMod k A B ;;
        GCD_loop k B R
      else Val A
  end.

Definition GCD (fuel : nat) (A B : t) : res t :=
  A' <- GCD_loop fuel A B ;;
  Val (Normalize A').

(** [PowX]: [r] is the running square, [rs] the accumulated result. *)
Fixpoint PowX_loop (fuel : nat) (k : Z) (md : t) (r rs : t) : res t :=
  match fuel with
  | O => OutOfFuel
  | S n =>
      if 0 <? k then
        rs' <- (if negb (Z.land k 1 =? 0)
                then (m <- mul rs r ;; ' (_, x) <- DivMod n m md ;; Val x)
                else Val rs) ;;
        m <- mul r r ;;
        ' (_, r') <- DivMod n m md ;;
        PowX_loop n (Z.shiftr k 1) md r' rs'
      else Val rs
  end.

Definition PowX (fuel : nat) (k : Z) (md : t) : res t :=
  PowX_loop fuel k md (of_vector [0; 1] (p md)) (of_vector [1] (p md)).

Fixpoint PowInt_loop (fuel : nat) (x b r : Z) : res Z :=
  match fuel with
  | O => OutOfFuel
  | S n =>
      if b =? 0 then Val r
      else PowInt_loop n x (wrap64 (b - 1)) (wrap64 (r * x))
  end.

Definition PowInt (fuel : nat) (x b : Z) : res Z := PowInt_loop fuel x b 1.

Fixpoint strip_factor (fuel : nat) (n i : Z) : res Z :=
  match fuel with
  | O => OutOfFuel
  | S k =>
      if Z.rem n i =? 0 then strip_factor k (wrap32 (Z.quot n i)) i
      else Val n
  end.

Fixpoint PrimeDivisors_loop (fuel : nat) (n i : Z) (d : list Z)
  : res (Z * list Z) :=
  match fuel with
  | O => OutOfFuel
  | S k =>
      if wrap32 (i * i) <=? n then
        if Z.rem n i =? 0 then
          n' <- strip_factor k n i ;;
          PrimeDivisors_loop k n' (wrap32 (i + 1)) (d ++ [i])
        else PrimeDivisors_loop k n (wrap32 (i + 1)) d
      else Val (n, d)
  end.

Definition PrimeDivisors (fuel : nat) (n : Z) : res (list Z) :=
  ' (n', d) <- PrimeDivisors_loop fuel n 2 [] ;;
  Val (if 1 <? n' then d ++ [n'] else d).

(** The loop over the prime divisors in [IsIrreducible]. *)
Fixpoint check_divs (fuel : nat) (f : t) (n : Z) (divs : list Z) : res bool :=
  match divs with
  | [] => Val true
  | q :: rest =>
      pw <- PowInt fuel (p f) (wrap32 (Z.quot n q)) ;;
      h0 <- PowX fuel pw f ;;
      g <- GCD fuel f (sub h0 (of_vector [0; 1] (p f))) ;;
      if 0 <? Degree g then Val false else check_divs fuel f n rest
  end.

Definition IsIrreducible (fuel : nat) (f : t) : res bool :=
  let n := Degree f in
  if n <=? 0 then Val false
  else
    pw <- PowInt fuel (p f) n ;;
    t1 <- PowX fuel pw f ;;
    if negb (is_zero (sub t1 (of_vector [0; 1] (p f)))) then Val false
    else
      divs <- PrimeDivisors fuel n ;;
      check_divs fuel f n divs.

End Poly.

(** ** The data-model invariants and the reference normalisation *)

(** The three invariants of a Polynomial value: the coefficient sequence is
    not empty, every coefficient is in [[0, p-1]], and the highest
    coefficient is non-zero unless the value is the canonical zero [[0]]. *)
Definition wf (f : Poly.t) : Prop :=
  Poly.a f <> []
  /\ Forall (fun x => 0 <= x < Poly.p f) (Poly.a f)
  /\ (last (Poly.a f) 0 <> 0 \/ Poly.a f = [0]).

(** The moduli for which no [int] operation of the class overflows. *)
Definition MAX_MOD : Z := 2 ^ 30.

(** The reference procedure of the specification: reduce every coefficient
    into [[0, md-1]], then drop the highest coefficient while it is zero and
    more than one coefficient remains. *)
Fixpoint drop_high_zeros (n : nat) (v : list Z) : list Z :=
  match n with
  | O => v
  | S n' =>
      if (1 <? length v)%nat && (last v 0 =? 0)
      then drop_high_zeros n' (removelast v)
      else v
  end.

Definition Normalize_ref (md : Z) (v : list Z) : list Z :=
  let r := map (fun x => x mod md) v in
  drop_high_zeros (length r) r.

(** ** Polynomials over [Z] as coefficient lists, and congruence modulo [md]

    The mathematical reading of a coefficient vector: [coef v i] is the
    coefficient of [x^i] (0 beyond the end), [padd], [pscale], [pmul] and
    [ppow] are the ring operations of [Z[x]], and [eqp md] identifies two
    lists that denote the same polynomial of [(Z/md)[x]]. *)

Definition coef (v : list Z) (i : nat) : Z := nth i v 0.

Fixpoint padd (u v : list Z) : list Z :=
  match u, v with
  | [], _ => v
  | _, [] => u
  | x :: u', y :: v' => (x + y) :: padd u' v'
  end.

Definition pscale (c : Z) (v : list Z) : list Z := map (Z.mul c) v.

Definition pshift (n : nat) (v : list Z) : list Z := repeat 0 n ++ v.

Fixpoint pmul (u v : list Z) : list Z :=
  match u with
  | [] => []
  | x :: u' => padd (pscale x v) (0 :: pmul u' v)
  end.

Fixpoint ppow (u : list Z) (n : nat) : list Z :=
  match n with
  | O => [1]
  | S m => pmul u (ppow u m)
  end.

Definition eqp (md : Z) (u v : list Z) : Prop :=
  forall i, coef u i mod md = coef v i mod md.

Definition ranged (md : Z) (v : list Z) : Prop :=
  Forall (fun x => 0 <= x < md) v.

(** The loop shared by [operator +] and [operator -]: cell [i] of the
    (possibly resized) copy of [this] is combined with cell [i] of [t]. *)
Definition zip_loop (f : Z -> Z -> Z) (u v : list Z) : list Z :=
  for_range (length v) (fun i r => upd r i (f (nth i r 0) (nth i v 0)))
    (if (length u <? length v)%nat then resize u (length v) else u).

(** One row of the double loop of [operator *]: row [i] adds
    [u[i] * v[j]] into cell [i + j] for every [j]. *)
Definition mul_row (md : Z) (u v : list Z) (i : nat) (r : list Z) : list Z :=
  for_range (length v)
    (fun j r =>
       upd r (i + j)
         (wrap32
            (Z.rem (wrap64 (nth (i + j) r 0 + wrap64 (nth i u 0 * nth j v 0)))
                   md)))
    r.

(** The loop invariant of the extended Euclidean algorithm on [(x, md)]:
    both remainders are congruent to their coefficient times [x], and the
    coefficients stay small enough for [int]. *)
Definition InvMod_inv (x md r0 r1 s0 s1 : Z) : Prop :=
  0 <= r0 <= INT_MAX /\ 0 <= r1 <= INT_MAX
  /\ Z.gcd r0 r1 = Z.gcd x md
  /\ (md | s0 * x - r0) /\ (md | s1 * x - r1)
  /\ Z.abs s0 * r1 + Z.abs s1 * r0 <= md
  /\ Z.abs s0 <= md /\ Z.abs s1 <= md.

(** The vector [sub] built in one iteration of the loop. *)
Definition sub_vector (md : Z) (d : list Z) (shift : nat) (c : Z) : list Z :=
  for_range (length d)
    (fun i s => upd s (shift + i) (wrap32 (Z.rem (wrap64 (c * nth i d 0)) md)))
    (repeat 0 (shift + length d)).

(** The remainder after one iteration of the loop of [DivMod]. *)
Definition DivMod_next (md : Z) (d : Poly.t) (invLead : Z) (R : Poly.t)
  : Poly.t :=
  let c := wrap32 (Z.rem (wrap64 (last (Poly.a R) 0 * invLead)) md) in
  let shift := Z.to_nat (Poly.Degree R - Poly.Degree d) in
  Poly.sub R (Poly.of_vector (sub_vector md (Poly.a d) shift c) md).

(** The loop invariant of [DivMod] for the dividend [A]: the running
    remainder is a well-formed value no longer than [A], the quotient cells
    at or below the next shift are still zero, and [A = Q d + R] in
    [(Z/md)[x]]. *)
Definition DivMod_inv (md : Z) (d A Q R : Poly.t) : Prop :=
  wf R /\ Poly.p R = md
  /\ (length (Poly.a R) <= length (Poly.a A))%nat
  /\ length (Poly.a Q) = (length (Poly.a A) + 1 - length (Poly.a d))%nat
  /\ (Poly.is_zero R = false ->
      forall j, (j + length (Poly.a d) <= length (Poly.a R))%nat ->
                nth j (Poly.a Q) 0 = 0)
  /\ eqp md (Poly.a A) (padd (pmul (Poly.a Q) (Poly.a d)) (Poly.a R)).

(** The quantity that decreases along the loops of [DivMod] and [GCD]: the
    number of coefficients, the zero polynomial counting for 0. *)
Definition measure (R : Poly.t) : nat :=
  if Poly.is_zero R then 0%nat else length (Poly.a R).

Definition popp (u : list Z) : list Z := pscale (-1) u.
Definition psub (u v : list Z) : list Z := padd u (popp v).

(** [cong md f u v]: [u] and [v] differ by a multiple of [f] in
    [(Z/md)[x]]. *)
Definition cong (md : Z) (f u v : list Z) : Prop :=
  exists q, eqp md u (padd v (pmul q f)).

(** [reduced f X]: [X] is a canonical representative of a residue modulo
    [f], a well-formed value with fewer coefficients than [f]. *)
Definition reduced (f X : Poly.t) : Prop :=
  wf X /\ Poly.p X = Poly.p f /\ (length (Poly.a X) < length (Poly.a f))%nat.

(** Irreducibility over GF(p) in the words of the specification: degree
    at least 1, and not a product of two polynomials of positive degree. *)
Definition irreducible_GFp (f : Poly.t) : Prop :=
  1 <= Poly.Degree f
  /\ forall g h,
       wf g -> wf h -> Poly.p g = Poly.p f -> Poly.p h = Poly.p f ->
       1 <= Poly.Degree g -> 1 <= Poly.Degree h ->
       Poly.mul g h <> Val f.

(** [pdivides md g u]: [u] is a multiple of [g] in [(Z/md)[x]]. *)
Definition pdivides (md : Z) (g u : list Z) : Prop :=
  exists q, eqp md u (pmul q g).

(** Divisibility stated with the operations of the class: [A] is the product
    of [G] by some well-formed value over the same modulus. *)
Definition divides (G A : Poly.t) : Prop :=
  exists Q, wf Q /\ Poly.p Q = Poly.p G /\ Poly.mul Q G = Val A.

(** The loop invariant of [PrimeDivisors] for the argument [n0]: the
    running [n] divides [n0] and has no divisor in [[2, i)], every prime
    divisor of [n0] divides [n] or is already recorded, and the recorded
    values are primes dividing [n0], below [i], in increasing order. *)
Definition PrimeDivisors_inv (n0 n i : Z) (d : list Z) : Prop :=
  1 <= n <= n0
  /\ 2 <= i /\ ((i - 1) * (i - 1) <= n0 \/ i = 2)
  /\ (n | n0)
  /\ (forall q, 2 <= q < i -> ~ (q | n))
  /\ (forall q, Z.prime q -> (q | n0) -> (q | n) \/ In q d)
  /\ (forall q, In q d -> Z.prime q /\ (q | n0) /\ q < i)
  /\ StronglySorted Z.lt d.

(** The value of a polynomial at a point, by Horner's rule. *)
Fixpoint peval (u : list Z) (r : Z) : Z :=
  match u with
  | [] => 0
  | c :: u' => c + r * peval u' r
  end.

(** Trial division: no [q] in [[i, i + k)] divides [n]. *)
Fixpoint no_divisor_from (k : nat) (n i : Z) : bool :=
  match k with
  | O => true
  | S k' => if n mod i =? 0 then false else no_divisor_from k' n (i + 1)
  end.

(** * Properties *)

(** ** Machine integers: no wrap-around inside the range *)

Lemma wrap32_small z : - 2 ^ 31 <= z < 2 ^ 31 -> wrap32 z = z.
Proof.
  intros H. unfold wrap32.
  rewrite Z.mod_small by lia. lia.
Qed.

Lemma wrap64_small z : - 2 ^ 63 <= z < 2 ^ 63 -> wrap64 z = z.
Proof.
  intros H. unfold wrap64.
  rewrite Z.mod_small by lia. lia.
Qed.

Lemma rem_abs_lt x md : 0 < md -> - md < Z.rem x md < md.
Proof.
  intros H.
  pose proof (Z.rem_bound_abs x md ltac:(lia)). lia.
Qed.

Lemma rem_zero_iff x md : 0 < md -> (Z.rem x md = 0 <-> x mod md = 0).
Proof.
  intros H. apply Z.rem_mod_eq_0. lia.
Qed.

Lemma reduce_mod md x : 0 < md <= MAX_MOD -> Poly.reduce md x = x mod md.
Proof.
  unfold MAX_MOD. intros H. unfold Poly.reduce.
  pose proof (rem_abs_lt x md ltac:(lia)) as Hr.
  rewrite wrap32_small by lia.
  rewrite Z.rem_mod_nonneg by lia.
  pose proof (Z.quot_rem' x md) as Hq.
  replace (Z.rem x md + md) with (x + (1 - Z.quot x md) * md) by lia.
  apply Z_mod_plus_full.
Qed.

(** ** Vectors: updates and counted loops *)

Lemma length_upd v i x : length (upd v i x) = length v.
Proof.
  revert i; induction v as [| y v IH]; intros [| i]; simpl; auto.
Qed.

Lemma nth_upd v i x j :
  nth j (upd v i x) 0 = if (j =? i)%nat && (i <? length v)%nat then x else nth j v 0.
Proof.
  revert i j; induction v as [| y v IH]; intros [| i] [| j]; simpl; auto;
    rewrite ?Bool.andb_false_r; auto.
Qed.

Lemma for_range_S {S : Type} n (body : nat -> S -> S) s :
  for_range (Datatypes.S n) body s = body n (for_range n body s).
Proof.
  unfold for_range. rewrite seq_S, fold_left_app. reflexivity.
Qed.

Lemma for_range_0 {S : Type} (body : nat -> S -> S) s : for_range 0 body s = s.
Proof. reflexivity. Qed.

(** A counted loop that rewrites the cell [k + i] from its old content. *)
Lemma for_range_upd_length n k (g : nat -> Z -> Z) v :
  length (for_range n (fun i r => upd r (k + i) (g i (nth (k + i) r 0))) v)
  = length v.
Proof.
  induction n as [| n IH].
  - reflexivity.
  - rewrite for_range_S, length_upd. exact IH.
Qed.

Lemma for_range_upd_nth n k (g : nat -> Z -> Z) v j :
  nth j (for_range n (fun i r => upd r (k + i) (g i (nth (k + i) r 0))) v) 0
  = if (k <=? j)%nat && (j <? k + n)%nat && (j <? length v)%nat
    then g (j - k)%nat (nth j v 0) else nth j v 0.
Proof.
  induction n as [| n IH].
  - rewrite for_range_0.
    destruct (k <=? j)%nat eqn:E1, (j <? k + 0)%nat eqn:E2; simpl; auto.
    apply Nat.leb_le in E1. apply Nat.ltb_lt in E2. lia.
  - rewrite for_range_S, nth_upd, for_range_upd_length.
    destruct (Nat.eqb_spec j (k + n)) as [-> | Hne].
    + rewrite IH.
      replace (k <=? k + n)%nat with true by (symmetry; apply Nat.leb_le; lia).
      replace (k + n <? k + n)%nat with false by (symmetry; apply Nat.ltb_ge; lia).
      replace (k + n <? k + Datatypes.S n)%nat with true
        by (symmetry; apply Nat.ltb_lt; lia).
      replace (k + n - k)%nat with n by lia.
      simpl. destruct (k + n <? length v)%nat eqn:E; simpl; auto.
    + simpl. rewrite IH.
      destruct (k <=? j)%nat eqn:E1; simpl; auto.
      destruct (j <? k + n)%nat eqn:E2, (j <? k + Datatypes.S n)%nat eqn:E3;
        simpl; auto.
      * apply Nat.ltb_lt in E2. apply Nat.ltb_ge in E3. lia.
      * apply Nat.ltb_ge in E2. apply Nat.ltb_lt in E3. lia.
Qed.

Lemma length_resize v n : length (resize v n) = n.
Proof.
  unfold resize. rewrite length_app, length_firstn, repeat_length. lia.
Qed.

Lemma nth_resize_grow v n j :
  (length v <= n)%nat -> nth j (resize v n) 0 = nth j v 0.
Proof.
  intros H. unfold resize. rewrite firstn_all2 by lia.
  destruct (Nat.lt_ge_cases j (length v)) as [Hj | Hj].
  - rewrite app_nth1 by lia. reflexivity.
  - rewrite app_nth2 by lia. rewrite nth_repeat.
    rewrite nth_overflow by lia. reflexivity.
Qed.

(** ** Normalize *)

Lemma last_snoc (l : list Z) x d : last (l ++ [x]) d = x.
Proof. apply last_last. Qed.

Lemma list_snoc_cases (v : list Z) : v = [] \/ exists l x, v = l ++ [x].
Proof.
  destruct v as [| y v] using rev_ind; [left | right]; eauto.
Qed.

Lemma pop_zeros_ref md n v :
  0 < md <= MAX_MOD ->
  map (Poly.reduce md) (Poly.pop_zeros n md v)
  = drop_high_zeros n (map (fun x => x mod md) v).
Proof.
  intros Hmd. revert v. induction n as [| n IH]; intros v; simpl.
  - apply map_ext. intros x. apply reduce_mod; assumption.
  - rewrite length_map.
    destruct (list_snoc_cases v) as [-> | (l & x & ->)].
    + reflexivity.
    + rewrite map_app. simpl map. rewrite !last_snoc, !removelast_last.
      destruct (1 <? length (l ++ [x]))%nat; simpl.
      * destruct (Z.eqb_spec (Z.rem x md) 0) as [E | E];
          destruct (Z.eqb_spec (x mod md) 0) as [E' | E'].
        -- apply IH.
        -- apply rem_zero_iff in E; [contradiction | lia].
        -- apply rem_zero_iff in E'; [contradiction | lia].
        -- rewrite map_app. simpl. f_equal.
           ++ apply map_ext. intros y. apply reduce_mod; assumption.
           ++ rewrite reduce_mod by assumption. reflexivity.
      * rewrite map_app. simpl. f_equal.
        -- apply map_ext. intros y. apply reduce_mod; assumption.
        -- rewrite reduce_mod by assumption. reflexivity.
Qed.

Lemma Normalize_a_ref md v :
  0 < md <= MAX_MOD ->
  Poly.a (Poly.Normalize (Poly.mk md v)) = Normalize_ref md v.
Proof.
  intros Hmd. unfold Poly.Normalize, Normalize_ref. simpl.
  rewrite length_map. apply pop_zeros_ref; assumption.
Qed.

Lemma coef_nil i : coef [] i = 0.
Proof. unfold coef. destruct i; reflexivity. Qed.

Lemma coef_cons_0 x v : coef (x :: v) 0 = x.
Proof. reflexivity. Qed.

Lemma coef_cons_S x v i : coef (x :: v) (S i) = coef v i.
Proof. reflexivity. Qed.

Lemma coef_padd u v i : coef (padd u v) i = coef u i + coef v i.
Proof.
  revert v i. induction u as [| x u IH]; intros [| y v] i; simpl.
  - rewrite coef_nil. reflexivity.
  - rewrite coef_nil. reflexivity.
  - rewrite coef_nil. lia.
  - destruct i as [| i].
    + reflexivity.
    + rewrite !coef_cons_S. apply IH.
Qed.

Lemma coef_pscale c v i : coef (pscale c v) i = c * coef v i.
Proof.
  unfold coef, pscale.
  replace 0 with (c * 0) at 1 by lia. apply map_nth.
Qed.

Lemma coef_pshift n v i :
  coef (pshift n v) i = if (i <? n)%nat then 0 else coef v (i - n).
Proof.
  unfold coef, pshift.
  destruct (Nat.ltb_spec i n) as [H | H].
  - rewrite app_nth1 by (rewrite repeat_length; lia). apply nth_repeat.
  - rewrite app_nth2 by (rewrite repeat_length; lia).
    rewrite repeat_length. reflexivity.
Qed.

Lemma coef_overflow v i : (length v <= i)%nat -> coef v i = 0.
Proof. intros H. unfold coef. apply nth_overflow. exact H. Qed.

Lemma length_padd u v : length (padd u v) = Nat.max (length u) (length v).
Proof.
  revert v. induction u as [| x u IH]; intros [| y v]; simpl; auto.
Qed.

Lemma length_pscale c v : length (pscale c v) = length v.
Proof. apply length_map. Qed.

Lemma coef_pmul_overflow u v i :
  (length u + length v <= i + 1)%nat -> coef (pmul u v) i = 0.
Proof.
  revert i. induction u as [| x u IH]; intros i H; simpl in *.
  - apply coef_nil.
  - rewrite coef_padd, coef_pscale.
    rewrite (coef_overflow v i) by lia.
    destruct i as [| i].
    + rewrite coef_cons_0. lia.
    + rewrite coef_cons_S, IH by lia. lia.
Qed.

Section Congruence.

Variable md : Z.
Hypothesis Hmd : 0 < md.

Lemma add_mod_compat x x' y y' :
  x mod md = x' mod md -> y mod md = y' mod md ->
  (x + y) mod md = (x' + y') mod md.
Proof.
  intros H1 H2.
  rewrite (Z.add_mod x y), (Z.add_mod x' y') by lia. rewrite H1, H2. reflexivity.
Qed.

Lemma mul_mod_compat x x' y y' :
  x mod md = x' mod md -> y mod md = y' mod md ->
  (x * y) mod md = (x' * y') mod md.
Proof.
  intros H1 H2.
  rewrite (Z.mul_mod x y), (Z.mul_mod x' y') by lia. rewrite H1, H2. reflexivity.
Qed.

Lemma eqp_refl u : eqp md u u.
Proof. intros i. reflexivity. Qed.

Lemma eqp_sym u v : eqp md u v -> eqp md v u.
Proof. intros H i. symmetry. apply H. Qed.

Lemma eqp_trans u v w : eqp md u v -> eqp md v w -> eqp md u w.
Proof. intros H1 H2 i. rewrite H1. apply H2. Qed.

#[local] Instance eqp_Equivalence : Equivalence (eqp md).
Proof.
  split.
  - exact eqp_refl.
  - exact eqp_sym.
  - exact eqp_trans.
Qed.

Lemma coef_eq_eqp u v : (forall i, coef u i = coef v i) -> eqp md u v.
Proof. intros H i. rewrite H. reflexivity. Qed.

Lemma eqp_cons x y u v :
  x mod md = y mod md -> eqp md u v -> eqp md (x :: u) (y :: v).
Proof.
  intros Hx Hu [| i].
  - exact Hx.
  - rewrite !coef_cons_S. apply Hu.
Qed.

Lemma eqp_cons_inv x y u v :
  eqp md (x :: u) (y :: v) -> x mod md = y mod md /\ eqp md u v.
Proof.
  intros H. split.
  - exact (H O).
  - intros i. exact (H (S i)).
Qed.

Lemma eqp_nil_cons y v :
  eqp md [] (y :: v) -> 0 = y mod md /\ eqp md [] v.
Proof.
  intros H. split.
  - exact (H O).
  - intros i. specialize (H (S i)). rewrite coef_cons_S in H.
    rewrite coef_nil in *. exact H.
Qed.

#[local] Instance cons_Proper : Proper (eq ==> eqp md ==> eqp md) cons.
Proof.
  intros x y -> u v H. apply eqp_cons; [reflexivity | exact H].
Qed.

#[local] Instance padd_Proper : Proper (eqp md ==> eqp md ==> eqp md) padd.
Proof.
  intros u u' Hu v v' Hv i. rewrite !coef_padd.
  apply add_mod_compat; [apply Hu | apply Hv].
Qed.

#[local] Instance pscale_Proper c : Proper (eqp md ==> eqp md) (pscale c).
Proof.
  intros u u' Hu i. rewrite !coef_pscale.
  apply mul_mod_compat; [reflexivity | apply Hu].
Qed.

Lemma pscale_mod_compat c c' v :
  c mod md = c' mod md -> eqp md (pscale c v) (pscale c' v).
Proof.
  intros H i. rewrite !coef_pscale. apply mul_mod_compat; [exact H | reflexivity].
Qed.

#[local] Instance pshift_Proper n : Proper (eqp md ==> eqp md) (pshift n).
Proof.
  intros u u' Hu i. rewrite !coef_pshift.
  destruct (i <? n)%nat; [reflexivity | apply Hu].
Qed.

Lemma pmul_Proper_r u v v' : eqp md v v' -> eqp md (pmul u v) (pmul u v').
Proof.
  intros Hv. induction u as [| x u IH]; simpl.
  - reflexivity.
  - rewrite IH, Hv. reflexivity.
Qed.

Lemma pmul_zero_l u v : eqp md [] u -> eqp md [] (pmul u v).
Proof.
  revert v. induction u as [| x u IH]; intros v H; simpl.
  - reflexivity.
  - apply eqp_nil_cons in H. destruct H as [Hx Hu].
    rewrite <- (IH v Hu).
    intros i. rewrite coef_padd, coef_pscale, coef_nil.
    replace 0 with (0 * coef v i + 0) at 1 by lia.
    apply add_mod_compat.
    + apply mul_mod_compat; [rewrite <- Hx; reflexivity | reflexivity].
    + destruct i; [reflexivity | rewrite coef_cons_S, coef_nil; reflexivity].
Qed.

Lemma pmul_Proper_l u u' v : eqp md u u' -> eqp md (pmul u v) (pmul u' v).
Proof.
  revert u'. induction u as [| x u IH]; intros [| y u'] H.
  - reflexivity.
  - apply (pmul_zero_l _ v H).
  - symmetry. apply (pmul_zero_l _ v). symmetry. exact H.
  - apply eqp_cons_inv in H. destruct H as [Hx Hu]. simpl.
    rewrite (IH u' Hu). rewrite (pscale_mod_compat x y v Hx). reflexivity.
Qed.

#[local] Instance pmul_Proper : Proper (eqp md ==> eqp md ==> eqp md) pmul.
Proof.
  intros u u' Hu v v' Hv.
  rewrite (pmul_Proper_l u u' v Hu). apply pmul_Proper_r. exact Hv.
Qed.

End Congruence.

Arguments coef : simpl never.

Ltac coef_simpl :=
  repeat (rewrite ?coef_padd, ?coef_pscale, ?coef_cons_S, ?coef_cons_0,
           ?coef_nil).

(** Closes a goal [eqp md u v] whose two sides have equal coefficients in
    [Z] once [padd], [pscale] and the leading conses are computed. *)
Ltac coef_ring :=
  let i := fresh "i" in
  intros i; try destruct i as [| i]; coef_simpl; f_equal; ring.

Section PolyRing.

Variable md : Z.
Hypothesis Hmd : 0 < md.

#[local] Instance eqp_Equiv : Equivalence (eqp md) := eqp_Equivalence md.
#[local] Instance cons_Prop : Proper (eq ==> eqp md ==> eqp md) cons :=
  cons_Proper md.
#[local] Instance padd_Prop : Proper (eqp md ==> eqp md ==> eqp md) padd :=
  padd_Proper md Hmd.
#[local] Instance pscale_Prop c : Proper (eqp md ==> eqp md) (pscale c) :=
  pscale_Proper md Hmd c.
#[local] Instance pshift_Prop n : Proper (eqp md ==> eqp md) (pshift n) :=
  pshift_Proper md n.
#[local] Instance pmul_Prop : Proper (eqp md ==> eqp md ==> eqp md) pmul :=
  pmul_Proper md Hmd.

Lemma padd_comm u v : eqp md (padd u v) (padd v u).
Proof. coef_ring. Qed.

Lemma padd_assoc u v w : eqp md (padd u (padd v w)) (padd (padd u v) w).
Proof. coef_ring. Qed.

Lemma padd_nil_l u : padd [] u = u.
Proof. reflexivity. Qed.

Lemma padd_nil_r u : padd u [] = u.
Proof. destruct u; reflexivity. Qed.

Lemma eqp_nil_zero : eqp md [] [0].
Proof. coef_ring. Qed.

Lemma padd_zero_r u : eqp md (padd u [0]) u.
Proof. coef_ring. Qed.

Lemma pscale_padd c u v :
  eqp md (pscale c (padd u v)) (padd (pscale c u) (pscale c v)).
Proof. coef_ring. Qed.

Lemma pscale_pscale c c' u : eqp md (pscale c (pscale c' u)) (pscale (c * c') u).
Proof. coef_ring. Qed.

Lemma pscale_1 u : eqp md (pscale 1 u) u.
Proof. coef_ring. Qed.

Lemma pscale_0 u : eqp md (pscale 0 u) [].
Proof. coef_ring. Qed.

Lemma pscale_cons c x u : pscale c (x :: u) = c * x :: pscale c u.
Proof. reflexivity. Qed.

Lemma padd_opp u : eqp md (padd u (pscale (-1) u)) [].
Proof. coef_ring. Qed.

Lemma pmul_nil_r u : eqp md (pmul u []) [].
Proof.
  induction u as [| x u IH]; simpl.
  - reflexivity.
  - rewrite IH. coef_ring.
Qed.

Lemma pmul_cons0_l u v : eqp md (pmul (0 :: u) v) (0 :: pmul u v).
Proof. simpl. coef_ring. Qed.

Lemma pmul_cons0_r u v : eqp md (pmul u (0 :: v)) (0 :: pmul u v).
Proof.
  induction u as [| x u IH]; simpl.
  - coef_ring.
  - rewrite IH. intros [| [| i]]; coef_simpl; f_equal; ring.
Qed.

Lemma pmul_cons_l x u v :
  eqp md (pmul (x :: u) v) (padd (pscale x v) (0 :: pmul u v)).
Proof. reflexivity. Qed.

Lemma pmul_cons_r x u v :
  eqp md (pmul u (x :: v)) (padd (pscale x u) (0 :: pmul u v)).
Proof.
  induction u as [| y u IH]; simpl.
  - coef_ring.
  - rewrite IH. intros [| [| i]]; coef_simpl; f_equal; ring.
Qed.

Lemma pmul_comm u v : eqp md (pmul u v) (pmul v u).
Proof.
  revert v. induction u as [| x u IH]; intros v.
  - simpl. symmetry. apply pmul_nil_r.
  - rewrite pmul_cons_r. simpl. rewrite IH. reflexivity.
Qed.

Lemma pmul_padd_distr_r u v w :
  eqp md (pmul u (padd v w)) (padd (pmul u v) (pmul u w)).
Proof.
  induction u as [| x u IH]; simpl.
  - reflexivity.
  - rewrite IH. intros [| i]; coef_simpl; f_equal; ring.
Qed.

Lemma pmul_padd_distr_l u v w :
  eqp md (pmul (padd u v) w) (padd (pmul u w) (pmul v w)).
Proof.
  rewrite (pmul_comm (padd u v) w), pmul_padd_distr_r.
  rewrite (pmul_comm w u), (pmul_comm w v). reflexivity.
Qed.

Lemma pmul_pscale_l c u v : eqp md (pmul (pscale c u) v) (pscale c (pmul u v)).
Proof.
  induction u as [| x u IH]; simpl.
  - reflexivity.
  - rewrite IH. intros [| i]; coef_simpl; f_equal; ring.
Qed.

Lemma pmul_pscale_r c u v : eqp md (pmul u (pscale c v)) (pscale c (pmul u v)).
Proof.
  rewrite (pmul_comm u (pscale c v)), pmul_pscale_l, (pmul_comm v u).
  reflexivity.
Qed.

Lemma pmul_assoc u v w : eqp md (pmul (pmul u v) w) (pmul u (pmul v w)).
Proof.
  induction u as [| x u IH]; simpl.
  - reflexivity.
  - rewrite pmul_padd_distr_l, pmul_pscale_l, pmul_cons0_l, IH. reflexivity.
Qed.

Lemma pmul_1_l u : eqp md (pmul [1] u) u.
Proof. simpl. coef_ring. Qed.

Lemma pmul_1_r u : eqp md (pmul u [1]) u.
Proof. rewrite pmul_comm. apply pmul_1_l. Qed.

Lemma pshift_0 u : pshift 0 u = u.
Proof. reflexivity. Qed.

Lemma pshift_S n u : pshift (S n) u = 0 :: pshift n u.
Proof. reflexivity. Qed.

Lemma pmul_pshift_l n u v : eqp md (pmul (pshift n u) v) (pshift n (pmul u v)).
Proof.
  induction n as [| n IH].
  - reflexivity.
  - rewrite !pshift_S, pmul_cons0_l, IH. reflexivity.
Qed.

Lemma pmul_pshift_r n u v : eqp md (pmul u (pshift n v)) (pshift n (pmul u v)).
Proof.
  rewrite (pmul_comm u (pshift n v)), pmul_pshift_l, (pmul_comm v u).
  reflexivity.
Qed.

Lemma pmul_single c v : eqp md (pmul [c] v) (pscale c v).
Proof. simpl. coef_ring. Qed.

Lemma pmul_snoc u x v :
  eqp md (pmul (u ++ [x]) v)
         (padd (pmul u v) (pshift (length u) (pscale x v))).
Proof.
  induction u as [| y u IH]; simpl.
  - rewrite pshift_0. coef_ring.
  - rewrite IH, pshift_S. intros [| i]; coef_simpl; f_equal; ring.
Qed.

Lemma ppow_add u n m :
  eqp md (ppow u (n + m)) (pmul (ppow u n) (ppow u m)).
Proof.
  induction n as [| n IH]; simpl.
  - symmetry. etransitivity; [| apply padd_zero_r].
    change (padd (pscale 1 (ppow u m)) [0]) with (pmul [1] (ppow u m)).
    rewrite pmul_1_l. symmetry. apply padd_zero_r.
  - rewrite IH, pmul_assoc. reflexivity.
Qed.

Lemma ppow_pmul_distr u v n :
  eqp md (ppow (pmul u v) n) (pmul (ppow u n) (ppow v n)).
Proof.
  induction n as [| n IH]; simpl.
  - coef_ring.
  - rewrite IH.
    rewrite !pmul_assoc. apply pmul_Proper_r; [exact Hmd |].
    rewrite <- !pmul_assoc. apply pmul_Proper_l; [exact Hmd |].
    apply pmul_comm.
Qed.

Lemma ppow_Proper u u' n : eqp md u u' -> eqp md (ppow u n) (ppow u' n).
Proof.
  intros H. induction n as [| n IH]; simpl.
  - reflexivity.
  - rewrite IH, H. reflexivity.
Qed.

Lemma ppow_square u n : eqp md (ppow (pmul u u) n) (ppow u (2 * n)).
Proof.
  rewrite ppow_pmul_distr. replace (2 * n)%nat with (n + n)%nat by lia.
  symmetry. apply ppow_add.
Qed.

End PolyRing.

(** ** Canonical representatives *)

Lemma drop_high_zeros_spec n v :
  (length v <= n)%nat ->
  let r := drop_high_zeros n v in
  (forall i, nth i r 0 = nth i v 0)
  /\ (length r <= length v)%nat
  /\ (v <> [] -> r <> [])
  /\ (forall P : Z -> Prop, Forall P v -> Forall P r)
  /\ ((length r <= 1)%nat \/ last r 0 <> 0).
Proof.
  revert v. induction n as [| n IH]; intros v Hlen; simpl.
  - destruct v; [| simpl in Hlen; lia].
    repeat split; auto; try solve [left; simpl; lia].
  - destruct (list_snoc_cases v) as [-> | (l & x & ->)].
    + simpl. repeat split; auto; try solve [left; simpl; lia].
    + rewrite last_snoc, removelast_last.
      rewrite length_app in *. simpl in *.
      destruct (Nat.ltb_spec 1 (length l + 1)) as [H1 | H1]; simpl.
      * destruct (Z.eqb_spec x 0) as [-> | Hx].
        -- destruct (IH l ltac:(lia)) as (A1 & A2 & A3 & A4 & A5).
           repeat split.
           ++ intros i. rewrite A1.
              destruct (Nat.lt_ge_cases i (length l)).
              ** rewrite app_nth1 by lia. reflexivity.
              ** rewrite app_nth2 by lia. rewrite nth_overflow by lia.
                 destruct (i - length l)%nat as [| [| k]]; reflexivity.
           ++ lia.
           ++ intros _. apply A3. destruct l; [simpl in H1; lia | discriminate].
           ++ intros P HP. apply A4. apply Forall_app in HP. tauto.
           ++ exact A5.
        -- repeat split; auto.
           ++ rewrite length_app. simpl. lia.
           ++ right. rewrite last_snoc. exact Hx.
      * repeat split; auto.
        -- rewrite length_app. simpl. lia.
        -- left. rewrite length_app. simpl. lia.
Qed.

Lemma last_nth (v : list Z) : last v 0 = nth (length v - 1) v 0.
Proof.
  destruct (list_snoc_cases v) as [-> | (l & x & ->)].
  - reflexivity.
  - rewrite last_snoc, length_app. simpl.
    rewrite app_nth2 by lia.
    replace (length l + 1 - 1 - length l)%nat with 0%nat by lia. reflexivity.
Qed.

Lemma wf_pos f : wf f -> 0 < Poly.p f.
Proof.
  intros (Hne & Hr & _). destruct (Poly.a f) as [| x l]; [congruence |].
  inversion Hr; subst. lia.
Qed.

Lemma wf_length f : wf f -> (1 <= length (Poly.a f))%nat.
Proof.
  intros (Hne & _). destruct (Poly.a f); [congruence | simpl; lia].
Qed.

Lemma wf_range f i : wf f -> 0 <= nth i (Poly.a f) 0 < Poly.p f.
Proof.
  intros Hwf. pose proof (wf_pos f Hwf) as Hp.
  destruct Hwf as (_ & Hr & _).
  destruct (Nat.lt_ge_cases i (length (Poly.a f))) as [H | H].
  - rewrite Forall_forall in Hr. apply Hr. apply nth_In. exact H.
  - rewrite nth_overflow by lia. lia.
Qed.

Lemma Normalize_p f : Poly.p (Poly.Normalize f) = Poly.p f.
Proof. reflexivity. Qed.

Section NormalizeFacts.

Variable md : Z.
Hypothesis Hmd : 0 < md <= MAX_MOD.

Lemma Normalize_nth v i :
  nth i (Poly.a (Poly.Normalize (Poly.mk md v))) 0 = nth i v 0 mod md.
Proof.
  rewrite Normalize_a_ref by assumption. unfold Normalize_ref.
  destruct (drop_high_zeros_spec (length (map (fun x => x mod md) v))
              (map (fun x => x mod md) v) (le_n _)) as (A1 & _).
  rewrite A1.
  rewrite <- (map_nth (fun x => x mod md) v 0 i). simpl.
  rewrite Z.mod_0_l by lia. reflexivity.
Qed.

Lemma Normalize_length_le v :
  (length (Poly.a (Poly.Normalize (Poly.mk md v))) <= length v)%nat.
Proof.
  rewrite Normalize_a_ref by assumption. unfold Normalize_ref.
  destruct (drop_high_zeros_spec (length (map (fun x => x mod md) v))
              (map (fun x => x mod md) v) (le_n _)) as (_ & A2 & _).
  rewrite !length_map in A2. rewrite length_map. exact A2.
Qed.

Lemma Normalize_wf v : v <> [] -> wf (Poly.Normalize (Poly.mk md v)).
Proof.
  intros Hne. unfold wf. rewrite Normalize_a_ref by assumption.
  unfold Normalize_ref. simpl Poly.p.
  set (m := map (fun x => x mod md) v).
  destruct (drop_high_zeros_spec (length m) m (le_n _))
    as (A1 & A2 & A3 & A4 & A5).
  assert (Hm : m <> []) by (subst m; destruct v; [congruence | discriminate]).
  assert (Hr : Forall (fun x => 0 <= x < md) m).
  { subst m. apply Forall_map. apply Forall_forall. intros x _.
    apply Z.mod_pos_bound. lia. }
  split; [apply A3; exact Hm |].
  split; [apply A4; exact Hr |].
  specialize (A3 Hm).
  destruct A5 as [A5 | A5]; [| left; exact A5].
  destruct (drop_high_zeros (length m) m) as [| x [| y l]] eqn:E.
  - congruence.
  - simpl. destruct (Z.eq_dec x 0) as [-> | Hx]; [right | left]; auto.
  - simpl in A5. lia.
Qed.

(** A vector whose coefficients from [n] on are multiples of [md]
    normalises to at most [n] coefficients. *)
Lemma Normalize_length_bound v n :
  (1 <= n)%nat ->
  (forall i, (n <= i)%nat -> nth i v 0 mod md = 0) ->
  (length (Poly.a (Poly.Normalize (Poly.mk md v))) <= n)%nat.
Proof.
  intros Hn Hz.
  pose proof (Normalize_nth v) as Hnth.
  rewrite Normalize_a_ref in * by assumption. unfold Normalize_ref in *.
  set (m := map (fun x => x mod md) v) in *.
  destruct (drop_high_zeros_spec (length m) m (le_n _))
    as (_ & _ & _ & _ & A5).
  set (r := drop_high_zeros (length m) m) in *.
  destruct A5 as [A5 | A5]; [lia |].
  destruct (Nat.le_gt_cases (length r) n) as [H | H]; [exact H |].
  exfalso. apply A5. rewrite last_nth, Hnth. apply Hz. lia.
Qed.

End NormalizeFacts.

(** Two values that satisfy the invariants and agree modulo [p] in every
    coefficient are the same value. *)
Lemma wf_unique f g :
  wf f -> wf g -> Poly.p f = Poly.p g ->
  eqp (Poly.p f) (Poly.a f) (Poly.a g) -> f = g.
Proof.
  intros Hf Hg Hp He.
  assert (Hnth : forall i, nth i (Poly.a f) 0 = nth i (Poly.a g) 0).
  { intros i. specialize (He i). unfold coef in He.
    pose proof (wf_range f i Hf). pose proof (wf_range g i Hg).
    rewrite Hp in *. rewrite !Z.mod_small in He by lia. exact He. }
  assert (Hlen : forall f g, wf f -> wf g ->
            (forall i, nth i (Poly.a f) 0 = nth i (Poly.a g) 0) ->
            (length (Poly.a f) <= length (Poly.a g))%nat).
  { clear. intros f g Hf Hg Hnth.
    destruct (Nat.le_gt_cases (length (Poly.a f)) (length (Poly.a g)))
      as [H | H]; [exact H | exfalso].
    pose proof (wf_length g Hg) as Hg1.
    destruct Hf as (_ & _ & [Hl | Hz]).
    - apply Hl. rewrite last_nth, Hnth. apply nth_overflow. lia.
    - rewrite Hz in H. simpl in H. lia. }
  pose proof (Hlen f g Hf Hg Hnth) as L1.
  pose proof (Hlen g f Hg Hf (fun i => eq_sym (Hnth i))) as L2.
  destruct f as [pf af], g as [pg ag]. simpl in *. subst pg. f_equal.
  apply (nth_ext af ag 0 0); [lia | intros i _; apply Hnth].
Qed.

Lemma Normalize_eqp md v :
  0 < md <= MAX_MOD -> eqp md (Poly.a (Poly.Normalize (Poly.mk md v))) v.
Proof.
  intros Hmd i. unfold coef. rewrite Normalize_nth by assumption.
  apply Z.mod_mod. lia.
Qed.

Lemma Normalize_wf_id f : wf f -> Poly.p f <= MAX_MOD -> Poly.Normalize f = f.
Proof.
  intros Hf Hp. pose proof (wf_pos f Hf) as Hpos.
  destruct f as [md v]. simpl in *.
  apply wf_unique.
  - apply Normalize_wf; [lia |]. destruct Hf as (H & _). exact H.
  - exact Hf.
  - reflexivity.
  - apply Normalize_eqp. lia.
Qed.

(** ** Addition, subtraction and multiplication *)

Lemma ranged_nth md v i : 0 < md -> ranged md v -> 0 <= nth i v 0 < md.
Proof.
  intros Hmd Hr.
  destruct (Nat.lt_ge_cases i (length v)) as [H | H].
  - unfold ranged in Hr. rewrite Forall_forall in Hr. apply Hr, nth_In, H.
  - rewrite nth_overflow by lia. lia.
Qed.

Lemma ranged_of_nth md v :
  (forall i, (i < length v)%nat -> 0 <= nth i v 0 < md) -> ranged md v.
Proof.
  intros H. apply Forall_forall. intros x Hx.
  destruct (In_nth v x 0 Hx) as (i & Hi & <-). apply H, Hi.
Qed.

Lemma wf_ranged f : wf f -> ranged (Poly.p f) (Poly.a f).
Proof. intros (_ & H & _). exact H. Qed.

Lemma ranged_repeat md n : 0 < md -> ranged md (repeat 0 n).
Proof. intros H. apply Forall_forall. intros x Hx. apply repeat_spec in Hx. lia. Qed.

Lemma zip_loop_length f u v :
  length (zip_loop f u v) = Nat.max (length u) (length v).
Proof.
  unfold zip_loop.
  rewrite (for_range_upd_length (length v) 0 (fun i x => f x (nth i v 0))).
  destruct (Nat.ltb_spec (length u) (length v)).
  - rewrite length_resize. lia.
  - lia.
Qed.

Lemma zip_loop_nth f u v j :
  nth j (zip_loop f u v) 0
  = if (j <? length v)%nat then f (nth j u 0) (nth j v 0) else nth j u 0.
Proof.
  unfold zip_loop.
  rewrite (for_range_upd_nth (length v) 0 (fun i x => f x (nth i v 0))).
  simpl. rewrite Nat.sub_0_r.
  assert (Hn : nth j (if (length u <? length v)%nat
                      then resize u (length v) else u) 0 = nth j u 0).
  { destruct (Nat.ltb_spec (length u) (length v)).
    - apply nth_resize_grow. lia.
    - reflexivity. }
  rewrite Hn.
  destruct (Nat.ltb_spec j (length v)) as [Hj | Hj]; simpl; [| reflexivity].
  replace (j <? length (if (length u <? length v)%nat
                        then resize u (length v) else u))%nat with true.
  - reflexivity.
  - symmetry. apply Nat.ltb_lt.
    destruct (Nat.ltb_spec (length u) (length v)).
    + rewrite length_resize. lia.
    + lia.
Qed.

Lemma add_unfold A B :
  Poly.add A B
  = Poly.Normalize
      (Poly.mk (Poly.p A)
         (zip_loop (fun x y => Z.rem (wrap32 (x + y)) (Poly.p A))
            (Poly.a A) (Poly.a B))).
Proof. reflexivity. Qed.

Lemma sub_unfold A B :
  Poly.sub A B
  = Poly.Normalize
      (Poly.mk (Poly.p A)
         (zip_loop
            (fun x y => Z.rem (wrap32 (wrap32 (x - y) + Poly.p A)) (Poly.p A))
            (Poly.a A) (Poly.a B))).
Proof. reflexivity. Qed.

Section Arithmetic.

Variable md : Z.
Hypothesis Hmd : 0 < md <= MAX_MOD.

Lemma add_cell x y :
  0 <= x < md -> 0 <= y < md -> Z.rem (wrap32 (x + y)) md = (x + y) mod md.
Proof.
  unfold MAX_MOD in Hmd. intros Hx Hy.
  rewrite wrap32_small by lia. apply Z.rem_mod_nonneg; lia.
Qed.

Lemma sub_cell x y :
  0 <= x < md -> 0 <= y < md ->
  Z.rem (wrap32 (wrap32 (x - y) + md)) md = (x - y) mod md.
Proof.
  unfold MAX_MOD in Hmd. intros Hx Hy.
  rewrite (wrap32_small (x - y)) by lia.
  rewrite wrap32_small by lia.
  rewrite Z.rem_mod_nonneg by lia.
  replace (x - y + md) with (x - y + 1 * md) by lia.
  apply Z_mod_plus_full.
Qed.

Lemma mul_cell r x y :
  0 <= r < md -> 0 <= x < md -> 0 <= y < md ->
  wrap32 (Z.rem (wrap64 (r + wrap64 (x * y))) md) = (r + x * y) mod md.
Proof.
  unfold MAX_MOD in Hmd. intros Hr Hx Hy.
  assert (0 <= x * y < 2 ^ 60) by nia.
  rewrite (wrap64_small (x * y)) by lia.
  rewrite wrap64_small by lia.
  rewrite Z.rem_mod_nonneg by lia.
  pose proof (Z.mod_pos_bound (r + x * y) md ltac:(lia)).
  apply wrap32_small. lia.
Qed.

Lemma add_nth A B i :
  Poly.p A = md -> ranged md (Poly.a A) -> ranged md (Poly.a B) ->
  nth i (Poly.a (Poly.add A B)) 0
  = (nth i (Poly.a A) 0 + nth i (Poly.a B) 0) mod md.
Proof.
  intros Hp HA HB. rewrite add_unfold, Hp, Normalize_nth by assumption.
  rewrite zip_loop_nth.
  pose proof (ranged_nth md _ i ltac:(lia) HA).
  pose proof (ranged_nth md _ i ltac:(lia) HB).
  destruct (Nat.ltb_spec i (length (Poly.a B))) as [Hi | Hi].
  - rewrite add_cell by assumption. apply Z.mod_mod. lia.
  - rewrite (nth_overflow (Poly.a B)) by lia. rewrite Z.add_0_r. reflexivity.
Qed.

Lemma sub_nth A B i :
  Poly.p A = md -> ranged md (Poly.a A) -> ranged md (Poly.a B) ->
  nth i (Poly.a (Poly.sub A B)) 0
  = (nth i (Poly.a A) 0 - nth i (Poly.a B) 0) mod md.
Proof.
  intros Hp HA HB. rewrite sub_unfold, Hp, Normalize_nth by assumption.
  rewrite zip_loop_nth.
  pose proof (ranged_nth md _ i ltac:(lia) HA).
  pose proof (ranged_nth md _ i ltac:(lia) HB).
  destruct (Nat.ltb_spec i (length (Poly.a B))) as [Hi | Hi].
  - rewrite sub_cell by assumption. apply Z.mod_mod. lia.
  - rewrite (nth_overflow (Poly.a B)) by lia. rewrite Z.sub_0_r. reflexivity.
Qed.

Lemma add_wf A B :
  Poly.p A = md -> Poly.a A <> [] -> wf (Poly.add A B).
Proof.
  intros Hp HA. rewrite add_unfold, Hp. apply Normalize_wf; [assumption |].
  intros E. apply (f_equal (@length Z)) in E.
  rewrite zip_loop_length in E.
  destruct (Poly.a A); [congruence | cbn [length] in E; lia].
Qed.

Lemma sub_wf A B :
  Poly.p A = md -> Poly.a A <> [] -> wf (Poly.sub A B).
Proof.
  intros Hp HA. rewrite sub_unfold, Hp. apply Normalize_wf; [assumption |].
  intros E. apply (f_equal (@length Z)) in E.
  rewrite zip_loop_length in E.
  destruct (Poly.a A); [congruence | cbn [length] in E; lia].
Qed.

Lemma add_eqp A B :
  Poly.p A = md -> ranged md (Poly.a A) -> ranged md (Poly.a B) ->
  eqp md (Poly.a (Poly.add A B)) (padd (Poly.a A) (Poly.a B)).
Proof.
  intros Hp HA HB i. unfold coef at 1. rewrite add_nth by assumption.
  rewrite coef_padd. apply Z.mod_mod. lia.
Qed.

Lemma sub_eqp A B :
  Poly.p A = md -> ranged md (Poly.a A) -> ranged md (Poly.a B) ->
  eqp md (Poly.a (Poly.sub A B)) (padd (Poly.a A) (pscale (-1) (Poly.a B))).
Proof.
  intros Hp HA HB i. unfold coef at 1. rewrite sub_nth by assumption.
  rewrite coef_padd, coef_pscale, Z.mod_mod by lia.
  f_equal; unfold coef; ring.
Qed.

Lemma sub_length_le A B :
  Poly.p A = md ->
  (length (Poly.a (Poly.sub A B))
   <= Nat.max (length (Poly.a A)) (length (Poly.a B)))%nat.
Proof.
  intros Hp. rewrite sub_unfold, Hp.
  etransitivity; [apply Normalize_length_le; assumption |].
  rewrite zip_loop_length. reflexivity.
Qed.

End Arithmetic.

Lemma mul_unfold A B :
  Poly.mul A B
  = if (length (Poly.a A) + length (Poly.a B) =? 0)%nat then Throw length_error
    else Val (Poly.Normalize
                (Poly.mk (Poly.p A)
                   (for_range (length (Poly.a A))
                      (mul_row (Poly.p A) (Poly.a A) (Poly.a B))
                      (repeat 0 (length (Poly.a A) + length (Poly.a B) - 1))))).
Proof. reflexivity. Qed.

Lemma firstn_snoc (u : list Z) n :
  (n < length u)%nat -> firstn (S n) u = firstn n u ++ [nth n u 0].
Proof.
  revert n. induction u as [| x u IH]; intros n H; simpl in H.
  - lia.
  - destruct n as [| n]; simpl.
    + reflexivity.
    + f_equal. apply IH. lia.
Qed.

Section Multiplication.

Variable md : Z.
Hypothesis Hmd : 0 < md <= MAX_MOD.

Let Hpos : 0 < md := proj1 Hmd.

Lemma mul_row_length u v i r : length (mul_row md u v i r) = length r.
Proof.
  unfold mul_row.
  apply (for_range_upd_length (length v) i
           (fun j x => wrap32 (Z.rem (wrap64 (x + wrap64 (nth i u 0 * nth j v 0)))
                                     md))).
Qed.

Lemma mul_row_nth u v i r m :
  ranged md u -> ranged md v -> ranged md r ->
  (i + length v <= length r)%nat ->
  nth m (mul_row md u v i r) 0
  = if (i <=? m)%nat && (m <? i + length v)%nat
    then (nth m r 0 + nth i u 0 * nth (m - i) v 0) mod md
    else nth m r 0.
Proof.
  intros Hu Hv Hr Hlen. unfold mul_row.
  rewrite (for_range_upd_nth (length v) i
             (fun j x => wrap32 (Z.rem (wrap64 (x + wrap64 (nth i u 0 * nth j v 0)))
                                       md))).
  destruct (Nat.leb_spec i m) as [H1 | H1]; simpl; [| reflexivity].
  destruct (Nat.ltb_spec m (i + length v)) as [H2 | H2]; simpl; [| reflexivity].
  replace (m <? length r)%nat with true by (symmetry; apply Nat.ltb_lt; lia).
  apply mul_cell; try assumption; apply ranged_nth; assumption.
Qed.

Lemma mul_row_ranged u v i r :
  ranged md u -> ranged md v -> ranged md r ->
  (i + length v <= length r)%nat ->
  ranged md (mul_row md u v i r).
Proof.
  intros Hu Hv Hr Hlen. apply ranged_of_nth. intros m _.
  rewrite mul_row_nth by assumption.
  destruct ((i <=? m)%nat && (m <? i + length v)%nat).
  - apply Z.mod_pos_bound. exact Hpos.
  - apply ranged_nth; assumption.
Qed.

Lemma mul_row_eqp u v i r :
  ranged md u -> ranged md v -> ranged md r ->
  (i + length v <= length r)%nat ->
  eqp md (mul_row md u v i r) (padd r (pshift i (pscale (nth i u 0) v))).
Proof.
  intros Hu Hv Hr Hlen m. unfold coef at 1.
  rewrite mul_row_nth by assumption.
  rewrite coef_padd, coef_pshift, coef_pscale.
  destruct (Nat.leb_spec i m) as [H1 | H1]; simpl.
  - replace (m <? i)%nat with false by (symmetry; apply Nat.ltb_ge; lia).
    destruct (Nat.ltb_spec m (i + length v)) as [H2 | H2].
    + rewrite Z.mod_mod by lia. reflexivity.
    + rewrite (coef_overflow v) by lia. f_equal. unfold coef. ring.
  - replace (m <? i)%nat with true by (symmetry; apply Nat.ltb_lt; lia).
    f_equal. unfold coef. ring.
Qed.

Lemma mul_rows u v n :
  ranged md u -> ranged md v -> (n <= length u)%nat ->
  let r := for_range n (mul_row md u v) (repeat 0 (length u + length v - 1)) in
  length r = (length u + length v - 1)%nat
  /\ ranged md r
  /\ eqp md r (pmul (firstn n u) v).
Proof.
  intros Hu Hv. induction n as [| n IH]; intros Hn; cbv zeta.
  - rewrite for_range_0, repeat_length. simpl firstn. repeat split.
    + apply ranged_repeat. exact Hpos.
    + intros i. unfold coef at 1. rewrite nth_repeat, coef_nil. reflexivity.
  - rewrite for_range_S.
    destruct (IH ltac:(lia)) as (L & R & E).
    set (r := for_range n (mul_row md u v)
                (repeat 0 (length u + length v - 1))) in *.
    assert (Hlen : (n + length v <= length r)%nat) by lia.
    repeat split.
    + rewrite mul_row_length. exact L.
    + apply mul_row_ranged; assumption.
    + apply (eqp_trans md _ (padd r (pshift n (pscale (nth n u 0) v))));
        [apply mul_row_eqp; assumption |].
      rewrite firstn_snoc by lia.
      apply (eqp_trans md _ (padd (pmul (firstn n u) v)
                               (pshift (length (firstn n u))
                                  (pscale (nth n u 0) v))));
        [| apply eqp_sym, pmul_snoc; exact Hpos].
      rewrite length_firstn, Nat.min_l by lia.
      apply padd_Proper; [exact Hpos | exact E | apply eqp_refl].
Qed.

Lemma mul_spec A B :
  Poly.p A = md -> ranged md (Poly.a A) -> ranged md (Poly.a B) ->
  (0 < length (Poly.a A) + length (Poly.a B))%nat ->
  exists M,
    Poly.mul A B = Val M /\ Poly.p M = md
    /\ eqp md (Poly.a M) (pmul (Poly.a A) (Poly.a B))
    /\ (length (Poly.a M) <= length (Poly.a A) + length (Poly.a B) - 1)%nat
    /\ (Poly.a A <> [] -> Poly.a B <> [] -> wf M).
Proof.
  intros Hp HA HB Hne. rewrite mul_unfold, Hp.
  destruct (Nat.eqb_spec (length (Poly.a A) + length (Poly.a B)) 0) as [E | _];
    [lia |].
  destruct (mul_rows (Poly.a A) (Poly.a B) (length (Poly.a A)) HA HB (le_n _))
    as (L & R & E).
  rewrite firstn_all in E.
  eexists. split; [reflexivity |]. split; [reflexivity |].
  split; [| split].
  - eapply eqp_trans; [apply Normalize_eqp; exact Hmd | exact E].
  - etransitivity; [apply Normalize_length_le; exact Hmd |]. rewrite L. lia.
  - intros H1 H2. apply Normalize_wf; [exact Hmd |].
    intros E0. apply (f_equal (@length Z)) in E0. rewrite L in E0.
    destruct (Poly.a A), (Poly.a B); simpl in *; try congruence; lia.
Qed.

End Multiplication.

(** ** InvMod *)

Section InvModFacts.

Variables x md : Z.
Hypothesis Hx : 0 <= x <= INT_MAX.
Hypothesis Hmd : 0 < md <= MAX_MOD.

Lemma InvMod_inv_init : InvMod_inv x md x md 1 0.
Proof.
  unfold InvMod_inv, INT_MAX, MAX_MOD in *. repeat split; try lia.
  - exists 0. lia.
  - exists (-1). lia.
Qed.

Lemma InvMod_inv_step r0 r1 s0 s1 :
  InvMod_inv x md r0 r1 s0 s1 -> r1 <> 0 ->
  let q := wrap32 (Z.quot r0 r1) in
  let r0' := wrap32 (r0 - wrap32 (q * r1)) in
  let s0' := wrap32 (s0 - wrap32 (q * s1)) in
  r0' = Z.rem r0 r1 /\ 0 <= r0' < r1 /\ InvMod_inv x md r1 r0' s1 s0'.
Proof.
  intros (R0 & R1 & G & D0 & D1 & B & B0 & B1) Hr1.
  unfold INT_MAX, MAX_MOD in *.
  assert (Hr1' : 1 <= r1) by lia.
  pose proof (Z.quot_rem' r0 r1) as Hqr.
  pose proof (Z.rem_bound_pos r0 r1 ltac:(lia) ltac:(lia)) as Hrem.
  assert (Hq : 0 <= Z.quot r0 r1) by (apply Z.quot_pos; lia).
  assert (Hqr0 : Z.quot r0 r1 * r1 <= r0) by nia.
  assert (Hq' : Z.quot r0 r1 <= r0) by nia.
  assert (Hqs : Z.abs (Z.quot r0 r1 * s1) <= md).
  { rewrite Z.abs_mul, (Z.abs_eq (Z.quot r0 r1)) by lia.
    pose proof (Z.abs_nonneg s1). pose proof (Z.abs_nonneg s0). nia. }
  assert (Hs : Z.abs (s0 - Z.quot r0 r1 * s1) * r1
               + Z.abs s1 * (r0 - Z.quot r0 r1 * r1) <= md).
  { pose proof (Z.abs_triangle s0 (- (Z.quot r0 r1 * s1))) as T.
    rewrite Z.abs_opp, Z.abs_mul, (Z.abs_eq (Z.quot r0 r1)) in T by lia.
    replace (s0 + - (Z.quot r0 r1 * s1)) with (s0 - Z.quot r0 r1 * s1) in T
      by lia.
    pose proof (Z.abs_nonneg s1). pose proof (Z.abs_nonneg s0). nia. }
  assert (Hs1 : Z.abs (s0 - Z.quot r0 r1 * s1) <= md).
  { pose proof (Z.abs_nonneg (s0 - Z.quot r0 r1 * s1)).
    pose proof (Z.abs_nonneg s1). nia. }
  cbv zeta.
  rewrite (wrap32_small (Z.quot r0 r1)) by lia.
  rewrite (wrap32_small (Z.quot r0 r1 * r1)) by lia.
  rewrite (wrap32_small (r0 - Z.quot r0 r1 * r1)) by lia.
  rewrite (wrap32_small (Z.quot r0 r1 * s1)) by lia.
  rewrite (wrap32_small (s0 - Z.quot r0 r1 * s1)) by lia.
  split; [lia |]. split; [lia |].
  unfold InvMod_inv, INT_MAX. repeat split; try lia; try assumption.
  - rewrite <- G.
    replace (r0 - Z.quot r0 r1 * r1) with (r0 + - Z.quot r0 r1 * r1) by lia.
    rewrite Z.gcd_add_mult_diag_r. apply Z.gcd_comm.
  - replace ((s0 - Z.quot r0 r1 * s1) * x - (r0 - Z.quot r0 r1 * r1))
      with ((s0 * x - r0) - Z.quot r0 r1 * (s1 * x - r1)) by ring.
    apply Z.divide_sub_r; [exact D0 |]. apply Z.divide_mul_r. exact D1.
Qed.

Lemma InvMod_loop_spec fuel r0 r1 s0 s1 :
  InvMod_inv x md r0 r1 s0 s1 -> (Z.to_nat r1 < fuel)%nat ->
  exists s, Poly.InvMod_loop fuel r0 r1 s0 s1 = Val (Z.gcd x md, s)
            /\ (md | s * x - Z.gcd x md).
Proof.
  revert r0 r1 s0 s1. induction fuel as [| fuel IH]; intros r0 r1 s0 s1 I F.
  - lia.
  - simpl. destruct (Z.eqb_spec r1 0) as [-> | Hr1].
    + destruct I as (R0 & _ & G & D0 & _). rewrite Z.gcd_0_r_nonneg in G by lia.
      subst r0. eauto.
    + destruct (InvMod_inv_step r0 r1 s0 s1 I Hr1) as (_ & Hb & I').
      apply IH; [exact I' |]. destruct I as (_ & R1 & _). lia.
Qed.

Lemma InvMod_spec fuel :
  (Z.to_nat md < fuel)%nat ->
  (Z.gcd x md = 1 ->
   exists r, Poly.InvMod fuel x md = Val r /\ 0 <= r < md
             /\ (x * r) mod md = 1 mod md)
  /\ (Z.gcd x md <> 1 -> Poly.InvMod fuel x md = Throw NotInvertible).
Proof.
  intros F. unfold Poly.InvMod.
  destruct (InvMod_loop_spec fuel x md 1 0 InvMod_inv_init F) as (s & -> & D).
  simpl. split; intros G.
  - rewrite G in *. simpl. eexists. split; [reflexivity |].
    change (Z.rem (wrap32 (Z.rem s md + md)) md) with (Poly.reduce md s).
    rewrite reduce_mod by assumption.
    split; [apply Z.mod_pos_bound; lia |].
    rewrite Z.mul_mod_idemp_r by lia.
    destruct D as (k & Hk).
    replace (x * s) with (1 + k * md) by lia.
    apply Z_mod_plus_full.
  - destruct (Z.eqb_spec (Z.gcd x md) 1); [contradiction | reflexivity].
Qed.

End InvModFacts.

(** ** DivMod *)

Lemma is_zero_true f : Poly.is_zero f = true <-> Poly.a f = [0].
Proof.
  unfold Poly.is_zero. destruct (Poly.a f) as [| x [| y l]]; simpl.
  - split; discriminate.
  - destruct (Z.eqb_spec x 0) as [-> | H]; split; try tauto; try discriminate.
    intros E. congruence.
  - split; discriminate.
Qed.

Lemma wf_last_nonzero f : wf f -> Poly.is_zero f = false -> last (Poly.a f) 0 <> 0.
Proof.
  intros (_ & _ & [H | H]) Hz; [exact H |].
  apply is_zero_true in H. congruence.
Qed.

Lemma scale_cell md c y :
  0 < md <= MAX_MOD -> 0 <= c < md -> 0 <= y < md ->
  wrap32 (Z.rem (wrap64 (c * y)) md) = (c * y) mod md.
Proof.
  unfold MAX_MOD. intros Hmd Hc Hy.
  assert (0 <= c * y < 2 ^ 60) by nia.
  rewrite wrap64_small by lia.
  rewrite Z.rem_mod_nonneg by lia.
  pose proof (Z.mod_pos_bound (c * y) md ltac:(lia)).
  apply wrap32_small. lia.
Qed.

Lemma DivMod_loop_unfold fuel md d invLead Q R :
  Poly.DivMod_loop (S fuel) md d invLead Q R
  = if (Poly.Degree d <=? Poly.Degree R) && negb (Poly.is_zero R) then
      let c := wrap32 (Z.rem (wrap64 (last (Poly.a R) 0 * invLead)) md) in
      let shift := Z.to_nat (Poly.Degree R - Poly.Degree d) in
      Poly.DivMod_loop fuel md d invLead
        (Poly.mk (Poly.p Q) (upd (Poly.a Q) shift c))
        (Poly.sub R (Poly.of_vector (sub_vector md (Poly.a d) shift c) md))
    else Val (Q, R).
Proof. reflexivity. Qed.

Section DivModFacts.

Variable md : Z.
Variable d : Poly.t.
Variable inv : Z.
Hypothesis Hmd : 0 < md <= MAX_MOD.
Hypothesis Hd : wf d.
Hypothesis Hdp : Poly.p d = md.
Hypothesis Hdz : Poly.is_zero d = false.
Hypothesis Hinv : 0 <= inv < md.
Hypothesis Hinv1 : (last (Poly.a d) 0 * inv) mod md = 1 mod md.

Let Hpos : 0 < md := proj1 Hmd.

Lemma sub_vector_length s c : length (sub_vector md (Poly.a d) s c) = (s + length (Poly.a d))%nat.
Proof.
  unfold sub_vector.
  rewrite (for_range_upd_length (length (Poly.a d)) s
             (fun i _ => wrap32 (Z.rem (wrap64 (c * nth i (Poly.a d) 0)) md))).
  apply repeat_length.
Qed.

Lemma sub_vector_nth s c m :
  0 <= c < md ->
  nth m (sub_vector md (Poly.a d) s c) 0
  = if (s <=? m)%nat && (m <? s + length (Poly.a d))%nat
    then (c * nth (m - s) (Poly.a d) 0) mod md else 0.
Proof.
  intros Hc. unfold sub_vector.
  rewrite (for_range_upd_nth (length (Poly.a d)) s
             (fun i _ => wrap32 (Z.rem (wrap64 (c * nth i (Poly.a d) 0)) md))).
  rewrite repeat_length, nth_repeat.
  destruct (Nat.leb_spec s m) as [H1 | H1]; simpl; [| reflexivity].
  destruct (Nat.ltb_spec m (s + length (Poly.a d))) as [H2 | H2]; simpl;
    [| reflexivity].
  apply scale_cell; try assumption.
  rewrite <- Hdp. apply wf_range. exact Hd.
Qed.

Lemma sub_vector_eqp s c :
  0 <= c < md ->
  eqp md (sub_vector md (Poly.a d) s c) (pshift s (pscale c (Poly.a d))).
Proof.
  intros Hc m. unfold coef at 1. rewrite sub_vector_nth by assumption.
  rewrite coef_pshift, coef_pscale.
  destruct (Nat.leb_spec s m) as [H1 | H1]; simpl.
  - replace (m <? s)%nat with false by (symmetry; apply Nat.ltb_ge; lia).
    destruct (Nat.ltb_spec m (s + length (Poly.a d))) as [H2 | H2].
    + apply Z.mod_mod. lia.
    + rewrite (coef_overflow (Poly.a d)) by lia. f_equal. ring.
  - replace (m <? s)%nat with true by (symmetry; apply Nat.ltb_lt; lia).
    reflexivity.
Qed.

(** One iteration: the new remainder satisfies the invariants, denotes
    [R - c x^shift d], and is shorter than [R] unless it is zero. *)
Lemma DivMod_step R :
  wf R -> Poly.p R = md -> Poly.is_zero R = false ->
  (length (Poly.a d) <= length (Poly.a R))%nat ->
  let c := wrap32 (Z.rem (wrap64 (last (Poly.a R) 0 * inv)) md) in
  let shift := (length (Poly.a R) - length (Poly.a d))%nat in
  let R' := Poly.sub R (Poly.of_vector (sub_vector md (Poly.a d) shift c) md) in
  0 <= c < md
  /\ wf R' /\ Poly.p R' = md
  /\ eqp md (Poly.a R')
       (padd (Poly.a R) (pscale (-1) (pshift shift (pscale c (Poly.a d)))))
  /\ ((length (Poly.a R') < length (Poly.a R))%nat \/ Poly.is_zero R' = true).
Proof.
  intros HR HRp HRz Hlen. cbv zeta.
  set (c := wrap32 (Z.rem (wrap64 (last (Poly.a R) 0 * inv)) md)).
  set (shift := (length (Poly.a R) - length (Poly.a d))%nat).
  set (sv := Poly.of_vector (sub_vector md (Poly.a d) shift c) md).
  pose proof (wf_length d Hd) as Hdl.
  assert (HlR : 0 <= last (Poly.a R) 0 < md).
  { rewrite last_nth, <- HRp. apply wf_range. exact HR. }
  assert (Hc : c = (last (Poly.a R) 0 * inv) mod md).
  { unfold c. apply scale_cell; assumption. }
  assert (Hcr : 0 <= c < md) by (rewrite Hc; apply Z.mod_pos_bound; lia).
  assert (Hsvwf : wf sv).
  { unfold sv, Poly.of_vector. apply Normalize_wf; [assumption |].
    intros E. apply (f_equal (@length Z)) in E.
    rewrite sub_vector_length in E. simpl in E. lia. }
  assert (Hsvr : ranged md (Poly.a sv)) by (apply (wf_ranged sv Hsvwf)).
  assert (HRr : ranged md (Poly.a R)) by (rewrite <- HRp; apply wf_ranged, HR).
  assert (Hsve : eqp md (Poly.a sv) (pshift shift (pscale c (Poly.a d)))).
  { eapply eqp_trans; [apply Normalize_eqp; assumption |].
    apply sub_vector_eqp. exact Hcr. }
  assert (Hnth : forall i, nth i (Poly.a (Poly.sub R sv)) 0
                           = (nth i (Poly.a R) 0 - nth i (Poly.a sv) 0) mod md).
  { intros i. apply sub_nth; assumption. }
  assert (Hwf' : wf (Poly.sub R sv)).
  { apply (sub_wf md Hmd); [exact HRp |]. destruct HR as (H & _). exact H. }
  split; [exact Hcr |]. split; [exact Hwf' |]. split; [exact HRp |].
  split.
  - eapply eqp_trans; [apply sub_eqp; eassumption |].
    apply padd_Proper; [exact Hpos | apply eqp_refl |].
    apply pscale_Proper; [exact Hpos | exact Hsve].
  - (* the leading coefficients cancel *)
    assert (Htop : forall i, (length (Poly.a R) - 1 <= i)%nat ->
                     nth i (Poly.a (Poly.sub R sv)) 0 = 0).
    { intros i Hi. rewrite Hnth.
      unfold sv, Poly.of_vector. rewrite Normalize_nth by assumption.
      rewrite sub_vector_nth by assumption.
      pose proof (wf_length R HR) as HRl.
      destruct (Nat.eq_dec i (length (Poly.a R) - 1)) as [-> | Hne].
      - replace (shift <=? length (Poly.a R) - 1)%nat with true
          by (symmetry; apply Nat.leb_le; unfold shift; lia).
        replace (length (Poly.a R) - 1 <? shift + length (Poly.a d))%nat
          with true by (symmetry; apply Nat.ltb_lt; unfold shift; lia).
        simpl. rewrite Z.mod_mod by lia.
        replace (length (Poly.a R) - 1 - shift)%nat
          with (length (Poly.a d) - 1)%nat by (unfold shift; lia).
        rewrite <- !last_nth. rewrite Hc.
        rewrite Z.mul_mod_idemp_l by lia.
        replace (last (Poly.a R) 0 * inv * last (Poly.a d) 0)
          with (last (Poly.a R) 0 * (last (Poly.a d) 0 * inv)) by ring.
        rewrite <- (Z.mul_mod_idemp_r (last (Poly.a R) 0)
                      (last (Poly.a d) 0 * inv)) by lia.
        rewrite Hinv1, Z.mul_mod_idemp_r by lia.
        rewrite Z.mul_1_r, (Z.mod_small (last (Poly.a R) 0)) by lia.
        rewrite Z.sub_diag. apply Z.mod_0_l. lia.
      - rewrite (nth_overflow (Poly.a R)) by lia.
        replace (i <? shift + length (Poly.a d))%nat with false
          by (symmetry; apply Nat.ltb_ge; unfold shift; lia).
        rewrite Bool.andb_false_r. rewrite Z.mod_0_l by lia.
        simpl. rewrite ?Z.mod_0_l by lia. reflexivity. }
    pose proof (wf_length R HR) as HRl.
    destruct (Nat.eq_dec (length (Poly.a R)) 1) as [E1 | E1].
    + right. apply is_zero_true.
      assert (L : (length (Poly.a (Poly.sub R sv)) <= 1)%nat).
      { etransitivity; [apply (sub_length_le md Hmd); exact HRp |].
        unfold sv, Poly.of_vector.
        pose proof (Normalize_length_le md Hmd
                      (sub_vector md (Poly.a d) shift c)) as L1.
        rewrite sub_vector_length in L1. subst shift. lia. }
      pose proof (wf_length _ Hwf') as L2.
      specialize (Htop 0%nat ltac:(lia)).
      destruct (Poly.a (Poly.sub R sv)) as [| z [| z' l]]; simpl in *;
        try lia. congruence.
    + left.
      assert (L : (length (Poly.a (Poly.sub R sv)) <= length (Poly.a R) - 1)%nat).
      { pose proof (sub_unfold R sv) as U. rewrite HRp in U.
        rewrite U. apply Normalize_length_bound; [assumption | lia |].
        intros i Hi. rewrite <- (Normalize_nth md Hmd). rewrite <- U.
        apply Htop. exact Hi. }
      lia.
Qed.

Lemma upd_fresh_eqp Q s c :
  nth s Q 0 = 0 -> (s < length Q)%nat ->
  eqp md (upd Q s c) (padd Q (pshift s [c])).
Proof.
  intros Hz Hs i. f_equal. unfold coef at 1. rewrite nth_upd.
  rewrite coef_padd, coef_pshift.
  replace (s <? length Q)%nat with true by (symmetry; apply Nat.ltb_lt; lia).
  rewrite Bool.andb_true_r.
  destruct (Nat.eqb_spec i s) as [-> | Hne].
  - replace (s <? s)%nat with false by (symmetry; apply Nat.ltb_ge; lia).
    rewrite Nat.sub_diag. unfold coef. rewrite Hz. simpl. lia.
  - destruct (Nat.ltb_spec i s) as [Hlt | Hge].
    + unfold coef. lia.
    + rewrite (coef_overflow [c]) by (simpl; lia). unfold coef. lia.
Qed.

Lemma pmul_zeros n v : eqp md (pmul (repeat 0 n) v) [].
Proof.
  apply eqp_sym. apply pmul_zero_l; [exact Hpos |].
  intros i. unfold coef. rewrite nth_repeat. destruct i; reflexivity.
Qed.

Lemma DivMod_inv_step A Q R :
  DivMod_inv md d A Q R -> Poly.is_zero R = false ->
  (length (Poly.a d) <= length (Poly.a R))%nat ->
  let c := wrap32 (Z.rem (wrap64 (last (Poly.a R) 0 * inv)) md) in
  let shift := (length (Poly.a R) - length (Poly.a d))%nat in
  let R' := Poly.sub R (Poly.of_vector (sub_vector md (Poly.a d) shift c) md) in
  let Q' := Poly.mk (Poly.p Q) (upd (Poly.a Q) shift c) in
  DivMod_inv md d A Q' R'
  /\ ((length (Poly.a R') < length (Poly.a R))%nat \/ Poly.is_zero R' = true).
Proof.
  intros (HR & HRp & HRA & HQl & HQz & HE) HRz Hlen.
  destruct (DivMod_step R HR HRp HRz Hlen) as (Hc & HR' & HRp' & HE' & Hdec).
  cbv zeta in *.
  set (c := wrap32 (Z.rem (wrap64 (last (Poly.a R) 0 * inv)) md)) in *.
  set (shift := (length (Poly.a R) - length (Poly.a d))%nat) in *.
  set (R' := Poly.sub R (Poly.of_vector (sub_vector md (Poly.a d) shift c) md))
    in *.
  pose proof (wf_length R HR) as HRl.
  pose proof (wf_length d Hd) as Hdl.
  assert (HR'len : (length (Poly.a R') <= length (Poly.a R))%nat).
  { destruct Hdec as [H | H]; [lia |].
    apply is_zero_true in H. rewrite H. simpl. lia. }
  split; [| exact Hdec].
  unfold DivMod_inv. cbn [Poly.a].
  split; [exact HR' |]. split; [exact HRp' |]. split; [lia |].
  split; [rewrite length_upd; exact HQl |].
  split.
  - intros HRz' j Hj.
    destruct Hdec as [Hdec | Hdec]; [| congruence].
    rewrite nth_upd.
    destruct (Nat.eqb_spec j shift) as [E | E]; [subst shift; lia |].
    simpl. apply HQz; [exact HRz | lia].
  - set (S := pshift shift (pscale c (Poly.a d))) in *.
    assert (HQ' : eqp md (pmul (upd (Poly.a Q) shift c) (Poly.a d))
                    (padd (pmul (Poly.a Q) (Poly.a d)) S)).
    { eapply eqp_trans.
      - apply pmul_Proper_l; [exact Hpos |].
        apply upd_fresh_eqp; [apply HQz; [exact HRz | subst shift; lia] |].
        subst shift. lia.
      - eapply eqp_trans; [apply pmul_padd_distr_l; exact Hpos |].
        apply padd_Proper; [exact Hpos | apply eqp_refl |].
        eapply eqp_trans; [apply pmul_pshift_l; exact Hpos |].
        apply pshift_Proper. apply pmul_single. }
    eapply eqp_trans; [exact HE |]. apply eqp_sym.
    eapply eqp_trans; [apply padd_Proper; [exact Hpos | exact HQ' | exact HE'] |].
    intros i. coef_simpl. f_equal. ring.
Qed.

Lemma DivMod_loop_spec fuel A Q R :
  DivMod_inv md d A Q R -> (measure R < fuel)%nat ->
  exists Q' R',
    Poly.DivMod_loop fuel md d inv Q R = Val (Q', R')
    /\ DivMod_inv md d A Q' R' /\ Poly.p Q' = Poly.p Q
    /\ ((length (Poly.a R') < length (Poly.a d))%nat
        \/ Poly.is_zero R' = true).
Proof.
  revert Q R. induction fuel as [| fuel IH]; intros Q R I F; [lia |].
  rewrite DivMod_loop_unfold. unfold Poly.Degree. unfold measure in F.
  destruct (Poly.is_zero R) eqn:HRz.
  - rewrite Bool.andb_false_r. exists Q, R. auto.
  - destruct (Z.leb_spec (Z.of_nat (length (Poly.a d)) - 1)
                (Z.of_nat (length (Poly.a R)) - 1)) as [Hle | Hgt]; simpl.
    + assert (Hlen : (length (Poly.a d) <= length (Poly.a R))%nat) by lia.
      replace (Z.to_nat (Z.of_nat (length (Poly.a R)) - 1
                         - (Z.of_nat (length (Poly.a d)) - 1)))
        with (length (Poly.a R) - length (Poly.a d))%nat by lia.
      destruct (DivMod_inv_step A Q R I HRz Hlen) as (I' & Hdec).
      cbv zeta in I', Hdec.
      edestruct IH as (Q' & R' & E & I'' & HQp & Hend); [exact I' | |].
      * unfold measure. pose proof (wf_length R (proj1 I)) as HRl.
        destruct (Poly.is_zero (Poly.sub R _)) eqn:Z'; [lia |].
        destruct Hdec as [Hdec | Hdec]; [lia | congruence].
      * exists Q', R'. rewrite E. auto.
    + exists Q, R. split; [reflexivity |]. split; [exact I |].
      split; [reflexivity |]. left. lia.
Qed.

End DivModFacts.

Lemma DivMod_zero_check d :
  (Poly.Degree d =? 0) && (nth 0 (Poly.a d) 0 =? 0) = Poly.is_zero d.
Proof.
  unfold Poly.is_zero, Poly.Degree. f_equal.
  destruct (Nat.eqb_spec (length (Poly.a d)) 1);
    destruct (Z.eqb_spec (Z.of_nat (length (Poly.a d)) - 1) 0); lia.
Qed.

Lemma Normalize_nil md : Poly.Normalize (Poly.mk md []) = Poly.mk md [].
Proof. reflexivity. Qed.

(** What [DivMod] returns for a well-formed dividend and a non-zero
    well-formed divisor whose leading coefficient is a unit modulo [p]. *)
Lemma DivMod_spec fuel A d :
  wf A -> wf d -> Poly.p d = Poly.p A -> Poly.p A <= MAX_MOD ->
  Poly.is_zero d = false -> Z.gcd (last (Poly.a d) 0) (Poly.p A) = 1 ->
  (Z.to_nat (Poly.p A) < fuel)%nat -> (length (Poly.a A) < fuel)%nat ->
  exists Q R,
    Poly.DivMod fuel A d = Val (Q, R)
    /\ wf R /\ Poly.p R = Poly.p A /\ Poly.p Q = Poly.p A
    /\ ((length (Poly.a R) < length (Poly.a d))%nat \/ Poly.is_zero R = true)
    /\ (length (Poly.a R) <= length (Poly.a A))%nat
    /\ eqp (Poly.p A) (Poly.a A) (padd (pmul (Poly.a Q) (Poly.a d)) (Poly.a R))
    /\ ((length (Poly.a d) <= length (Poly.a A))%nat -> wf Q)
    /\ ((length (Poly.a A) < length (Poly.a d))%nat -> Poly.a Q = [] /\ R = A).
Proof.
  intros HA Hd Hdp HM Hdz Hg F1 F2.
  pose proof (wf_pos A HA) as Hpos.
  set (md := Poly.p A) in *.
  assert (Hmd : 0 < md <= MAX_MOD) by lia.
  unfold Poly.DivMod. rewrite DivMod_zero_check, Hdz. fold md.
  assert (Hl : 0 <= last (Poly.a d) 0 <= INT_MAX).
  { rewrite last_nth. pose proof (wf_range d (length (Poly.a d) - 1) Hd) as H.
    rewrite Hdp in H. unfold INT_MAX, MAX_MOD in *. lia. }
  destruct (InvMod_spec (last (Poly.a d) 0) md Hl Hmd fuel F1) as (Hinv & _).
  destruct (Hinv Hg) as (inv & -> & Hir & Hi1). clear Hinv. simpl bind.
  set (Q0 := Poly.mk md
               (repeat 0 (Z.to_nat (Z.max 0 (Poly.Degree A - Poly.Degree d + 1))))).
  assert (I0 : DivMod_inv md d A Q0 A).
  { unfold DivMod_inv, Q0. cbn [Poly.a].
    split; [exact HA |]. split; [reflexivity |]. split; [lia |].
    split; [rewrite repeat_length; unfold Poly.Degree; lia |].
    split; [intros _ j _; apply nth_repeat |].
    eapply eqp_trans;
      [| apply padd_Proper;
         [exact Hpos | apply eqp_sym, (pmul_zeros md Hmd) | apply eqp_refl]].
    apply eqp_refl. }
  assert (F : (measure A < fuel)%nat).
  { unfold measure. destruct (Poly.is_zero A); lia. }
  destruct (DivMod_loop_spec md d inv Hmd Hd Hdp Hir Hi1 fuel A Q0 A I0 F)
    as (Q' & R' & -> & I' & HQp & Hend).
  simpl bind.
  destruct I' as (HR' & HRp' & HRl' & HQl' & _ & HE').
  assert (HNR : Poly.Normalize R' = R').
  { apply Normalize_wf_id; [exact HR' | lia]. }
  assert (HQ'eq : Q' = Poly.mk md (Poly.a Q')).
  { destruct Q' as [pq aq]. simpl in *. subst pq. reflexivity. }
  exists (Poly.Normalize Q'), (Poly.Normalize R').
  rewrite HNR. split; [reflexivity |]. split; [exact HR' |].
  split; [exact HRp' |]. split; [rewrite Normalize_p; exact HQp |].
  split; [exact Hend |]. split; [exact HRl' |].
  split; [| split].
  - eapply eqp_trans; [exact HE' |].
    apply padd_Proper; [exact Hpos | | apply eqp_refl].
    apply pmul_Proper_l; [exact Hpos |].
    apply eqp_sym. rewrite HQ'eq. apply Normalize_eqp. exact Hmd.
  - intros Hlen. rewrite HQ'eq. apply Normalize_wf; [exact Hmd |].
    intros E. rewrite E in HQl'. simpl in HQl'. lia.
  - intros Hlen.
    assert (E : Poly.a Q' = []).
    { destruct (Poly.a Q'); [reflexivity | simpl in HQl'; lia]. }
    split.
    + rewrite HQ'eq, E. reflexivity.
    + rewrite E in HE'. simpl in HE'.
      symmetry.
      apply wf_unique; [exact HA | exact HR' | symmetry; exact HRp' | exact HE'].
Qed.

(** ** The ring [(Z/md)[x]] and congruence modulo a polynomial *)

Lemma coef_popp u i : coef (popp u) i = - coef u i.
Proof. unfold popp. rewrite coef_pscale. lia. Qed.

Lemma coef_psub u v i : coef (psub u v) i = coef u i - coef v i.
Proof. unfold psub. rewrite coef_padd, coef_popp. lia. Qed.

Section QuotientRing.

Variable md : Z.
Hypothesis Hmd : 0 < md.

#[local] Instance eqp_Equiv' : Equivalence (eqp md) := eqp_Equivalence md.
#[local] Instance cons_Prop' : Proper (eq ==> eqp md ==> eqp md) cons :=
  cons_Proper md.
#[local] Instance padd_Prop' : Proper (eqp md ==> eqp md ==> eqp md) padd :=
  padd_Proper md Hmd.
#[local] Instance pscale_Prop' c : Proper (eqp md ==> eqp md) (pscale c) :=
  pscale_Proper md Hmd c.
#[local] Instance pmul_Prop' : Proper (eqp md ==> eqp md ==> eqp md) pmul :=
  pmul_Proper md Hmd.

#[local] Instance popp_Prop : Proper (eqp md ==> eqp md) popp.
Proof. intros u v H. unfold popp. rewrite H. reflexivity. Qed.

Lemma poly_ring_theory :
  ring_theory [] [1] padd pmul psub popp (eqp md).
Proof.
  constructor.
  - intros u. reflexivity.
  - intros u v. apply padd_comm.
  - intros u v w. apply padd_assoc.
  - intros u. apply pmul_1_l; exact Hmd.
  - intros u v. apply pmul_comm; exact Hmd.
  - intros u v w. symmetry. apply pmul_assoc; exact Hmd.
  - intros u v w. apply pmul_padd_distr_l; exact Hmd.
  - intros u v. reflexivity.
  - intros u. apply padd_opp.
Qed.

Lemma poly_ring_eq_ext : ring_eq_ext padd pmul popp (eqp md).
Proof.
  constructor.
  - exact padd_Prop'.
  - exact pmul_Prop'.
  - exact popp_Prop.
Qed.

Add Ring poly_ring : poly_ring_theory (setoid eqp_Equiv' poly_ring_eq_ext).

Variable f : list Z.

Lemma cong_refl u : cong md f u u.
Proof. exists []. simpl. rewrite padd_nil_r. reflexivity. Qed.

Lemma cong_sym u v : cong md f u v -> cong md f v u.
Proof.
  intros (q & H). exists (popp q). rewrite H. ring.
Qed.

Lemma cong_trans u v w : cong md f u v -> cong md f v w -> cong md f u w.
Proof.
  intros (q1 & H1) (q2 & H2). exists (padd q1 q2). rewrite H1, H2. ring.
Qed.

Lemma eqp_cong u v : eqp md u v -> cong md f u v.
Proof. intros H. exists []. simpl. rewrite padd_nil_r. exact H. Qed.

Lemma cong_pmul u u' v v' :
  cong md f u u' -> cong md f v v' -> cong md f (pmul u v) (pmul u' v').
Proof.
  intros (q1 & H1) (q2 & H2).
  exists (padd (padd (pmul u' q2) (pmul q1 v')) (pmul (pmul q1 q2) f)).
  rewrite H1, H2. ring.
Qed.

Lemma cong_ppow u u' n : cong md f u u' -> cong md f (ppow u n) (ppow u' n).
Proof.
  intros H. induction n as [| n IH]; simpl.
  - apply cong_refl.
  - apply cong_pmul; assumption.
Qed.

Lemma ppow_odd u n :
  eqp md (pmul u (ppow (pmul u u) n)) (ppow u (2 * n + 1)).
Proof.
  rewrite ppow_square by exact Hmd.
  replace (2 * n + 1)%nat with (S (2 * n)) by lia. reflexivity.
Qed.

End QuotientRing.

(** ** Uniqueness of the remainder *)

Section Uniqueness.

Variable md : Z.
Variable f : list Z.
Variable inv : Z.
Hypothesis Hmd : 0 < md.
Hypothesis Hf : f <> [].
Hypothesis Hinv : (last f 0 * inv) mod md = 1 mod md.

(** The degree of [f] as a polynomial of [(Z/md)[x]]. *)
Let n : nat := (length f - 1)%nat.

Lemma unit_cancel x : (x * last f 0) mod md = 0 -> x mod md = 0.
Proof.
  intros H.
  replace x with (x * 1) by lia.
  rewrite <- Z.mul_mod_idemp_r, <- Hinv, Z.mul_mod_idemp_r by lia.
  replace (x * (last f 0 * inv)) with (x * last f 0 * inv) by ring.
  rewrite <- Z.mul_mod_idemp_l, H by lia. reflexivity.
Qed.

Lemma snoc_zero_eqp q x : x mod md = 0 -> eqp md (q ++ [x]) q.
Proof.
  intros Hx i. unfold coef.
  destruct (Nat.lt_ge_cases i (length q)) as [H | H].
  - rewrite app_nth1 by lia. reflexivity.
  - rewrite app_nth2 by lia. rewrite (nth_overflow q) by lia.
    destruct (i - length q)%nat as [| [| k]]; simpl; auto.
Qed.

(** A multiple [q f] all of whose coefficients from [n] on vanish modulo
    [md] has [q = 0]: the leading coefficient of [f] is a unit. *)
Lemma multiple_low_degree q w :
  eqp md (pmul q f) w ->
  (forall i, (n <= i)%nat -> coef w i mod md = 0) ->
  eqp md q [].
Proof.
  revert w. induction q as [| x q IH] using rev_ind; intros w He Hw.
  - apply eqp_refl.
  - assert (Hx : x mod md = 0).
    { apply unit_cancel.
      pose proof (pmul_snoc md Hmd q x f (length q + n)%nat) as Hs.
      rewrite (He (length q + n)%nat), Hw in Hs by lia.
      rewrite coef_padd, coef_pshift, coef_pscale in Hs.
      rewrite coef_pmul_overflow in Hs
        by (subst n; destruct f; [congruence | simpl; lia]).
      replace (length q + n <? length q)%nat with false in Hs
        by (symmetry; apply Nat.ltb_ge; lia).
      replace (length q + n - length q)%nat with n in Hs by lia.
      unfold coef in Hs. subst n. rewrite <- last_nth in Hs.
      simpl in Hs. symmetry. exact Hs. }
    pose proof (snoc_zero_eqp q x Hx) as Hq.
    eapply eqp_trans; [exact Hq |].
    apply (IH w); [| exact Hw].
    eapply eqp_trans; [| exact He].
    apply pmul_Proper_l; [exact Hmd |]. apply eqp_sym. exact Hq.
Qed.

Lemma mod_move x y z :
  x mod md = (y + z) mod md -> z mod md = (x - y) mod md.
Proof.
  intros H. rewrite <- Zminus_mod_idemp_l, H, Zminus_mod_idemp_l.
  f_equal. lia.
Qed.

Lemma remainder_unique u v :
  (length u <= n)%nat -> (length v <= n)%nat ->
  cong md f u v -> eqp md u v.
Proof.
  intros Hu Hv (q & H).
  assert (Hq : eqp md q []).
  { apply (multiple_low_degree q (psub u v)).
    - intros i. rewrite coef_psub. apply mod_move.
      specialize (H i). rewrite coef_padd in H. exact H.
    - intros i Hi. rewrite coef_psub, !coef_overflow by lia. reflexivity. }
  eapply eqp_trans; [exact H |].
  intros i. rewrite coef_padd.
  pose proof (pmul_zero_l md Hmd q f (eqp_sym md _ _ Hq) i) as Hz.
  rewrite coef_nil in Hz.
  rewrite <- Z.add_mod_idemp_r by lia. rewrite <- Hz.
  rewrite Z.add_mod_idemp_r by lia. f_equal. lia.
Qed.

End Uniqueness.

(** ** Remainders modulo a polynomial of degree at least 1 *)

Lemma prime_unit md c : Z.prime md -> 0 < c < md -> Z.gcd c md = 1.
Proof.
  intros Hp Hc. rewrite Z.gcd_comm.
  apply Z.coprime_prime_small; [exact Hp | lia].
Qed.

Lemma wf_lead_range f :
  wf f -> Poly.is_zero f = false -> 0 < last (Poly.a f) 0 < Poly.p f.
Proof.
  intros Hf Hz. pose proof (wf_last_nonzero f Hf Hz) as Hl.
  rewrite last_nth in *.
  pose proof (wf_range f (length (Poly.a f) - 1) Hf). lia.
Qed.

Lemma wf_lead_unit f :
  wf f -> Z.prime (Poly.p f) -> Poly.is_zero f = false ->
  Z.gcd (last (Poly.a f) 0) (Poly.p f) = 1.
Proof.
  intros Hf Hp Hz. apply prime_unit; [exact Hp |].
  apply wf_lead_range; assumption.
Qed.

Lemma unit_inverse c md :
  Z.gcd c md = 1 -> exists inv, (c * inv) mod md = 1 mod md.
Proof.
  intros H. destruct (Z.gcd_bezout c md 1 H) as (u & v & E).
  exists u. replace (c * u) with (1 + (- v) * md) by lia.
  apply Z_mod_plus_full.
Qed.

Lemma long_not_zero f : (2 <= length (Poly.a f))%nat -> Poly.is_zero f = false.
Proof.
  intros H. unfold Poly.is_zero.
  destruct (Nat.eqb_spec (length (Poly.a f)) 1); [lia | reflexivity].
Qed.

Section Modulus.

Variable f : Poly.t.
Hypothesis Hf : wf f.
Hypothesis Hprime : Z.prime (Poly.p f).
Hypothesis Hmax : Poly.p f <= MAX_MOD.
Hypothesis Hdeg : (2 <= length (Poly.a f))%nat.

Let md : Z := Poly.p f.
Let Hpos : 0 < md := wf_pos f Hf.
Let Hfz : Poly.is_zero f = false := long_not_zero f Hdeg.

Lemma reduced_unique X Y :
  reduced f X -> reduced f Y ->
  cong md (Poly.a f) (Poly.a X) (Poly.a Y) -> X = Y.
Proof.
  intros (HX & HXp & HXl) (HY & HYp & HYl) Hc.
  destruct (unit_inverse _ _ (wf_lead_unit f Hf Hprime Hfz)) as (inv & Hinv).
  apply wf_unique; [exact HX | exact HY | congruence |].
  rewrite HXp. fold md.
  apply (remainder_unique md (Poly.a f) inv Hpos); try assumption; try lia.
  exact (proj1 Hf).
Qed.

Lemma DivMod_rem fuel A :
  wf A -> Poly.p A = md ->
  (Z.to_nat md < fuel)%nat -> (length (Poly.a A) < fuel)%nat ->
  exists Q R,
    Poly.DivMod fuel A f = Val (Q, R)
    /\ reduced f R /\ cong md (Poly.a f) (Poly.a A) (Poly.a R).
Proof.
  intros HA HAp F1 F2.
  destruct (DivMod_spec fuel A f HA Hf) as
    (Q & R & E & HR & HRp & HQp & Hend & HRl & HE & _); try assumption.
  - symmetry. exact HAp.
  - rewrite HAp. exact Hmax.
  - rewrite HAp. apply wf_lead_unit; assumption.
  - rewrite HAp. exact F1.
  - exists Q, R. split; [exact E |]. split.
    + split; [exact HR |]. split; [rewrite HRp, HAp; reflexivity |].
      destruct Hend as [H | H]; [exact H |].
      apply is_zero_true in H. rewrite H. simpl. lia.
    + exists (Poly.a Q). rewrite HAp in HE.
      eapply eqp_trans; [exact HE |]. apply padd_comm.
Qed.

(** [(X * Y).DivMod(f).second] *)
Lemma mulmod_spec fuel X Y :
  wf X -> wf Y -> Poly.p X = md -> Poly.p Y = md ->
  (Z.to_nat md < fuel)%nat ->
  (length (Poly.a X) + length (Poly.a Y) <= fuel)%nat ->
  exists M Q R,
    Poly.mul X Y = Val M /\ Poly.DivMod fuel M f = Val (Q, R)
    /\ reduced f R
    /\ cong md (Poly.a f) (pmul (Poly.a X) (Poly.a Y)) (Poly.a R).
Proof.
  intros HX HY HXp HYp F1 F2.
  pose proof (wf_length X HX) as LX. pose proof (wf_length Y HY) as LY.
  assert (Hmd : 0 < md <= MAX_MOD) by (split; [exact Hpos | exact Hmax]).
  destruct (mul_spec md Hmd X Y HXp) as (M & EM & HMp & HMe & HMl & HMwf).
  - rewrite <- HXp. apply wf_ranged, HX.
  - rewrite <- HYp. apply wf_ranged, HY.
  - lia.
  - assert (HM : wf M).
    { apply HMwf; [destruct HX as (H & _) | destruct HY as (H & _)]; exact H. }
    destruct (DivMod_rem fuel M HM HMp F1 ltac:(lia)) as (Q & R & E & HR & HC).
    exists M, Q, R. repeat split; try assumption; try apply HR.
    apply (cong_trans md Hpos _ _ (Poly.a M)); [| exact HC].
    apply eqp_cong. apply eqp_sym. exact HMe.
Qed.

(** The polynomials [x] and [1] that [PowX] starts from. *)
Lemma of_vector_x : Poly.of_vector [0; 1] md = Poly.mk md [0; 1].
Proof.
  pose proof (Z.prime_ge_2 _ Hprime) as H2. fold md in H2.
  apply (Normalize_wf_id (Poly.mk md [0; 1])); [| exact Hmax].
  unfold wf. simpl. repeat split; try discriminate.
  - repeat constructor; lia.
  - left. discriminate.
Qed.

Lemma of_vector_1 : Poly.of_vector [1] md = Poly.mk md [1].
Proof.
  pose proof (Z.prime_ge_2 _ Hprime) as H2. fold md in H2.
  apply (Normalize_wf_id (Poly.mk md [1])); [| exact Hmax].
  unfold wf. simpl. repeat split; try discriminate.
  - repeat constructor; lia.
  - left. discriminate.
Qed.

Lemma land_1_odd k : 0 < k -> Z.land k 1 = k mod 2.
Proof. intros H. apply (Z.land_ones k 1). lia. Qed.

Lemma shiftr_1_half k : Z.shiftr k 1 = k / 2.
Proof. apply (Z.shiftr_div_pow2 k 1). lia. Qed.

(** The loop of [PowX] multiplies the accumulator by the [k]-th power of
    the running square, modulo [f]; [m] bounds the number of bits of [k]. *)
Lemma PowX_loop_spec m : forall fuel k r rs,
  k < 2 ^ Z.of_nat m ->
  (m + Z.to_nat md + 2 * length (Poly.a f) < fuel)%nat ->
  wf r -> Poly.p r = md ->
  (length (Poly.a r) <= length (Poly.a f))%nat ->
  reduced f rs ->
  exists X,
    Poly.PowX_loop fuel k f r rs = Val X
    /\ reduced f X
    /\ cong md (Poly.a f) (Poly.a X)
         (pmul (Poly.a rs) (ppow (Poly.a r) (Z.to_nat k))).
Proof.
  induction m as [| m IH]; intros fuel k r rs Hk F Hr Hrp Hrl Hrs;
    (destruct fuel as [| n]; [lia |]); cbn [Poly.PowX_loop].
  - replace (0 <? k) with false by (symmetry; apply Z.ltb_ge; simpl in Hk; lia).
    exists rs. split; [reflexivity |]. split; [exact Hrs |].
    replace (Z.to_nat k) with 0%nat by (simpl in Hk; lia). simpl ppow.
    apply eqp_cong. apply eqp_sym. apply pmul_1_r. exact Hpos.
  - destruct (Z.ltb_spec 0 k) as [Hk0 | Hk0].
    + (* the accumulator *)
      assert (Hacc : exists rs',
                 (if negb (Z.land k 1 =? 0)
                  then (m0 <- Poly.mul rs r ;;
                        ' (_, x) <- Poly.DivMod n m0 f ;; Val x)
                  else Val rs) = Val rs'
                 /\ reduced f rs'
                 /\ cong md (Poly.a f) (Poly.a rs')
                      (pmul (Poly.a rs)
                         (ppow (Poly.a r) (Z.to_nat (k mod 2))))).
      { rewrite land_1_odd by exact Hk0.
        destruct (Z.eqb_spec (k mod 2) 0) as [E | E]; simpl negb; cbv iota.
        - exists rs. split; [reflexivity |]. split; [exact Hrs |].
          rewrite E. simpl ppow. apply eqp_cong, eqp_sym, pmul_1_r. exact Hpos.
        - destruct Hrs as (Hrs1 & Hrs2 & Hrs3).
          destruct (mulmod_spec n rs r Hrs1 Hr Hrs2 Hrp)
            as (M & Q & R & EM & ED & HR & HC); [lia | lia |].
          exists R. rewrite EM. cbn [bind]. rewrite ED. cbn [bind].
          split; [reflexivity |]. split; [exact HR |].
          replace (k mod 2) with 1
            by (pose proof (Z.mod_pos_bound k 2 ltac:(lia)); lia).
          apply (cong_sym md Hpos).
          apply (cong_trans md Hpos _ _ (pmul (Poly.a rs) (Poly.a r)));
            [| exact HC].
          apply eqp_cong. apply pmul_Proper_r; [exact Hpos |].
          change (ppow (Poly.a r) (Z.to_nat 1))
            with (pmul (Poly.a r) [1]).
          apply pmul_1_r. exact Hpos. }
      destruct Hacc as (rs' & -> & Hrs' & Hcrs'). cbn [bind].
      destruct (mulmod_spec n r r Hr Hr Hrp Hrp)
        as (M & Q & r' & EM & ED & Hr' & Hcr'); [lia | lia |].
      rewrite EM. cbn [bind]. rewrite ED. cbn [bind].
      destruct Hr' as (Hr'1 & Hr'2 & Hr'3).
      destruct (IH n (Z.shiftr k 1) r' rs') as (X & EX & HX & HCX);
        try assumption; try lia.
      * rewrite shiftr_1_half.
        rewrite Nat2Z.inj_succ, Z.pow_succ_r in Hk by lia.
        apply Z.div_lt_upper_bound; lia.
      * exists X. split; [exact EX |]. split; [exact HX |].
        rewrite shiftr_1_half in HCX.
        set (h := Z.to_nat (k / 2)) in *.
        apply (cong_trans md Hpos _ _ _ _ HCX).
        apply (cong_trans md Hpos _ _
                 (pmul (pmul (Poly.a rs)
                          (ppow (Poly.a r) (Z.to_nat (k mod 2))))
                       (ppow (pmul (Poly.a r) (Poly.a r)) h))).
        -- apply (cong_pmul md Hpos); [exact Hcrs' |].
           apply (cong_ppow md Hpos). apply (cong_sym md Hpos). exact Hcr'.
        -- apply eqp_cong.
           eapply eqp_trans; [apply pmul_assoc; exact Hpos |].
           apply pmul_Proper_r; [exact Hpos |].
           eapply eqp_trans;
             [apply pmul_Proper_r;
              [exact Hpos | apply ppow_square; exact Hpos] |].
           eapply eqp_trans; [apply eqp_sym, ppow_add; exact Hpos |].
           replace (Z.to_nat (k mod 2) + 2 * h)%nat with (Z.to_nat k);
             [apply eqp_refl |].
           subst h. pose proof (Z.div_mod k 2 ltac:(lia)).
           pose proof (Z.mod_pos_bound k 2 ltac:(lia)).
           pose proof (Z.div_pos k 2 ltac:(lia) ltac:(lia)). lia.
    + exists rs. split; [reflexivity |]. split; [exact Hrs |].
      replace (Z.to_nat k) with 0%nat by lia. simpl ppow.
      apply eqp_cong. apply eqp_sym. apply pmul_1_r. exact Hpos.
Qed.

(** [PowX(k, f)] is the canonical representative of [x^k] modulo [f]. *)
Lemma PowX_spec fuel k :
  k < 2 ^ 63 ->
  (63 + Z.to_nat md + 2 * length (Poly.a f) < fuel)%nat ->
  exists X,
    Poly.PowX fuel k f = Val X
    /\ reduced f X
    /\ cong md (Poly.a f) (Poly.a X) (ppow [0; 1] (Z.to_nat k)).
Proof.
  intros Hk F. unfold Poly.PowX. fold md.
  rewrite of_vector_x, of_vector_1.
  pose proof (Z.prime_ge_2 _ Hprime) as H2. fold md in H2.
  assert (Hx : wf (Poly.mk md [0; 1])).
  { rewrite <- of_vector_x. apply Normalize_wf; [lia | discriminate]. }
  assert (H1 : reduced f (Poly.mk md [1])).
  { split; [| split; [reflexivity | simpl; lia]].
    rewrite <- of_vector_1. apply Normalize_wf; [lia | discriminate]. }
  destruct (PowX_loop_spec 63 fuel k (Poly.mk md [0; 1]) (Poly.mk md [1])
              Hk F Hx eq_refl Hdeg H1) as (X & EX & HX & HC).
  exists X. split; [exact EX |]. split; [exact HX |].
  apply (cong_trans md Hpos _ _ _ _ HC).
  apply eqp_cong. simpl Poly.a. apply pmul_1_l.
Qed.

End Modulus.

(** ** More fuel never changes an answer *)

Lemma bind_mono {A B : Type} (c c' : res A) (k k' : A -> res B) r :
  bind c k = r -> r <> OutOfFuel ->
  (forall x, c = x -> x <> OutOfFuel -> c' = x) ->
  (forall v y, k v = y -> y <> OutOfFuel -> k' v = y) ->
  bind c' k' = r.
Proof.
  intros E Hr Hc Hk. destruct c as [v | e |]; simpl in E.
  - rewrite (Hc (Val v) eq_refl) by discriminate. simpl. apply Hk; assumption.
  - rewrite (Hc (Throw e) eq_refl) by discriminate. simpl. exact E.
  - congruence.
Qed.

Lemma InvMod_loop_mono n : forall m r0 r1 s0 s1 r,
  (n <= m)%nat -> Poly.InvMod_loop n r0 r1 s0 s1 = r -> r <> OutOfFuel ->
  Poly.InvMod_loop m r0 r1 s0 s1 = r.
Proof.
  induction n as [| n IH]; intros m r0 r1 s0 s1 r L E Hr.
  - simpl in E. congruence.
  - destruct m as [| m]; [lia |]. simpl in *.
    destruct (r1 =? 0); [exact E |]. apply IH; [lia | exact E | exact Hr].
Qed.

Lemma InvMod_mono n m x md r :
  (n <= m)%nat -> Poly.InvMod n x md = r -> r <> OutOfFuel ->
  Poly.InvMod m x md = r.
Proof.
  intros L E Hr. unfold Poly.InvMod in *.
  eapply bind_mono; [exact E | exact Hr | | intros v y H _; exact H].
  intros y H Hy. eapply InvMod_loop_mono; eassumption.
Qed.

Lemma DivMod_loop_mono n : forall m md d inv Q R r,
  (n <= m)%nat -> Poly.DivMod_loop n md d inv Q R = r -> r <> OutOfFuel ->
  Poly.DivMod_loop m md d inv Q R = r.
Proof.
  induction n as [| n IH]; intros m md d inv Q R r L E Hr.
  - simpl in E. congruence.
  - destruct m as [| m]; [lia |]. rewrite DivMod_loop_unfold in *.
    destruct ((Poly.Degree d <=? Poly.Degree R) && negb (Poly.is_zero R));
      [| exact E].
    cbv zeta in *. apply IH; [lia | exact E | exact Hr].
Qed.

Lemma DivMod_mono n m A d r :
  (n <= m)%nat -> Poly.DivMod n A d = r -> r <> OutOfFuel ->
  Poly.DivMod m A d = r.
Proof.
  intros L E Hr. unfold Poly.DivMod in *.
  destruct ((Poly.Degree d =? 0) && (nth 0 (Poly.a d) 0 =? 0)); [exact E |].
  cbv zeta in *.
  eapply bind_mono; [exact E | exact Hr | |].
  - intros y H Hy. eapply InvMod_mono; eassumption.
  - intros v y H Hy. cbv beta in *.
    eapply bind_mono; [exact H | exact Hy | | intros v' y' H' _; exact H'].
    intros y' H' Hy'. eapply DivMod_loop_mono; eassumption.
Qed.

Lemma GCD_loop_mono n : forall m A B r,
  (n <= m)%nat -> Poly.GCD_loop n A B = r -> r <> OutOfFuel ->
  Poly.GCD_loop m A B = r.
Proof.
  induction n as [| n IH]; intros m A B r L E Hr.
  - simpl in E. congruence.
  - destruct m as [| m]; [lia |]. cbn [Poly.GCD_loop] in *.
    destruct (negb (Poly.is_zero B)); [| exact E].
    eapply bind_mono; [exact E | exact Hr | |].
    + intros y H Hy. eapply DivMod_mono; [| eassumption..]. lia.
    + intros [Q R] y H Hy. apply IH; [lia | exact H | exact Hy].
Qed.

Lemma GCD_mono n m A B r :
  (n <= m)%nat -> Poly.GCD n A B = r -> r <> OutOfFuel -> Poly.GCD m A B = r.
Proof.
  intros L E Hr. unfold Poly.GCD in *.
  eapply bind_mono; [exact E | exact Hr | | intros v y H _; exact H].
  intros y H Hy. eapply GCD_loop_mono; eassumption.
Qed.

Lemma mulmod_mono n m X Y f r :
  (n <= m)%nat ->
  (M <- Poly.mul X Y ;; ' (_, x) <- Poly.DivMod n M f ;; Val x) = r ->
  r <> OutOfFuel ->
  (M <- Poly.mul X Y ;; ' (_, x) <- Poly.DivMod m M f ;; Val x) = r.
Proof.
  intros L E Hr.
  eapply bind_mono; [exact E | exact Hr | intros y H _; exact H |].
  intros M y H Hy. cbv beta in *.
  eapply bind_mono; [exact H | exact Hy | | intros v' y' H' _; exact H'].
  intros y' H' Hy'. eapply DivMod_mono; eassumption.
Qed.

Lemma PowX_loop_mono n : forall m k f r rs x,
  (n <= m)%nat -> Poly.PowX_loop n k f r rs = x -> x <> OutOfFuel ->
  Poly.PowX_loop m k f r rs = x.
Proof.
  induction n as [| n IH]; intros m k f r rs x L E Hx.
  - simpl in E. congruence.
  - destruct m as [| m]; [lia |]. cbn [Poly.PowX_loop] in *.
    destruct (0 <? k); [| exact E].
    eapply bind_mono; [exact E | exact Hx | |].
    + intros y H Hy. destruct (negb (Z.land k 1 =? 0)); [| exact H].
      eapply mulmod_mono; [| eassumption..]. lia.
    + intros rs' y H Hy. cbv beta in *.
      eapply bind_mono; [exact H | exact Hy | intros y' H' _; exact H' |].
      intros M y' H' Hy'. cbv beta in *.
      eapply bind_mono; [exact H' | exact Hy' | |].
      * intros y'' H'' Hy''. eapply DivMod_mono; [| eassumption..]. lia.
      * intros [Q r'] y'' H'' Hy''. apply IH; [lia | exact H'' | exact Hy''].
Qed.

Lemma PowX_mono n m k f x :
  (n <= m)%nat -> Poly.PowX n k f = x -> x <> OutOfFuel -> Poly.PowX m k f = x.
Proof. unfold Poly.PowX. apply PowX_loop_mono. Qed.

Lemma PowInt_loop_mono n : forall m x b r y,
  (n <= m)%nat -> Poly.PowInt_loop n x b r = y -> y <> OutOfFuel ->
  Poly.PowInt_loop m x b r = y.
Proof.
  induction n as [| n IH]; intros m x b r y L E Hy.
  - simpl in E. congruence.
  - destruct m as [| m]; [lia |]. simpl in *.
    destruct (b =? 0); [exact E |]. apply IH; [lia | exact E | exact Hy].
Qed.

Lemma PowInt_mono n m x b y :
  (n <= m)%nat -> Poly.PowInt n x b = y -> y <> OutOfFuel ->
  Poly.PowInt m x b = y.
Proof. unfold Poly.PowInt. apply PowInt_loop_mono. Qed.

Lemma strip_factor_mono n : forall m x i y,
  (n <= m)%nat -> Poly.strip_factor n x i = y -> y <> OutOfFuel ->
  Poly.strip_factor m x i = y.
Proof.
  induction n as [| n IH]; intros m x i y L E Hy.
  - simpl in E. congruence.
  - destruct m as [| m]; [lia |]. simpl in *.
    destruct (Z.rem x i =? 0); [| exact E].
    apply IH; [lia | exact E | exact Hy].
Qed.

Lemma PrimeDivisors_loop_mono n : forall m x i d y,
  (n <= m)%nat -> Poly.PrimeDivisors_loop n x i d = y -> y <> OutOfFuel ->
  Poly.PrimeDivisors_loop m x i d = y.
Proof.
  induction n as [| n IH]; intros m x i d y L E Hy.
  - simpl in E. congruence.
  - destruct m as [| m]; [lia |]. cbn [Poly.PrimeDivisors_loop] in *.
    destruct (wrap32 (i * i) <=? x); [| exact E].
    destruct (Z.rem x i =? 0).
    + eapply bind_mono; [exact E | exact Hy | |].
      * intros y' H' Hy'. eapply strip_factor_mono; [| eassumption..]. lia.
      * intros x' y' H' Hy'. apply IH; [lia | exact H' | exact Hy'].
    + apply IH; [lia | exact E | exact Hy].
Qed.

Lemma PrimeDivisors_mono n m x y :
  (n <= m)%nat -> Poly.PrimeDivisors n x = y -> y <> OutOfFuel ->
  Poly.PrimeDivisors m x = y.
Proof.
  intros L E Hy. unfold Poly.PrimeDivisors in *.
  eapply bind_mono; [exact E | exact Hy | | intros v y' H _; exact H].
  intros y' H' Hy'. eapply PrimeDivisors_loop_mono; eassumption.
Qed.

Lemma check_divs_mono n m f x divs y :
  (n <= m)%nat -> Poly.check_divs n f x divs = y -> y <> OutOfFuel ->
  Poly.check_divs m f x divs = y.
Proof.
  intros L. revert y. induction divs as [| q rest IH]; intros y E Hy.
  - exact E.
  - cbn [Poly.check_divs] in *.
    eapply bind_mono; [exact E | exact Hy | |].
    + intros y' H' Hy'. eapply PowInt_mono; eassumption.
    + intros pw y' H' Hy'. cbv beta in *.
      eapply bind_mono; [exact H' | exact Hy' | |].
      * intros y'' H'' Hy''. eapply PowX_mono; eassumption.
      * intros h0 y'' H'' Hy''. cbv beta in *.
        eapply bind_mono; [exact H'' | exact Hy'' | |].
        -- intros y3 H3 Hy3. eapply GCD_mono; eassumption.
        -- intros g y3 H3 Hy3. cbv beta in *.
           destruct (0 <? Poly.Degree g); [exact H3 |].
           apply IH; assumption.
Qed.

Lemma IsIrreducible_mono n m f y :
  (n <= m)%nat -> Poly.IsIrreducible n f = y -> y <> OutOfFuel ->
  Poly.IsIrreducible m f = y.
Proof.
  intros L E Hy. unfold Poly.IsIrreducible in *. cbv zeta in *.
  destruct (Poly.Degree f <=? 0); [exact E |].
  eapply bind_mono; [exact E | exact Hy | |].
  - intros y' H' Hy'. eapply PowInt_mono; eassumption.
  - intros pw y' H' Hy'. cbv beta in *.
    eapply bind_mono; [exact H' | exact Hy' | |].
    + intros y'' H'' Hy''. eapply PowX_mono; eassumption.
    + intros t1 y'' H'' Hy''. cbv beta in *.
      destruct (negb (Poly.is_zero (Poly.sub t1 _))); [exact H'' |].
      eapply bind_mono; [exact H'' | exact Hy'' | |].
      * intros y3 H3 Hy3. eapply PrimeDivisors_mono; eassumption.
      * intros divs y3 H3 Hy3. eapply check_divs_mono; eassumption.
Qed.

(** ** GCD *)

Section GCDFacts.

Variable md : Z.
Hypothesis Hprime : Z.prime md.
Hypothesis Hmax : md <= MAX_MOD.

(** One iteration of the Euclidean algorithm: the remainder of [A] by a
    non-zero [B] is zero or has smaller degree than [B]. *)
Lemma GCD_step fuel A B :
  wf A -> wf B -> Poly.p A = md -> Poly.p B = md ->
  Poly.is_zero B = false ->
  (Z.to_nat md < fuel)%nat -> (length (Poly.a A) < fuel)%nat ->
  exists Q R,
    Poly.DivMod fuel A B = Val (Q, R)
    /\ wf R /\ Poly.p R = md
    /\ (Poly.is_zero R = true \/ Poly.Degree R < Poly.Degree B)
    /\ (measure R < measure B)%nat
    /\ (length (Poly.a R) <= length (Poly.a A))%nat.
Proof.
  intros HA HB HAp HBp HBz F1 F2.
  assert (Hdp : Poly.p B = Poly.p A) by congruence.
  assert (HM : Poly.p A <= MAX_MOD) by (rewrite HAp; exact Hmax).
  assert (Hg : Z.gcd (last (Poly.a B) 0) (Poly.p A) = 1).
  { rewrite HAp, <- HBp. apply wf_lead_unit; [exact HB | | exact HBz].
    rewrite HBp. exact Hprime. }
  assert (F1' : (Z.to_nat (Poly.p A) < fuel)%nat) by (rewrite HAp; exact F1).
  destruct (DivMod_spec fuel A B HA HB Hdp HM HBz Hg F1' F2) as
    (Q & R & E & HR & HRp & _ & Hend & HRl & _).
  exists Q, R. split; [exact E |]. split; [exact HR |].
  split; [congruence |].
  pose proof (wf_length B HB) as LB.
  unfold measure, Poly.Degree. rewrite HBz.
  destruct (Poly.is_zero R) eqn:HRz.
  - split; [left; reflexivity |]. split; [lia | exact HRl].
  - destruct Hend as [H | H]; [| congruence].
    split; [right; lia |]. split; [lia | exact HRl].
Qed.

Lemma GCD_loop_spec fuel : forall A B,
  wf A -> wf B -> Poly.p A = md -> Poly.p B = md ->
  (measure B + Z.to_nat md
   + Nat.max (length (Poly.a A)) (length (Poly.a B)) + 1 < fuel)%nat ->
  exists G, Poly.GCD_loop fuel A B = Val G /\ wf G /\ Poly.p G = md.
Proof.
  induction fuel as [| fuel IH]; intros A B HA HB HAp HBp F; [lia |].
  cbn [Poly.GCD_loop].
  destruct (Poly.is_zero B) eqn:HBz; simpl negb; cbv iota.
  - exists A. auto.
  - destruct (GCD_step fuel A B HA HB HAp HBp HBz)
      as (Q & R & E & HR & HRp & _ & Hm & HRl); [lia | lia |].
    rewrite E. cbn [bind].
    apply IH; try assumption. lia.
Qed.

Lemma GCD_spec fuel A B :
  wf A -> wf B -> Poly.p A = md -> Poly.p B = md ->
  (Z.to_nat md + 2 * Nat.max (length (Poly.a A)) (length (Poly.a B)) + 1
   < fuel)%nat ->
  exists G, Poly.GCD fuel A B = Val G /\ wf G /\ Poly.p G = md.
Proof.
  intros HA HB HAp HBp F.
  destruct (GCD_loop_spec fuel A B HA HB HAp HBp) as (G & E & HG & HGp).
  - unfold measure. destruct (Poly.is_zero B); lia.
  - unfold Poly.GCD. rewrite E. cbn [bind].
    exists (Poly.Normalize G).
    rewrite Normalize_wf_id by (try assumption; lia). auto.
Qed.

End GCDFacts.

(** ** Integer helpers: PowInt and PrimeDivisors *)

Lemma wrap64_range z : - 2 ^ 63 <= wrap64 z < 2 ^ 63.
Proof.
  unfold wrap64. pose proof (Z.mod_pos_bound (z + 2 ^ 63) (2 ^ 64)). lia.
Qed.

Lemma PowInt_loop_total fuel : forall x b r,
  0 <= b < 2 ^ 62 -> (Z.to_nat b < fuel)%nat -> r < 2 ^ 63 ->
  exists v, Poly.PowInt_loop fuel x b r = Val v /\ v < 2 ^ 63.
Proof.
  induction fuel as [| fuel IH]; intros x b r Hb F Hr; [lia |].
  simpl. destruct (Z.eqb_spec b 0) as [E | E].
  - exists r. auto.
  - rewrite (wrap64_small (b - 1)) by lia.
    apply IH; [lia | lia | apply wrap64_range].
Qed.

Lemma PowInt_total fuel x b :
  0 <= b < 2 ^ 62 -> (Z.to_nat b < fuel)%nat ->
  exists v, Poly.PowInt fuel x b = Val v /\ v < 2 ^ 63.
Proof. intros Hb F. apply PowInt_loop_total; [exact Hb | exact F | lia]. Qed.

Lemma PowInt_1 fuel x :
  (2 <= fuel)%nat -> - 2 ^ 63 <= x < 2 ^ 63 -> Poly.PowInt fuel x 1 = Val x.
Proof.
  intros F Hx. destruct fuel as [| [| fuel]]; try lia.
  unfold Poly.PowInt. cbn [Poly.PowInt_loop].
  change (1 =? 0) with false. cbv iota.
  change (wrap64 (1 - 1)) with 0. change (0 =? 0) with true. cbv iota.
  rewrite Z.mul_1_l, wrap64_small by lia. reflexivity.
Qed.

Lemma strip_factor_total fuel : forall n i,
  1 <= n <= MAX_MOD -> 2 <= i -> (Z.to_nat n < fuel)%nat ->
  exists n', Poly.strip_factor fuel n i = Val n' /\ 1 <= n' <= n.
Proof.
  unfold MAX_MOD.
  induction fuel as [| fuel IH]; intros n i Hn Hi F; [lia |].
  simpl. destruct (Z.eqb_spec (Z.rem n i) 0) as [E | E].
  - pose proof (Z.quot_rem' n i) as Hq. rewrite E in Hq.
    assert (Hq1 : 1 <= Z.quot n i < n) by nia.
    rewrite wrap32_small by lia.
    destruct (IH (Z.quot n i) i) as (n' & En & Hn'); try lia.
    exists n'. split; [exact En | lia].
  - exists n. split; [reflexivity | lia].
Qed.

Lemma PrimeDivisors_loop_total n0 fuel : forall n i d,
  1 <= n <= n0 -> n0 <= MAX_MOD ->
  2 <= i -> (i - 1) * (i - 1) <= n0 \/ i = 2 ->
  Forall (fun q => 2 <= q <= n0) d ->
  (Z.to_nat (n0 + 2 - i) + Z.to_nat n0 + 1 < fuel)%nat ->
  exists n' d',
    Poly.PrimeDivisors_loop fuel n i d = Val (n', d')
    /\ 1 <= n' <= n0 /\ Forall (fun q => 2 <= q <= n0) d'.
Proof.
  unfold MAX_MOD.
  induction fuel as [| fuel IH]; intros n i d Hn Hn0 Hi Hsq Hd F; [lia |].
  cbn [Poly.PrimeDivisors_loop].
  assert (Hi15 : i <= 2 ^ 15 + 1) by nia.
  rewrite (wrap32_small (i * i)) by nia.
  destruct (Z.leb_spec (i * i) n) as [Hle | Hgt].
  - rewrite (wrap32_small (i + 1)) by lia.
    assert (Hin : i <= n0) by nia.
    destruct (Z.eqb_spec (Z.rem n i) 0) as [E | E].
    + destruct (strip_factor_total fuel n i) as (n' & -> & Hn');
        [unfold MAX_MOD; lia | lia | lia |].
      cbn [bind].
      apply IH; [lia | lia | lia | left; nia | | lia].
      apply Forall_app. split; [exact Hd |]. repeat constructor; lia.
    + apply IH; [lia | lia | lia | left; nia | exact Hd | lia].
  - exists n, d. auto.
Qed.

Lemma PrimeDivisors_total fuel n :
  1 <= n <= MAX_MOD -> (2 * Z.to_nat n + 1 < fuel)%nat ->
  exists divs,
    Poly.PrimeDivisors fuel n = Val divs /\ Forall (fun q => 2 <= q <= n) divs.
Proof.
  intros Hn F. unfold Poly.PrimeDivisors.
  destruct (PrimeDivisors_loop_total n fuel n 2 []) as (n' & d' & -> & Hn' & Hd');
    try lia; auto.
  cbn [bind]. eexists. split; [reflexivity |].
  destruct (1 <? n') eqn:E; [| exact Hd'].
  apply Z.ltb_lt in E. apply Forall_app. split; [exact Hd' |].
  repeat constructor; lia.
Qed.

(** ** IsIrreducible *)

Lemma DivMod_loop_next fuel md d invLead Q R :
  (Poly.Degree d <=? Poly.Degree R) && negb (Poly.is_zero R) = true ->
  exists Q',
    Poly.DivMod_loop (S fuel) md d invLead Q R
    = Poly.DivMod_loop fuel md d invLead Q' (DivMod_next md d invLead R).
Proof.
  intros H. rewrite DivMod_loop_unfold, H. cbv zeta.
  eexists. reflexivity.
Qed.

Lemma DivMod_next_decreases md d inv R :
  0 < md <= MAX_MOD -> wf d -> Poly.p d = md ->
  0 <= inv < md -> (last (Poly.a d) 0 * inv) mod md = 1 mod md ->
  wf R -> Poly.p R = md -> Poly.is_zero R = false ->
  Poly.Degree d <= Poly.Degree R ->
  wf (DivMod_next md d inv R)
  /\ (Poly.is_zero (DivMod_next md d inv R) = true
      \/ Poly.Degree (DivMod_next md d inv R) < Poly.Degree R).
Proof.
  intros Hmd Hd Hdp Hi Hi1 HR HRp HRz Hdeg.
  assert (Hlen : (length (Poly.a d) <= length (Poly.a R))%nat)
    by (unfold Poly.Degree in Hdeg; lia).
  destruct (DivMod_step md d inv Hmd Hd Hdp Hi Hi1 R HR HRp HRz Hlen)
    as (_ & Hwf & _ & _ & Hdec).
  cbv zeta in Hwf, Hdec. unfold DivMod_next. cbv zeta.
  replace (Z.to_nat (Poly.Degree R - Poly.Degree d))
    with (length (Poly.a R) - length (Poly.a d))%nat
    by (unfold Poly.Degree; lia).
  split; [exact Hwf |].
  destruct Hdec as [H | H]; [right | left; exact H].
  unfold Poly.Degree. lia.
Qed.

Section Irreducibility.

Variable f : Poly.t.
Hypothesis Hf : wf f.
Hypothesis Hprime : Z.prime (Poly.p f).
Hypothesis Hmax : Poly.p f <= MAX_MOD.
Hypothesis Hdeg : (2 <= length (Poly.a f))%nat.

Let md : Z := Poly.p f.
Let Hpos : 0 < md := wf_pos f Hf.
Let x : Poly.t := Poly.of_vector [0; 1] md.

Lemma x_wf : wf x /\ Poly.p x = md /\ Poly.a x = [0; 1].
Proof.
  unfold x, md. rewrite (of_vector_x f Hf Hprime Hmax Hdeg). fold md.
  pose proof (Z.prime_ge_2 _ Hprime) as H2. fold md in H2.
  split; [| split; reflexivity].
  unfold wf. simpl. repeat split; try discriminate.
  - repeat constructor; lia.
  - left. discriminate.
Qed.

(** [PowX(...) - x] for a reduced power. *)
Lemma sub_x_spec X :
  reduced f X ->
  wf (Poly.sub X x) /\ Poly.p (Poly.sub X x) = md
  /\ (length (Poly.a (Poly.sub X x)) <= length (Poly.a f))%nat.
Proof.
  intros (HX & HXp & HXl). destruct x_wf as (Hx & Hxp & Hxa).
  assert (Hmd : 0 < md <= MAX_MOD) by (split; [exact Hpos | exact Hmax]).
  split; [| split].
  - apply (sub_wf md Hmd); [exact HXp | exact (proj1 HX)].
  - rewrite sub_unfold. exact HXp.
  - etransitivity; [apply (sub_length_le md Hmd); exact HXp |].
    rewrite Hxa. simpl length. lia.
Qed.

Lemma check_divs_total fuel divs :
  Z.of_nat (length (Poly.a f)) <= MAX_MOD ->
  Forall (fun q => 2 <= q <= Poly.Degree f) divs ->
  (64 + Z.to_nat md + 2 * length (Poly.a f) < fuel)%nat ->
  exists b, Poly.check_divs fuel f (Poly.Degree f) divs = Val b.
Proof.
  intros Hlen Hd F. unfold MAX_MOD in Hlen.
  induction divs as [| q rest IH]; cbn [Poly.check_divs].
  - eexists. reflexivity.
  - inversion Hd as [| q' rest' Hq Hrest]; subst.
    unfold Poly.Degree in Hq.
    assert (Hquot : 0 <= Z.quot (Poly.Degree f) q <= Poly.Degree f).
    { unfold Poly.Degree. split.
      - apply Z.quot_pos; lia.
      - apply Z.quot_le_upper_bound; nia. }
    unfold Poly.Degree in Hquot.
    rewrite wrap32_small by (unfold Poly.Degree; lia).
    destruct (PowInt_total fuel md (Z.quot (Poly.Degree f) q))
      as (pw & Epw & Hpw); [unfold Poly.Degree; lia | unfold Poly.Degree; lia |].
    fold md. rewrite Epw. cbn [bind].
    destruct (PowX_spec f Hf Hprime Hmax Hdeg fuel pw Hpw)
      as (h0 & Eh0 & Hh0 & _); [fold md; lia |].
    rewrite Eh0. cbn [bind].
    destruct (sub_x_spec h0 Hh0) as (Hh & Hhp & Hhl). fold x.
    destruct (GCD_spec md Hprime Hmax fuel f (Poly.sub h0 x) Hf Hh eq_refl Hhp)
      as (g & Eg & _); [lia |].
    rewrite Eg. cbn [bind].
    destruct (0 <? Poly.Degree g); [eexists; reflexivity |].
    apply IH. exact Hrest.
Qed.

Lemma IsIrreducible_total fuel :
  Z.of_nat (length (Poly.a f)) <= MAX_MOD ->
  (64 + Z.to_nat md + 2 * length (Poly.a f) < fuel)%nat ->
  exists b, Poly.IsIrreducible fuel f = Val b.
Proof.
  intros Hlen F. unfold Poly.IsIrreducible. cbv zeta.
  assert (Hn : 1 <= Poly.Degree f) by (unfold Poly.Degree; lia).
  replace (Poly.Degree f <=? 0) with false by (symmetry; apply Z.leb_gt; lia).
  destruct (PowInt_total fuel md (Poly.Degree f)) as (pw & Epw & Hpw);
    [unfold Poly.Degree, MAX_MOD in *; lia | unfold Poly.Degree; lia |].
  fold md. rewrite Epw. cbn [bind].
  destruct (PowX_spec f Hf Hprime Hmax Hdeg fuel pw Hpw)
    as (t1 & Et1 & Ht1 & _); [fold md; lia |].
  rewrite Et1. cbn [bind]. fold x.
  destruct (negb (Poly.is_zero (Poly.sub t1 x))); [eexists; reflexivity |].
  destruct (PrimeDivisors_total fuel (Poly.Degree f)) as (divs & Ed & Hd);
    [unfold Poly.Degree, MAX_MOD in *; lia | unfold Poly.Degree; lia |].
  rewrite Ed. cbn [bind].
  apply check_divs_total; assumption.
Qed.

(** For a polynomial of degree 1 the first test always fails. *)
Lemma IsIrreducible_linear fuel :
  length (Poly.a f) = 2%nat ->
  (68 + Z.to_nat md < fuel)%nat ->
  exists X,
    Poly.PowInt fuel md 1 = Val md
    /\ Poly.PowX fuel md f = Val X
    /\ reduced f X /\ Poly.Degree X = 0
    /\ Poly.is_zero (Poly.sub X x) = false
    /\ Poly.IsIrreducible fuel f = Val false.
Proof.
  intros Hlen F. unfold MAX_MOD in Hmax. fold md in Hmax.
  pose proof (Z.prime_ge_2 _ Hprime) as H2. fold md in H2.
  assert (Epw : Poly.PowInt fuel md 1 = Val md)
    by (apply PowInt_1; lia).
  destruct (PowX_spec f Hf Hprime ltac:(unfold MAX_MOD; exact Hmax) Hdeg
              fuel md ltac:(lia))
    as (X & EX & HX & _); [fold md; lia |].
  fold md in EX.
  assert (HXl : length (Poly.a X) = 1%nat).
  { destruct HX as (HXw & _ & HXl). pose proof (wf_length X HXw). lia. }
  assert (Hnz : Poly.is_zero (Poly.sub X x) = false).
  { destruct (Poly.is_zero (Poly.sub X x)) eqn:Ez; [| reflexivity].
    apply is_zero_true in Ez.
    assert (Hmd : 0 < md <= MAX_MOD) by (unfold MAX_MOD; lia).
    destruct HX as (HXw & HXp & _). destruct x_wf as (Hxw & Hxp & Hxa).
    pose proof (sub_nth md Hmd X x 1%nat HXp) as Hn.
    rewrite Ez, Hxa in Hn. rewrite (nth_overflow (Poly.a X)) in Hn by lia.
    simpl in Hn.
    assert (E : (0 - 1) mod md = md - 1).
    { replace (0 - 1) with (md - 1 + (-1) * md) by lia.
      rewrite Z_mod_plus_full. apply Z.mod_small. lia. }
    change ((-1) mod md = md - 1) in E.
    assert (R1 : ranged md (Poly.a X))
      by (unfold md; rewrite <- HXp; apply wf_ranged, HXw).
    assert (R2 : ranged md [0; 1])
      by (rewrite <- Hxa, <- Hxp; apply wf_ranged, Hxw).
    specialize (Hn R1 R2). lia. }
  exists X. split; [exact Epw |]. split; [exact EX |]. split; [exact HX |].
  split; [unfold Poly.Degree; lia |]. split; [exact Hnz |].
  unfold Poly.IsIrreducible. cbv zeta.
  replace (Poly.Degree f) with 1 by (unfold Poly.Degree; lia).
  change (1 <=? 0) with false. cbv iota. fold md.
  rewrite Epw. cbn [bind]. rewrite EX. cbn [bind]. fold x.
  rewrite Hnz. reflexivity.
Qed.

End Irreducibility.

(** ** The division identity at the level of the class operations *)

Lemma Normalize_ranged md v :
  0 < md <= MAX_MOD -> ranged md (Poly.a (Poly.Normalize (Poly.mk md v))).
Proof.
  intros Hmd. apply ranged_of_nth. intros i _.
  rewrite Normalize_nth by assumption. apply Z.mod_pos_bound. lia.
Qed.

Lemma mul_ranged md A B M :
  0 < md <= MAX_MOD -> Poly.p A = md -> Poly.mul A B = Val M ->
  ranged md (Poly.a M).
Proof.
  intros Hmd Hp E. rewrite mul_unfold in E.
  destruct (length (Poly.a A) + length (Poly.a B) =? 0)%nat; [discriminate |].
  injection E as <-. rewrite Hp. apply Normalize_ranged. exact Hmd.
Qed.

Lemma add_wf_r md A B :
  0 < md <= MAX_MOD -> Poly.p A = md -> Poly.a B <> [] -> wf (Poly.add A B).
Proof.
  intros Hmd Hp HB. rewrite add_unfold, Hp. apply Normalize_wf; [assumption |].
  intros E. apply (f_equal (@length Z)) in E.
  rewrite zip_loop_length in E.
  destruct (Poly.a B); [congruence | cbn [length] in E; lia].
Qed.

(** X6: for a well-formed dividend [A] and a non-zero well-formed divisor
    [d] over a prime modulus, [DivMod] returns a pair [(Q, R)] with
    [Q * d + R == A], [R] well-formed and zero or of smaller degree than
    [d]; [Q] is well-formed when [A] is at least as long as [d] and has an
    empty coefficient vector otherwise. *)
Lemma DivMod_identity fuel A d :
  wf A -> wf d -> Poly.p d = Poly.p A -> Z.prime (Poly.p A) ->
  Poly.p A <= MAX_MOD -> Poly.is_zero d = false ->
  (Z.to_nat (Poly.p A) < fuel)%nat -> (length (Poly.a A) < fuel)%nat ->
  exists Q R M,
    Poly.DivMod fuel A d = Val (Q, R)
    /\ Poly.mul Q d = Val M /\ Poly.add M R = A
    /\ wf R
    /\ (Poly.is_zero R = true \/ Poly.Degree R < Poly.Degree d)
    /\ ((length (Poly.a d) <= length (Poly.a A))%nat -> wf Q)
    /\ ((length (Poly.a A) < length (Poly.a d))%nat -> Poly.a Q = []).
Proof.
  intros HA Hd Hdp Hprime HM Hdz F1 F2.
  pose proof (wf_pos A HA) as Hpos.
  assert (Hmd : 0 < Poly.p A <= MAX_MOD) by lia.
  assert (Hg : Z.gcd (last (Poly.a d) 0) (Poly.p A) = 1).
  { rewrite <- Hdp. apply wf_lead_unit; [exact Hd | | exact Hdz].
    rewrite Hdp. exact Hprime. }
  destruct (DivMod_spec fuel A d HA Hd Hdp HM Hdz Hg F1 F2)
    as (Q & R & E & HR & HRp & HQp & Hend & HRl & HE & HQwf & HQe).
  pose proof (wf_length d Hd) as Ld. pose proof (wf_length A HA) as LA.
  assert (HQr : ranged (Poly.p A) (Poly.a Q)).
  { destruct (Nat.le_gt_cases (length (Poly.a d)) (length (Poly.a A)))
      as [H | H].
    - rewrite <- HQp. apply wf_ranged, HQwf, H.
    - destruct (HQe H) as (-> & _). constructor. }
  assert (Hdr : ranged (Poly.p A) (Poly.a d))
    by (rewrite <- Hdp; apply wf_ranged, Hd).
  destruct (mul_spec (Poly.p A) Hmd Q d HQp HQr Hdr ltac:(lia))
    as (M & EM & HMp & HMe & _).
  exists Q, R, M. split; [exact E |]. split; [exact EM |].
  split; [| split; [exact HR | split; [| split]]].
  - apply wf_unique.
    + apply (add_wf_r (Poly.p A)); [exact Hmd | exact HMp | exact (proj1 HR)].
    + exact HA.
    + rewrite add_unfold. exact HMp.
    + replace (Poly.p (Poly.add M R)) with (Poly.p A)
        by (rewrite add_unfold; symmetry; exact HMp).
      eapply eqp_trans.
      * apply (add_eqp (Poly.p A) Hmd); [exact HMp | |].
        -- apply (mul_ranged (Poly.p A) Q d); assumption.
        -- rewrite <- HRp. apply wf_ranged, HR.
      * apply eqp_sym. eapply eqp_trans; [exact HE |].
        apply padd_Proper; [exact Hpos | | apply eqp_refl].
        apply eqp_sym. exact HMe.
  - destruct Hend as [H | H]; [right | left; exact H].
    unfold Poly.Degree. lia.
  - exact HQwf.
  - intros H. apply HQe, H.
Qed.

(** ** Products have the expected leading coefficient *)

Lemma pmul_top md u v :
  0 < md -> u <> [] -> v <> [] ->
  coef (pmul u v) (length u + length v - 2) mod md
  = (last u 0 * last v 0) mod md.
Proof.
  intros Hmd Hu Hv.
  destruct (list_snoc_cases u) as [-> | (u' & x & ->)]; [congruence |].
  rewrite (pmul_snoc md Hmd u' x v _).
  rewrite coef_padd, coef_pshift, coef_pscale, last_snoc, length_app.
  simpl length.
  assert (Lv : (1 <= length v)%nat) by (destruct v; [congruence | simpl; lia]).
  rewrite coef_pmul_overflow by lia.
  replace (length u' + 1 + length v - 2 <? length u')%nat with false
    by (symmetry; apply Nat.ltb_ge; lia).
  replace (length u' + 1 + length v - 2 - length u')%nat
    with (length v - 1)%nat by lia.
  unfold coef. rewrite <- last_nth. reflexivity.
Qed.

Lemma linear_irreducible f :
  wf f -> Z.prime (Poly.p f) -> Poly.p f <= MAX_MOD -> Poly.Degree f = 1 ->
  irreducible_GFp f.
Proof.
  intros Hf Hprime Hmax Hdeg. split; [lia |].
  intros g h Hg Hh Hgp Hhp Dg Dh E.
  pose proof (wf_pos f Hf) as Hpos.
  assert (Hmd : 0 < Poly.p f <= MAX_MOD) by lia.
  unfold Poly.Degree in *.
  destruct (mul_spec (Poly.p f) Hmd g h Hgp) as (M & EM & _ & HMe & _).
  - rewrite <- Hgp. apply wf_ranged, Hg.
  - rewrite <- Hhp. apply wf_ranged, Hh.
  - lia.
  - assert (M = f) by congruence. subst M.
    specialize (HMe (length (Poly.a g) + length (Poly.a h) - 2)%nat).
    rewrite (coef_overflow (Poly.a f)) in HMe by lia.
    rewrite pmul_top in HMe
      by (try exact Hpos; intros E0; rewrite E0 in *; simpl in *; lia).
    rewrite Z.mod_0_l in HMe by lia. symmetry in HMe.
    apply Z.mod_divide in HMe; [| lia].
    apply (Z.divide_prime_mul _ _ _ Hprime) in HMe.
    pose proof (wf_lead_range g Hg (long_not_zero g ltac:(lia))) as Lg.
    pose proof (wf_lead_range h Hh (long_not_zero h ltac:(lia))) as Lh.
    rewrite Hgp in Lg. rewrite Hhp in Lh.
    destruct HMe as [D | D]; apply Z.divide_pos_le in D; lia.
Qed.

(** ** Primality by trial division *)

Lemma no_small_divisor_prime n i :
  2 <= i -> (i | n) -> (forall q, 2 <= q < i -> ~ (q | n)) -> Z.prime i.
Proof.
  intros Hi D H. split; [lia |].
  intros m Hm Dm. apply (H m); [lia |].
  apply (Z.divide_trans _ _ _ Dm D).
Qed.

Lemma no_divisor_below_sqrt_prime n i :
  1 < n -> 0 <= i -> n < i * i -> (forall q, 2 <= q < i -> ~ (q | n)) ->
  Z.prime n.
Proof.
  intros Hn Hi Hsq H. split; [exact Hn |].
  intros m Hm (k & Hk).
  assert (Hk1 : 1 < k < n) by nia.
  destruct (Z.le_gt_cases m k) as [Hmk | Hmk].
  - apply (H m); [nia | exists k; exact Hk].
  - apply (H k); [nia | exists m; lia].
Qed.

Lemma no_divisor_from_sound k : forall n i,
  0 < i -> no_divisor_from k n i = true ->
  forall q, i <= q < i + Z.of_nat k -> ~ (q | n).
Proof.
  induction k as [| k IH]; intros n i Hi H q Hq D; [lia |].
  cbn [no_divisor_from] in H.
  destruct (Z.eqb_spec (n mod i) 0) as [E | E]; [discriminate |].
  destruct (Z.eq_dec q i) as [-> | Hne].
  - apply E. apply Z.mod_divide; [lia | exact D].
  - apply (IH n (i + 1) ltac:(lia) H q); [lia | exact D].
Qed.

(** The largest [int], [2^31 - 1], is a prime: a prime modulus beyond the
    range in which the [int] sums of the class stay in range. *)
Lemma INT_MAX_prime : Z.prime INT_MAX.
Proof.
  apply (no_divisor_below_sqrt_prime INT_MAX 46342);
    [unfold INT_MAX; lia | lia | unfold INT_MAX; lia |].
  intros q Hq.
  apply (no_divisor_from_sound (Z.to_nat 46340) INT_MAX 2);
    [lia | vm_compute; reflexivity | lia].
Qed.

(** * The claims of the specification *)

Ltac wf_concrete :=
  unfold wf; simpl; repeat split; try discriminate;
  [ repeat constructor; lia
  | first [ left; discriminate | right; reflexivity ] ].

(** ** C4 *)

(** C4: [IsIrreducible] answers true for [x^2 + x + 1] (coefficients
    [1,1,1]) over modulus 2 and false for [x^2 + 1] (coefficients [1,0,1])
    over modulus 2, for every amount of fuel from 50 on. *)
Theorem C4_concrete_scenarios fuel :
  (50 <= fuel)%nat ->
  Poly.IsIrreducible fuel (Poly.of_vector [1; 1; 1] 2) = Val true
  /\ Poly.IsIrreducible fuel (Poly.of_vector [1; 0; 1] 2) = Val false.
Proof.
  intros F. split.
  - apply (IsIrreducible_mono 50); [exact F | vm_compute; reflexivity |].
    discriminate.
  - apply (IsIrreducible_mono 50); [exact F | vm_compute; reflexivity |].
    discriminate.
Qed.

Lemma C4_concrete_scenarios_witness :
  (50 <= 50)%nat
  /\ Poly.IsIrreducible 50 (Poly.of_vector [1; 1; 1] 2) = Val true
  /\ Poly.IsIrreducible 50 (Poly.of_vector [1; 0; 1] 2) = Val false.
Proof.
  split; [apply le_n | apply (C4_concrete_scenarios 50); apply le_n].
Defined.

(** ** C5 *)

(** C5: for every dividend [A] (and every modulus), [DivMod] by the
    canonical zero polynomial throws the division-by-zero error.  The
    statement holds for every amount of fuel, 0 included: the test comes
    before the inverse is computed and before the loop is entered, and no
    pair is returned. *)
Theorem C5_division_by_zero_polynomial fuel A md :
  Poly.DivMod fuel A (Poly.zero md) = Throw DivisionByZeroPolynomial.
Proof. reflexivity. Qed.

(** ** C7 *)

(** C7, as stated for every modulus, fails above [2^30]: over the modulus
    [2^31 - 1] and the single coefficient [2^31 - 2] the sum [x % p + p]
    leaves the range of [int]; under wrap-around [Normalize] stores [-3]
    where the reference procedure gives [2^31 - 2], and a second
    [Normalize] changes the value again. *)
Lemma C7_counterexample :
  let A := Poly.mk INT_MAX [2147483646] in
  Poly.a (Poly.Normalize A) = [-3]
  /\ Normalize_ref INT_MAX [2147483646] = [2147483646]
  /\ Poly.Normalize (Poly.Normalize A) = Poly.mk INT_MAX [2147483644]
  /\ Poly.Normalize (Poly.Normalize A) <> Poly.Normalize A.
Proof.
  cbv zeta. repeat split; try (vm_compute; reflexivity).
  vm_compute. discriminate.
Qed.

(** C7 (amended): for every raw coefficient sequence and every modulus
    [md] with [0 < md <= 2^30], the range where no [int] sum overflows,
    [Normalize] yields exactly the vector of the reference procedure
    (reduce every coefficient into [[0, md-1]], then drop the highest
    coefficient while it is zero and more than one remains), keeps the
    modulus, and normalising a second time changes nothing. *)
Theorem C7_Normalize_refines_reference md v :
  0 < md <= MAX_MOD ->
  Poly.a (Poly.Normalize (Poly.mk md v)) = Normalize_ref md v
  /\ Poly.p (Poly.Normalize (Poly.mk md v)) = md
  /\ Poly.Normalize (Poly.Normalize (Poly.mk md v))
     = Poly.Normalize (Poly.mk md v).
Proof.
  intros Hmd. split; [apply Normalize_a_ref; exact Hmd |].
  split; [reflexivity |].
  destruct v as [| y v].
  - reflexivity.
  - apply Normalize_wf_id.
    + apply Normalize_wf; [exact Hmd | discriminate].
    + simpl. lia.
Qed.

Lemma C7_Normalize_refines_reference_witness :
  0 < 5 <= MAX_MOD
  /\ Poly.a (Poly.Normalize (Poly.mk 5 [7; -3; 10; 0])) = Normalize_ref 5 [7; -3; 10; 0]
  /\ Poly.p (Poly.Normalize (Poly.mk 5 [7; -3; 10; 0])) = 5
  /\ Poly.Normalize (Poly.Normalize (Poly.mk 5 [7; -3; 10; 0]))
     = Poly.Normalize (Poly.mk 5 [7; -3; 10; 0]).
Proof.
  assert (H : 0 < 5 <= MAX_MOD) by (unfold MAX_MOD; lia).
  split; [exact H | apply (C7_Normalize_refines_reference 5); exact H].
Defined.

(** ** C8 *)

(** C8, as stated, fails: for [a = -1] and [p = 5] the greatest common
    divisor is 1 and [InvMod] throws all the same (the loop ends with
    [r0 = -1]); for [p = 1] the result 0 cannot satisfy [(a * r) mod p = 1];
    and for the prime [p = 2^31 - 1] the sum [s0 % p + p] leaves the range
    of [int], the result being [-1] under wrap-around. *)
Lemma C8_counterexample :
  (Z.gcd (-1) 5 = 1 /\ Poly.InvMod 10 (-1) 5 = Throw NotInvertible)
  /\ (Z.gcd 0 1 = 1 /\ Poly.InvMod 10 0 1 = Val 0 /\ (0 * 0) mod 1 <> 1)
  /\ (Z.gcd 1 (2 ^ 31 - 1) = 1 /\ Poly.InvMod 10 1 (2 ^ 31 - 1) = Val (-1)).
Proof.
  repeat split; try (vm_compute; reflexivity). vm_compute. discriminate.
Qed.

(** C8 (amended): for every [a] with [0 <= a <= INT_MAX] and every modulus
    [p] with [2 <= p <= 2^30], [InvMod(a, p)] throws the not-invertible
    error when [gcd(a, p) <> 1], and otherwise returns the [r] in
    [[0, p-1]] with [(a * r) mod p = 1]. *)
Theorem C8_InvMod_nonnegative a p fuel :
  0 <= a <= INT_MAX -> 2 <= p <= MAX_MOD -> (Z.to_nat p < fuel)%nat ->
  (Z.gcd a p <> 1 -> Poly.InvMod fuel a p = Throw NotInvertible)
  /\ (Z.gcd a p = 1 ->
      exists r, Poly.InvMod fuel a p = Val r /\ 0 <= r < p
                /\ (a * r) mod p = 1).
Proof.
  intros Ha Hp F.
  destruct (InvMod_spec a p Ha ltac:(lia) fuel F) as (H1 & H2).
  split; [exact H2 |].
  intros G. destruct (H1 G) as (r & E & Hr & Hm).
  exists r. split; [exact E |]. split; [exact Hr |].
  rewrite Hm. apply Z.mod_small. lia.
Qed.

Lemma C8_InvMod_nonnegative_witness :
  0 <= 3 <= INT_MAX /\ 2 <= 7 <= MAX_MOD /\ (Z.to_nat 7 < 8)%nat
  /\ (Z.gcd 3 7 <> 1 -> Poly.InvMod 8 3 7 = Throw NotInvertible)
  /\ (Z.gcd 3 7 = 1 ->
      exists r, Poly.InvMod 8 3 7 = Val r /\ 0 <= r < 7 /\ (3 * r) mod 7 = 1).
Proof.
  assert (H1 : 0 <= 3 <= INT_MAX) by (unfold INT_MAX; lia).
  assert (H2 : 2 <= 7 <= MAX_MOD) by (unfold MAX_MOD; lia).
  assert (H3 : (Z.to_nat 7 < 8)%nat) by (simpl; lia).
  split; [exact H1 |]. split; [exact H2 |]. split; [exact H3 |].
  exact (C8_InvMod_nonnegative 3 7 8 H1 H2 H3).
Defined.

(** ** C10 *)

(** C10, as stated for every prime modulus, fails above [2^30]: over the
    prime [p = 2^31 - 1] the constructor stores the polynomial [x] as
    [[0, -1]] (the sum [1 % p + p] wraps around), a value of degree 1, and
    [IsIrreducible] does not answer false for it: the first [DivMod] of
    [PowX(p, f)] finds the leading coefficient [-1] not invertible and
    throws. *)
Lemma C10_counterexample :
  let f := Poly.of_vector [0; 1] INT_MAX in
  Z.prime INT_MAX /\ Poly.p f = INT_MAX /\ Poly.a f = [0; -1]
  /\ Poly.Degree f = 1
  /\ Poly.PowInt 10 (Poly.p f) 1 = Val INT_MAX
  /\ Poly.PowX 10 INT_MAX f = Throw NotInvertible
  /\ Poly.IsIrreducible 10 f = Throw NotInvertible.
Proof.
  cbv zeta. split; [exact INT_MAX_prime |].
  repeat split; vm_compute; reflexivity.
Qed.

(** C10 (amended): for every well-formed polynomial [f] of degree exactly 1
    over a prime modulus [p <= 2^30], [PowInt(p, 1)] is [p], [PowX(p, f)]
    is a remainder of degree 0, subtracting [x] from it does not give the
    zero polynomial, and [IsIrreducible(f)] answers false. *)
Theorem C10_linear_rejected f fuel :
  wf f -> Z.prime (Poly.p f) -> Poly.p f <= MAX_MOD -> Poly.Degree f = 1 ->
  (68 + Z.to_nat (Poly.p f) < fuel)%nat ->
  exists X,
    Poly.PowInt fuel (Poly.p f) 1 = Val (Poly.p f)
    /\ Poly.PowX fuel (Poly.p f) f = Val X
    /\ Poly.Degree X = 0
    /\ Poly.is_zero (Poly.sub X (Poly.of_vector [0; 1] (Poly.p f))) = false
    /\ Poly.IsIrreducible fuel f = Val false.
Proof.
  intros Hf Hprime Hmax Hdeg F. unfold Poly.Degree in Hdeg.
  destruct (IsIrreducible_linear f Hf Hprime Hmax ltac:(lia) fuel ltac:(lia) F)
    as (X & E1 & E2 & _ & E3 & E4 & E5).
  exists X. auto.
Qed.

Lemma C10_linear_rejected_witness :
  wf (Poly.mk 2 [1; 1]) /\ Z.prime 2 /\ 2 <= MAX_MOD
  /\ Poly.Degree (Poly.mk 2 [1; 1]) = 1
  /\ (68 + Z.to_nat 2 < 100)%nat
  /\ exists X,
       Poly.PowInt 100 2 1 = Val 2
       /\ Poly.PowX 100 2 (Poly.mk 2 [1; 1]) = Val X
       /\ Poly.Degree X = 0
       /\ Poly.is_zero (Poly.sub X (Poly.of_vector [0; 1] 2)) = false
       /\ Poly.IsIrreducible 100 (Poly.mk 2 [1; 1]) = Val false.
Proof.
  assert (H1 : wf (Poly.mk 2 [1; 1])) by wf_concrete.
  assert (H2 : 2 <= MAX_MOD) by (unfold MAX_MOD; lia).
  assert (H3 : Poly.Degree (Poly.mk 2 [1; 1]) = 1) by reflexivity.
  assert (H4 : (68 + Z.to_nat 2 < 100)%nat) by (simpl; lia).
  split; [exact H1 |]. split; [exact Z.prime_2 |]. split; [exact H2 |].
  split; [exact H3 |]. split; [exact H4 |].
  exact (C10_linear_rejected (Poly.mk 2 [1; 1]) 100 H1 Z.prime_2 H2 H3 H4).
Defined.

(** ** C6 *)

(** C6, as stated for every prime modulus, fails above [2^30]: over the
    prime [p = 2^31 - 1] the sum [x % p + p] of [Normalize] leaves the range
    of [int] and the constant 1 is stored as [-1] under wrap-around; for
    [f = x^2 + 1] the value [PowX(0 + 0, f)] is [[-1]], while the remainder
    of [PowX(0, f) * PowX(0, f)] by [f] is [[p - 1]]. *)
Lemma C6_counterexample :
  let f := Poly.mk INT_MAX [1; 0; 1] in
  Z.prime (Poly.p f) /\ wf f /\ 1 <= Poly.Degree f
  /\ Poly.PowX 10 0 f = Val (Poly.mk INT_MAX [-1])
  /\ Poly.mul (Poly.mk INT_MAX [-1]) (Poly.mk INT_MAX [-1])
     = Val (Poly.mk INT_MAX [-1])
  /\ Poly.DivMod 10 (Poly.mk INT_MAX [-1]) f
     = Val (Poly.mk INT_MAX [], Poly.mk INT_MAX [2147483646])
  /\ Poly.PowX 10 (0 + 0) f = Val (Poly.mk INT_MAX [-1])
  /\ Poly.mk INT_MAX [-1] <> Poly.mk INT_MAX [2147483646].
Proof.
  cbv zeta. split; [exact INT_MAX_prime |].
  split.
  { unfold wf, INT_MAX. cbn [Poly.a Poly.p].
    split; [discriminate |]. split; [| left; cbn; lia].
    repeat constructor; lia. }
  split; [unfold Poly.Degree; cbn; lia |].
  repeat split; try (vm_compute; reflexivity).
  vm_compute. discriminate.
Qed.

(** C6 (amended): for non-negative exponents [k1], [k2] whose sum fits
    [long long] and every well-formed modulus polynomial [f] of degree at
    least 1 over a prime modulus [p <= 2^30], [PowX(k1 + k2, f)] is the
    remainder of [DivMod(PowX(k1, f) * PowX(k2, f), f)]. *)
Theorem C6_PowX_additive f k1 k2 fuel :
  wf f -> Z.prime (Poly.p f) -> Poly.p f <= MAX_MOD -> 1 <= Poly.Degree f ->
  0 <= k1 -> 0 <= k2 -> k1 + k2 < 2 ^ 63 ->
  (63 + Z.to_nat (Poly.p f) + 2 * length (Poly.a f) < fuel)%nat ->
  exists X1 X2 M Q R,
    Poly.PowX fuel k1 f = Val X1
    /\ Poly.PowX fuel k2 f = Val X2
    /\ Poly.mul X1 X2 = Val M
    /\ Poly.DivMod fuel M f = Val (Q, R)
    /\ Poly.PowX fuel (k1 + k2) f = Val R.
Proof.
  intros Hf Hprime Hmax Hdeg Hk1 Hk2 Hk F.
  assert (Hlen : (2 <= length (Poly.a f))%nat)
    by (unfold Poly.Degree in Hdeg; lia).
  pose proof (wf_pos f Hf) as Hpos.
  destruct (PowX_spec f Hf Hprime Hmax Hlen fuel k1 ltac:(lia) F)
    as (X1 & E1 & H1 & C1).
  destruct (PowX_spec f Hf Hprime Hmax Hlen fuel k2 ltac:(lia) F)
    as (X2 & E2 & H2 & C2).
  destruct (PowX_spec f Hf Hprime Hmax Hlen fuel (k1 + k2) Hk F)
    as (X12 & E12 & H12 & C12).
  destruct (mulmod_spec f Hf Hprime Hmax Hlen fuel X1 X2
              (proj1 H1) (proj1 H2) (proj1 (proj2 H1)) (proj1 (proj2 H2)))
    as (M & Q & R & EM & ED & HR & CR).
  - lia.
  - destruct H1 as (_ & _ & L1). destruct H2 as (_ & _ & L2). lia.
  - exists X1, X2, M, Q, R.
    split; [exact E1 |]. split; [exact E2 |]. split; [exact EM |].
    split; [exact ED |]. rewrite E12. f_equal.
    apply (reduced_unique f Hf Hprime Hlen X12 R H12 HR).
    apply (cong_trans _ Hpos _ _ _ _ C12).
    apply (cong_trans _ Hpos _ _ (pmul (Poly.a X1) (Poly.a X2))); [| exact CR].
    rewrite Z2Nat.inj_add by lia.
    apply (cong_trans _ Hpos _ _
             (pmul (ppow [0; 1] (Z.to_nat k1)) (ppow [0; 1] (Z.to_nat k2)))).
    + apply eqp_cong. apply ppow_add. exact Hpos.
    + apply (cong_pmul _ Hpos); apply (cong_sym _ Hpos); assumption.
Qed.

Lemma C6_PowX_additive_witness :
  wf (Poly.mk 2 [1; 1; 1]) /\ Z.prime 2 /\ 2 <= MAX_MOD
  /\ 1 <= Poly.Degree (Poly.mk 2 [1; 1; 1])
  /\ 0 <= 2 /\ 0 <= 3 /\ 2 + 3 < 2 ^ 63
  /\ (63 + Z.to_nat 2 + 2 * 3 < 100)%nat
  /\ exists X1 X2 M Q R,
       Poly.PowX 100 2 (Poly.mk 2 [1; 1; 1]) = Val X1
       /\ Poly.PowX 100 3 (Poly.mk 2 [1; 1; 1]) = Val X2
       /\ Poly.mul X1 X2 = Val M
       /\ Poly.DivMod 100 M (Poly.mk 2 [1; 1; 1]) = Val (Q, R)
       /\ Poly.PowX 100 (2 + 3) (Poly.mk 2 [1; 1; 1]) = Val R.
Proof.
  assert (H1 : wf (Poly.mk 2 [1; 1; 1])) by wf_concrete.
  assert (H2 : 2 <= MAX_MOD) by (unfold MAX_MOD; lia).
  assert (H3 : 1 <= Poly.Degree (Poly.mk 2 [1; 1; 1]))
    by (unfold Poly.Degree; simpl; lia).
  assert (H4 : 0 <= 2) by lia.
  assert (H5 : 0 <= 3) by lia.
  assert (H6 : 2 + 3 < 2 ^ 63) by lia.
  assert (H7 : (63 + Z.to_nat 2 + 2 * 3 < 100)%nat) by (simpl; lia).
  split; [exact H1 |]. split; [exact Z.prime_2 |]. split; [exact H2 |].
  split; [exact H3 |]. split; [exact H4 |]. split; [exact H5 |].
  split; [exact H6 |]. split; [exact H7 |].
  exact (C6_PowX_additive (Poly.mk 2 [1; 1; 1]) 2 3 100
           H1 Z.prime_2 H2 H3 H4 H5 H6 H7).
Defined.

(** ** C9 *)

(** C9, as stated, fails in one step: with the convention that the zero
    polynomial has degree 0, the iteration of the loop of [DivMod] that
    takes the constant remainder [1] to zero (dividing [1] by [1] over
    modulus 2) leaves the degree at 0, and so does the iteration of [GCD]
    that replaces the second argument [1] by the remainder 0.  And above
    [2^30] an iteration need not even do that: over the prime [2^31 - 1]
    the inverse that [InvMod] returns for the leading coefficient 1 is
    [-1] under wrap-around, and the iteration of the loop of [DivMod] on the
    remainder [11 x^2 + 7 x + 5] and the divisor [x + 1] leaves a non-zero
    remainder of degree 2. *)
Lemma C9_counterexample :
  (let R := Poly.mk 2 [1] in
   let d := Poly.mk 2 [1] in
   (Poly.Degree d <=? Poly.Degree R) && negb (Poly.is_zero R) = true
   /\ Poly.InvMod 5 (last (Poly.a d) 0) 2 = Val 1
   /\ DivMod_next 2 d 1 R = Poly.mk 2 [0]
   /\ ~ Poly.Degree (DivMod_next 2 d 1 R) < Poly.Degree R
   /\ Poly.is_zero d = false
   /\ Poly.DivMod 5 R d = Val (Poly.mk 2 [1], Poly.mk 2 [0])
   /\ ~ Poly.Degree (Poly.mk 2 [0]) < Poly.Degree d)
  /\ (let R := Poly.mk INT_MAX [5; 7; 11] in
      let d := Poly.mk INT_MAX [1; 1] in
      Z.prime INT_MAX
      /\ (Poly.Degree d <=? Poly.Degree R) && negb (Poly.is_zero R) = true
      /\ Poly.InvMod 5 (last (Poly.a d) 0) INT_MAX = Val (-1)
      /\ DivMod_next INT_MAX d (-1) R
         = Poly.mk INT_MAX [3; -2147483631; -2147483627]
      /\ Poly.is_zero (DivMod_next INT_MAX d (-1) R) = false
      /\ ~ Poly.Degree (DivMod_next INT_MAX d (-1) R) < Poly.Degree R).
Proof.
  cbv zeta. split.
  - repeat split; try (vm_compute; reflexivity);
      vm_compute; discriminate.
  - split; [exact INT_MAX_prime |].
    repeat split; try (vm_compute; reflexivity).
    vm_compute. discriminate.
Qed.

(** C9 (amended): for every well-formed polynomial [f] with at most
    [2^30] coefficients over a prime modulus [p <= 2^30],
    [IsIrreducible(f)] returns an answer once the fuel exceeds a bound
    computed from [f]: each iteration of the loop of [DivMod] makes the
    remainder zero or strictly decreases its degree, each iteration of
    [GCD] makes the second argument zero or strictly decreases its degree,
    and [PowX] returns for every exponent with a bound on the fuel that
    does not depend on the exponent. *)
Theorem C9_termination f :
  wf f -> Z.prime (Poly.p f) -> Poly.p f <= MAX_MOD ->
  Z.of_nat (length (Poly.a f)) <= MAX_MOD ->
  (forall fuel,
      (64 + Z.to_nat (Poly.p f) + 2 * length (Poly.a f) < fuel)%nat ->
      exists b, Poly.IsIrreducible fuel f = Val b)
  /\ (forall d inv R,
        wf d -> Poly.p d = Poly.p f -> 0 <= inv < Poly.p f ->
        (last (Poly.a d) 0 * inv) mod Poly.p f = 1 mod Poly.p f ->
        wf R -> Poly.p R = Poly.p f ->
        (Poly.Degree d <=? Poly.Degree R) && negb (Poly.is_zero R) = true ->
        wf (DivMod_next (Poly.p f) d inv R)
        /\ (Poly.is_zero (DivMod_next (Poly.p f) d inv R) = true
            \/ Poly.Degree (DivMod_next (Poly.p f) d inv R) < Poly.Degree R))
  /\ (forall fuel A B,
        wf A -> wf B -> Poly.p A = Poly.p f -> Poly.p B = Poly.p f ->
        Poly.is_zero B = false ->
        (Z.to_nat (Poly.p f) < fuel)%nat -> (length (Poly.a A) < fuel)%nat ->
        exists Q R,
          Poly.DivMod fuel A B = Val (Q, R) /\ wf R
          /\ (Poly.is_zero R = true \/ Poly.Degree R < Poly.Degree B))
  /\ (forall fuel k,
        1 <= Poly.Degree f -> k < 2 ^ 63 ->
        (63 + Z.to_nat (Poly.p f) + 2 * length (Poly.a f) < fuel)%nat ->
        exists X, Poly.PowX fuel k f = Val X /\ wf X).
Proof.
  intros Hf Hprime Hmax Hlen.
  pose proof (wf_pos f Hf) as Hpos. pose proof (wf_length f Hf) as L1.
  split; [| split; [| split]].
  - intros fuel F.
    destruct (Nat.eq_dec (length (Poly.a f)) 1) as [E | E].
    + exists false. unfold Poly.IsIrreducible, Poly.Degree. rewrite E.
      reflexivity.
    + apply IsIrreducible_total; try assumption. lia.
  - intros d inv R Hd Hdp Hi Hi1 HR HRp Hc.
    apply andb_prop in Hc. destruct Hc as (Hc1 & Hc2).
    apply Z.leb_le in Hc1. apply negb_true_iff in Hc2.
    apply DivMod_next_decreases; try assumption. lia.
  - intros fuel A B HA HB HAp HBp HBz F1 F2.
    destruct (GCD_step (Poly.p f) Hprime Hmax fuel A B HA HB HAp HBp HBz F1 F2)
      as (Q & R & E & HR & _ & Hd & _).
    exists Q, R. auto.
  - intros fuel k Hdeg Hk F.
    destruct (PowX_spec f Hf Hprime Hmax
                ltac:(unfold Poly.Degree in Hdeg; lia) fuel k Hk F)
      as (X & E & HX & _).
    exists X. split; [exact E | exact (proj1 HX)].
Qed.

Lemma C9_termination_witness :
  wf (Poly.mk 2 [1; 1; 1]) /\ Z.prime 2 /\ 2 <= MAX_MOD
  /\ Z.of_nat 3 <= MAX_MOD
  /\ (forall fuel, (64 + Z.to_nat 2 + 2 * 3 < fuel)%nat ->
        exists b, Poly.IsIrreducible fuel (Poly.mk 2 [1; 1; 1]) = Val b).
Proof.
  assert (H1 : wf (Poly.mk 2 [1; 1; 1])) by wf_concrete.
  assert (H2 : 2 <= MAX_MOD) by (unfold MAX_MOD; lia).
  assert (H3 : Z.of_nat 3 <= MAX_MOD) by (unfold MAX_MOD; simpl; lia).
  split; [exact H1 |]. split; [exact Z.prime_2 |]. split; [exact H2 |].
  split; [exact H3 |].
  exact (proj1 (C9_termination (Poly.mk 2 [1; 1; 1]) H1 Z.prime_2 H2 H3)).
Defined.

(** ** C1 *)

(** C1 at the failing input: the polynomial [x] (coefficients [0,1]) over
    modulus 2 has degree 1 and is not a product of two polynomials of
    positive degree, and [IsIrreducible] answers false for it. *)
Theorem C1_linear_polynomial_rejected fuel :
  (100 <= fuel)%nat ->
  wf (Poly.mk 2 [0; 1])
  /\ irreducible_GFp (Poly.mk 2 [0; 1])
  /\ Poly.IsIrreducible fuel (Poly.mk 2 [0; 1]) = Val false.
Proof.
  intros F.
  assert (H1 : wf (Poly.mk 2 [0; 1])) by wf_concrete.
  split; [exact H1 |]. split.
  - apply linear_irreducible;
      [exact H1 | exact Z.prime_2 | unfold MAX_MOD; simpl; lia | reflexivity].
  - apply (IsIrreducible_mono 100); [exact F | vm_compute; reflexivity |].
    discriminate.
Qed.

Lemma C1_linear_polynomial_rejected_witness :
  (100 <= 100)%nat
  /\ wf (Poly.mk 2 [0; 1])
  /\ irreducible_GFp (Poly.mk 2 [0; 1])
  /\ Poly.IsIrreducible 100 (Poly.mk 2 [0; 1]) = Val false.
Proof.
  split; [apply le_n | apply (C1_linear_polynomial_rejected 100); apply le_n].
Defined.

(** ** C2 *)

(** C2 at the failing input: dividing the constant [1] by [x] over modulus
    2 returns a quotient whose coefficient vector is empty, which is not a
    normalised value; the remainder is normalised and [Q * d + R == A]
    holds all the same. *)
Theorem C2_quotient_not_normalized fuel :
  (10 <= fuel)%nat ->
  let A := Poly.mk 2 [1] in
  let d := Poly.mk 2 [0; 1] in
  exists Q R M,
    Poly.DivMod fuel A d = Val (Q, R)
    /\ ~ wf Q /\ wf R
    /\ Poly.mul Q d = Val M /\ Poly.add M R = A.
Proof.
  intros F A d.
  exists (Poly.mk 2 []), (Poly.mk 2 [1]), (Poly.mk 2 [0]).
  split; [| split; [| split; [| split]]].
  - apply (DivMod_mono 10); [exact F | vm_compute; reflexivity | discriminate].
  - intros (H & _). apply H. reflexivity.
  - wf_concrete.
  - vm_compute. reflexivity.
  - vm_compute. reflexivity.
Qed.

Lemma C2_quotient_not_normalized_witness :
  (10 <= 10)%nat
  /\ exists Q R M,
       Poly.DivMod 10 (Poly.mk 2 [1]) (Poly.mk 2 [0; 1]) = Val (Q, R)
       /\ ~ wf Q /\ wf R
       /\ Poly.mul Q (Poly.mk 2 [0; 1]) = Val M
       /\ Poly.add M R = Poly.mk 2 [1].
Proof.
  split; [apply le_n | apply (C2_quotient_not_normalized 10); apply le_n].
Defined.

(** ** C3 *)

(** C3 at the failing inputs: the quotient that [DivMod] returns when the
    dividend has lower degree than the divisor has an empty coefficient
    vector ([1] divided by [x] over modulus 2), and so has the value
    constructed from an empty raw sequence; both break the invariant that
    the coefficient sequence is never empty. *)
Theorem C3_empty_coefficient_vector fuel :
  (10 <= fuel)%nat ->
  (exists Q R,
      Poly.DivMod fuel (Poly.mk 2 [1]) (Poly.mk 2 [0; 1]) = Val (Q, R)
      /\ Poly.a Q = [] /\ ~ wf Q)
  /\ Poly.a (Poly.of_vector [] 2) = []
  /\ ~ wf (Poly.of_vector [] 2).
Proof.
  intros F. split; [| split].
  - exists (Poly.mk 2 []), (Poly.mk 2 [1]).
    split; [| split; [reflexivity |]].
    + apply (DivMod_mono 10); [exact F | vm_compute; reflexivity | discriminate].
    + intros (H & _). apply H. reflexivity.
  - reflexivity.
  - intros (H & _). apply H. reflexivity.
Qed.

Lemma C3_empty_coefficient_vector_witness :
  (10 <= 10)%nat
  /\ (exists Q R,
        Poly.DivMod 10 (Poly.mk 2 [1]) (Poly.mk 2 [0; 1]) = Val (Q, R)
        /\ Poly.a Q = [] /\ ~ wf Q)
  /\ Poly.a (Poly.of_vector [] 2) = []
  /\ ~ wf (Poly.of_vector [] 2).
Proof.
  split; [apply le_n | apply (C3_empty_coefficient_vector 10); apply le_n].
Defined.

(** X18: sums, differences and products of well-formed values over one
    modulus satisfy the three invariants again, and the product does not
    throw. *)
Lemma operations_preserve_invariants A B :
  wf A -> wf B -> Poly.p B = Poly.p A -> Poly.p A <= MAX_MOD ->
  wf (Poly.add A B) /\ wf (Poly.sub A B)
  /\ exists M, Poly.mul A B = Val M /\ wf M.
Proof.
  intros HA HB Hp HM. pose proof (wf_pos A HA) as Hpos.
  assert (Hmd : 0 < Poly.p A <= MAX_MOD) by lia.
  split; [apply (add_wf (Poly.p A) Hmd); [reflexivity | exact (proj1 HA)] |].
  split; [apply (sub_wf (Poly.p A) Hmd); [reflexivity | exact (proj1 HA)] |].
  pose proof (wf_length A HA).
  destruct (mul_spec (Poly.p A) Hmd A B eq_refl) as (M & E & _ & _ & _ & H1).
  - apply wf_ranged, HA.
  - rewrite <- Hp. apply wf_ranged, HB.
  - lia.
  - exists M. split; [exact E |]. apply H1; [exact (proj1 HA) | exact (proj1 HB)].
Qed.

(** * Further properties of the operations *)

(** ** The arithmetic of well-formed values *)

Section PolyAlgebra.

Variable md : Z.
Hypothesis Hmd : 0 < md <= MAX_MOD.

Let Hpos : 0 < md := proj1 Hmd.

#[local] Instance eqp_Equiv_alg : Equivalence (eqp md) := eqp_Equivalence md.
#[local] Instance padd_Prop_alg : Proper (eqp md ==> eqp md ==> eqp md) padd :=
  padd_Proper md Hpos.
#[local] Instance pmul_Prop_alg : Proper (eqp md ==> eqp md ==> eqp md) pmul :=
  pmul_Proper md Hpos.
#[local] Instance popp_Prop_alg : Proper (eqp md ==> eqp md) popp :=
  popp_Prop md Hpos.

#[local] Instance psub_Prop_alg : Proper (eqp md ==> eqp md ==> eqp md) psub.
Proof. intros u u' Hu v v' Hv. unfold psub. rewrite Hu, Hv. reflexivity. Qed.

Add Ring poly_ring_alg :
  (poly_ring_theory md Hpos)
    (setoid eqp_Equiv_alg (poly_ring_eq_ext md Hpos)).

Lemma wf_eq X Y :
  wf X -> wf Y -> Poly.p X = md -> Poly.p Y = md ->
  eqp md (Poly.a X) (Poly.a Y) -> X = Y.
Proof.
  intros HX HY HXp HYp E.
  apply wf_unique; [exact HX | exact HY | congruence | rewrite HXp; exact E].
Qed.

Lemma add_sem A B :
  wf A -> wf B -> Poly.p A = md -> Poly.p B = md ->
  wf (Poly.add A B) /\ Poly.p (Poly.add A B) = md
  /\ eqp md (Poly.a (Poly.add A B)) (padd (Poly.a A) (Poly.a B)).
Proof.
  intros HA HB HAp HBp.
  split; [apply (add_wf md Hmd); [exact HAp | exact (proj1 HA)] |].
  split; [rewrite add_unfold; exact HAp |].
  apply (add_eqp md Hmd); [exact HAp | |].
  - rewrite <- HAp. apply wf_ranged, HA.
  - rewrite <- HBp. apply wf_ranged, HB.
Qed.

Lemma sub_sem A B :
  wf A -> wf B -> Poly.p A = md -> Poly.p B = md ->
  wf (Poly.sub A B) /\ Poly.p (Poly.sub A B) = md
  /\ eqp md (Poly.a (Poly.sub A B)) (psub (Poly.a A) (Poly.a B)).
Proof.
  intros HA HB HAp HBp.
  split; [apply (sub_wf md Hmd); [exact HAp | exact (proj1 HA)] |].
  split; [rewrite sub_unfold; exact HAp |].
  apply (sub_eqp md Hmd); [exact HAp | |].
  - rewrite <- HAp. apply wf_ranged, HA.
  - rewrite <- HBp. apply wf_ranged, HB.
Qed.

Lemma mul_sem A B :
  wf A -> wf B -> Poly.p A = md -> Poly.p B = md ->
  exists M,
    Poly.mul A B = Val M /\ wf M /\ Poly.p M = md
    /\ eqp md (Poly.a M) (pmul (Poly.a A) (Poly.a B))
    /\ (length (Poly.a M) <= length (Poly.a A) + length (Poly.a B) - 1)%nat.
Proof.
  intros HA HB HAp HBp. pose proof (wf_length A HA) as LA.
  destruct (mul_spec md Hmd A B HAp) as (M & E & HMp & HMe & HMl & HMwf).
  - rewrite <- HAp. apply wf_ranged, HA.
  - rewrite <- HBp. apply wf_ranged, HB.
  - lia.
  - exists M. split; [exact E |].
    split; [apply HMwf; [exact (proj1 HA) | exact (proj1 HB)] |].
    split; [exact HMp |]. split; [exact HMe | exact HMl].
Qed.

Lemma zero_wf : wf (Poly.zero md) /\ Poly.p (Poly.zero md) = md.
Proof.
  split; [| reflexivity]. unfold wf, Poly.zero. simpl.
  split; [discriminate |]. split; [| right; reflexivity].
  repeat constructor; lia.
Qed.

Lemma add_comm A B :
  wf A -> wf B -> Poly.p A = md -> Poly.p B = md ->
  Poly.add A B = Poly.add B A.
Proof.
  intros HA HB HAp HBp.
  destruct (add_sem A B HA HB HAp HBp) as (W1 & P1 & E1).
  destruct (add_sem B A HB HA HBp HAp) as (W2 & P2 & E2).
  apply wf_eq; try assumption. rewrite E1, E2. ring.
Qed.

Lemma add_assoc A B C :
  wf A -> wf B -> wf C -> Poly.p A = md -> Poly.p B = md -> Poly.p C = md ->
  Poly.add (Poly.add A B) C = Poly.add A (Poly.add B C).
Proof.
  intros HA HB HC HAp HBp HCp.
  destruct (add_sem A B HA HB HAp HBp) as (W1 & P1 & E1).
  destruct (add_sem B C HB HC HBp HCp) as (W2 & P2 & E2).
  destruct (add_sem _ C W1 HC P1 HCp) as (W3 & P3 & E3).
  destruct (add_sem A _ HA W2 HAp P2) as (W4 & P4 & E4).
  apply wf_eq; try assumption. rewrite E3, E4, E1, E2. ring.
Qed.

Lemma add_zero_r A :
  wf A -> Poly.p A = md -> Poly.add A (Poly.zero md) = A.
Proof.
  intros HA HAp. destruct zero_wf as (Hz & Hzp).
  destruct (add_sem A _ HA Hz HAp Hzp) as (W1 & P1 & E1).
  apply wf_eq; try assumption. rewrite E1. apply padd_zero_r.
Qed.

Lemma sub_diag A :
  wf A -> Poly.p A = md -> Poly.sub A A = Poly.zero md.
Proof.
  intros HA HAp. destruct zero_wf as (Hz & Hzp).
  destruct (sub_sem A A HA HA HAp HAp) as (W1 & P1 & E1).
  apply wf_eq; try assumption. rewrite E1. simpl Poly.a.
  unfold psub. rewrite <- eqp_nil_zero. apply padd_opp.
Qed.

Lemma add_sub_cancel A B :
  wf A -> wf B -> Poly.p A = md -> Poly.p B = md ->
  Poly.sub (Poly.add A B) B = A /\ Poly.add (Poly.sub A B) B = A.
Proof.
  intros HA HB HAp HBp.
  destruct (add_sem A B HA HB HAp HBp) as (W1 & P1 & E1).
  destruct (sub_sem A B HA HB HAp HBp) as (W2 & P2 & E2).
  destruct (sub_sem _ B W1 HB P1 HBp) as (W3 & P3 & E3).
  destruct (add_sem _ B W2 HB P2 HBp) as (W4 & P4 & E4).
  split; apply wf_eq; try assumption.
  - rewrite E3, E1. ring.
  - rewrite E4, E2. ring.
Qed.

Lemma mul_comm A B :
  wf A -> wf B -> Poly.p A = md -> Poly.p B = md ->
  Poly.mul A B = Poly.mul B A.
Proof.
  intros HA HB HAp HBp.
  destruct (mul_sem A B HA HB HAp HBp) as (M1 & -> & W1 & P1 & E1 & _).
  destruct (mul_sem B A HB HA HBp HAp) as (M2 & -> & W2 & P2 & E2 & _).
  f_equal. apply wf_eq; try assumption. rewrite E1, E2. ring.
Qed.

Lemma mul_assoc A B C :
  wf A -> wf B -> wf C -> Poly.p A = md -> Poly.p B = md -> Poly.p C = md ->
  exists AB BC L,
    Poly.mul A B = Val AB /\ Poly.mul B C = Val BC
    /\ Poly.mul AB C = Val L /\ Poly.mul A BC = Val L.
Proof.
  intros HA HB HC HAp HBp HCp.
  destruct (mul_sem A B HA HB HAp HBp) as (AB & E1 & W1 & P1 & S1 & _).
  destruct (mul_sem B C HB HC HBp HCp) as (BC & E2 & W2 & P2 & S2 & _).
  destruct (mul_sem AB C W1 HC P1 HCp) as (L & E3 & W3 & P3 & S3 & _).
  destruct (mul_sem A BC HA W2 HAp P2) as (L' & E4 & W4 & P4 & S4 & _).
  exists AB, BC, L. split; [exact E1 |]. split; [exact E2 |].
  split; [exact E3 |]. rewrite E4. f_equal.
  apply wf_eq; try assumption. rewrite S4, S3, S1, S2. ring.
Qed.

Lemma mul_add_distr A B C :
  wf A -> wf B -> wf C -> Poly.p A = md -> Poly.p B = md -> Poly.p C = md ->
  exists AB AC,
    Poly.mul A B = Val AB /\ Poly.mul A C = Val AC
    /\ Poly.mul A (Poly.add B C) = Val (Poly.add AB AC).
Proof.
  intros HA HB HC HAp HBp HCp.
  destruct (mul_sem A B HA HB HAp HBp) as (AB & E1 & W1 & P1 & S1 & _).
  destruct (mul_sem A C HA HC HAp HCp) as (AC & E2 & W2 & P2 & S2 & _).
  destruct (add_sem B C HB HC HBp HCp) as (W3 & P3 & S3).
  destruct (mul_sem A _ HA W3 HAp P3) as (L & E4 & W4 & P4 & S4 & _).
  destruct (add_sem AB AC W1 W2 P1 P2) as (W5 & P5 & S5).
  exists AB, AC. split; [exact E1 |]. split; [exact E2 |].
  rewrite E4. f_equal. apply wf_eq; try assumption.
  rewrite S4, S5, S3, S1, S2. ring.
Qed.

Lemma one_wf : 2 <= md -> wf (Poly.mk md [1]).
Proof. intros H. wf_concrete. Qed.

Lemma mul_one_r A :
  2 <= md -> wf A -> Poly.p A = md -> Poly.mul A (Poly.mk md [1]) = Val A.
Proof.
  intros H2 HA HAp.
  destruct (mul_sem A _ HA (one_wf H2) HAp eq_refl) as (M & -> & W & P & S & _).
  f_equal. apply wf_eq; try assumption. rewrite S. simpl Poly.a. ring.
Qed.

End PolyAlgebra.

(** ** Products over a prime modulus *)

Section PrimeField.

Variable md : Z.
Hypothesis Hprime : Z.prime md.
Hypothesis Hmax : md <= MAX_MOD.

Let H2 : 2 <= md := Z.prime_ge_2 md Hprime.
Let Hmd : 0 < md <= MAX_MOD := conj (Z.lt_le_trans 0 2 md eq_refl H2) Hmax.
Let Hpos : 0 < md := proj1 Hmd.

#[local] Instance eqp_Equiv_pf : Equivalence (eqp md) := eqp_Equivalence md.
#[local] Instance padd_Prop_pf : Proper (eqp md ==> eqp md ==> eqp md) padd :=
  padd_Proper md Hpos.
#[local] Instance pmul_Prop_pf : Proper (eqp md ==> eqp md ==> eqp md) pmul :=
  pmul_Proper md Hpos.
#[local] Instance popp_Prop_pf : Proper (eqp md ==> eqp md) popp :=
  popp_Prop md Hpos.

#[local] Instance psub_Prop_pf : Proper (eqp md ==> eqp md ==> eqp md) psub.
Proof. intros u u' Hu v v' Hv. unfold psub. rewrite Hu, Hv. reflexivity. Qed.

Add Ring poly_ring_pf :
  (poly_ring_theory md Hpos)
    (setoid eqp_Equiv_pf (poly_ring_eq_ext md Hpos)).

Lemma lead_product_nonzero A B :
  wf A -> wf B -> Poly.p A = md -> Poly.p B = md ->
  Poly.is_zero A = false -> Poly.is_zero B = false ->
  (last (Poly.a A) 0 * last (Poly.a B) 0) mod md <> 0.
Proof.
  intros HA HB HAp HBp HAz HBz E.
  apply Z.mod_divide in E; [| lia].
  apply (Z.divide_prime_mul _ _ _ Hprime) in E.
  pose proof (wf_lead_range A HA HAz) as LA. rewrite HAp in LA.
  pose proof (wf_lead_range B HB HBz) as LB. rewrite HBp in LB.
  destruct E as [D | D]; apply Z.divide_pos_le in D; lia.
Qed.

(** The product of two non-zero values is non-zero and its degree is the
    sum of the degrees. *)
Lemma mul_degree A B :
  wf A -> wf B -> Poly.p A = md -> Poly.p B = md ->
  Poly.is_zero A = false -> Poly.is_zero B = false ->
  exists M,
    Poly.mul A B = Val M /\ wf M /\ Poly.p M = md
    /\ Poly.is_zero M = false
    /\ Poly.Degree M = Poly.Degree A + Poly.Degree B.
Proof.
  intros HA HB HAp HBp HAz HBz.
  destruct (mul_sem md Hmd A B HA HB HAp HBp) as (M & E & W & P & S & L).
  pose proof (wf_length A HA) as LA. pose proof (wf_length B HB) as LB.
  pose proof (lead_product_nonzero A B HA HB HAp HBp HAz HBz) as Hl.
  rewrite <- (pmul_top md (Poly.a A) (Poly.a B) Hpos (proj1 HA) (proj1 HB))
    in Hl.
  rewrite <- (S _) in Hl.
  assert (Hlen : length (Poly.a M)
                 = (length (Poly.a A) + length (Poly.a B) - 1)%nat).
  { destruct (Nat.eq_dec (length (Poly.a M))
                (length (Poly.a A) + length (Poly.a B) - 1)) as [H | H];
      [exact H | exfalso].
    apply Hl. rewrite coef_overflow by lia. apply Z.mod_0_l. lia. }
  exists M. split; [exact E |]. split; [exact W |]. split; [exact P |].
  split; [| unfold Poly.Degree; lia].
  destruct (Poly.is_zero M) eqn:Z; [| reflexivity].
  apply is_zero_true in Z. exfalso. apply Hl.
  rewrite Z in *. simpl in Hlen.
  replace (length (Poly.a A) + length (Poly.a B) - 2)%nat with 0%nat by lia.
  reflexivity.
Qed.

(** A product with the zero polynomial is the zero polynomial. *)
Lemma mul_zero_r A :
  wf A -> Poly.p A = md -> Poly.mul A (Poly.zero md) = Val (Poly.zero md).
Proof.
  intros HA HAp. destruct (zero_wf md Hmd) as (Hz & Hzp).
  destruct (mul_sem md Hmd A _ HA Hz HAp Hzp) as (M & -> & W & P & S & _).
  f_equal. apply (wf_eq md); try assumption.
  eapply eqp_trans; [exact S |]. simpl Poly.a.
  eapply eqp_trans; [apply pmul_comm; exact Hpos |].
  eapply eqp_trans; [apply pmul_single |].
  eapply eqp_trans; [apply pscale_0 |]. apply eqp_nil_zero.
Qed.

(** *** Uniqueness of quotient and remainder *)

Lemma low_coefs R d :
  wf R -> wf d ->
  (length (Poly.a R) < length (Poly.a d))%nat \/ Poly.is_zero R = true ->
  forall i, (length (Poly.a d) - 1 <= i)%nat -> coef (Poly.a R) i = 0.
Proof.
  intros HR Hd [H | H] i Hi.
  - apply coef_overflow. lia.
  - apply is_zero_true in H. rewrite H. destruct i; [reflexivity |].
    rewrite coef_cons_S. apply coef_nil.
Qed.

(** Two decompositions [A = q d + r] with small remainders agree. *)
Lemma division_unique d q1 r1 q2 r2 :
  wf d -> Poly.p d = md -> Poly.is_zero d = false ->
  (forall i, (length (Poly.a d) - 1 <= i)%nat -> coef r1 i = 0) ->
  (forall i, (length (Poly.a d) - 1 <= i)%nat -> coef r2 i = 0) ->
  eqp md (padd (pmul q1 (Poly.a d)) r1) (padd (pmul q2 (Poly.a d)) r2) ->
  eqp md q1 q2 /\ eqp md r1 r2.
Proof.
  intros Hd Hdp Hdz L1 L2 E.
  destruct (unit_inverse _ _ (wf_lead_unit d Hd ltac:(rewrite Hdp; exact Hprime) Hdz))
    as (inv & Hinv).
  rewrite Hdp in Hinv.
  assert (Hq : eqp md (psub q1 q2) []).
  { apply (multiple_low_degree md (Poly.a d) inv Hpos (proj1 Hd) Hinv
             (psub q1 q2) (psub r2 r1)).
    - transitivity
        (padd (psub (padd (pmul q1 (Poly.a d)) r1)
                 (padd (pmul q2 (Poly.a d)) r2))
              (psub r2 r1)); [ring |].
      rewrite E. ring.
    - intros i Hi. rewrite coef_psub, L1, L2 by exact Hi. reflexivity. }
  assert (Hq12 : eqp md q1 q2).
  { transitivity (padd (psub q1 q2) q2); [ring |]. rewrite Hq. reflexivity. }
  split; [exact Hq12 |].
  transitivity (psub (padd (pmul q1 (Poly.a d)) r1) (pmul q1 (Poly.a d)));
    [ring |].
  rewrite E, Hq12. ring.
Qed.

Lemma DivMod_unique_sem fuel A d Q' R' M' :
  wf A -> wf d -> Poly.p A = md -> Poly.p d = md -> Poly.is_zero d = false ->
  wf Q' -> wf R' -> Poly.p Q' = md -> Poly.p R' = md ->
  Poly.mul Q' d = Val M' -> Poly.add M' R' = A ->
  (Poly.is_zero R' = true \/ Poly.Degree R' < Poly.Degree d) ->
  (Z.to_nat md < fuel)%nat -> (length (Poly.a A) < fuel)%nat ->
  exists Q,
    Poly.DivMod fuel A d = Val (Q, R')
    /\ (Poly.Degree d <= Poly.Degree A -> Q = Q').
Proof.
  intros HA Hd HAp Hdp Hdz HQ' HR' HQp' HRp' EM EA Hsmall F1 F2.
  assert (Hg : Z.gcd (last (Poly.a d) 0) (Poly.p A) = 1).
  { rewrite HAp, <- Hdp. apply wf_lead_unit; [exact Hd | | exact Hdz].
    rewrite Hdp. exact Hprime. }
  destruct (DivMod_spec fuel A d HA Hd ltac:(congruence)
              ltac:(rewrite HAp; exact Hmax) Hdz Hg
              ltac:(rewrite HAp; exact F1) F2)
    as (Q & R & E & HR & HRp & HQp & Hend & _ & HE & HQwf & _).
  rewrite HAp in HE, HRp, HQp.
  destruct (mul_sem md Hmd Q' d HQ' Hd HQp' Hdp) as (M & EM' & WM & PM & SM & _).
  assert (M = M') by congruence. subst M'. clear EM'.
  destruct (add_sem md Hmd M R' WM HR' PM HRp') as (_ & _ & SA).
  rewrite EA in SA.
  assert (Hsmall' : (length (Poly.a R') < length (Poly.a d))%nat
                    \/ Poly.is_zero R' = true).
  { destruct Hsmall as [H | H]; [right; exact H | left].
    unfold Poly.Degree in H. lia. }
  destruct (division_unique d (Poly.a Q) (Poly.a R) (Poly.a Q') (Poly.a R')
              Hd Hdp Hdz (low_coefs R d HR Hd Hend)
              (low_coefs R' d HR' Hd Hsmall')) as (EQ & ER).
  { rewrite <- HE, SA, SM. reflexivity. }
  assert (R = R') by (apply (wf_eq md); assumption). subst R'.
  exists Q. split; [exact E |].
  intros Hdeg. apply (wf_eq md); try assumption.
  apply HQwf. unfold Poly.Degree in Hdeg. lia.
Qed.

Lemma DivMod_exact_sem fuel M d A :
  wf M -> wf d -> Poly.p M = md -> Poly.p d = md ->
  Poly.is_zero M = false -> Poly.is_zero d = false ->
  Poly.mul M d = Val A ->
  (Z.to_nat md < fuel)%nat -> (length (Poly.a A) < fuel)%nat ->
  Poly.DivMod fuel A d = Val (M, Poly.zero md).
Proof.
  intros HM Hd HMp Hdp HMz Hdz E F1 F2.
  destruct (mul_degree M d HM Hd HMp Hdp HMz Hdz)
    as (A' & E' & WA & PA & _ & DA).
  assert (A' = A) by congruence. subst A'.
  destruct (zero_wf md Hmd) as (Hz & Hzp).
  destruct (DivMod_unique_sem fuel A d M (Poly.zero md) A)
    as (Q & EQ & HQ); try assumption.
  - apply (add_zero_r md Hmd); assumption.
  - left. reflexivity.
  - rewrite EQ. rewrite HQ; [reflexivity |].
    pose proof (wf_length M HM). unfold Poly.Degree in *. lia.
Qed.

Lemma DivMod_short_sem fuel A d :
  wf A -> wf d -> Poly.p A = md -> Poly.p d = md ->
  Poly.Degree A < Poly.Degree d ->
  (Z.to_nat md < fuel)%nat -> (length (Poly.a A) < fuel)%nat ->
  Poly.DivMod fuel A d = Val (Poly.mk md [], A).
Proof.
  intros HA Hd HAp Hdp Hdeg F1 F2.
  pose proof (wf_length A HA) as LA. unfold Poly.Degree in Hdeg.
  assert (Hdz : Poly.is_zero d = false) by (apply long_not_zero; lia).
  assert (Hg : Z.gcd (last (Poly.a d) 0) (Poly.p A) = 1).
  { rewrite HAp, <- Hdp. apply wf_lead_unit; [exact Hd | | exact Hdz].
    rewrite Hdp. exact Hprime. }
  destruct (DivMod_spec fuel A d HA Hd ltac:(congruence)
              ltac:(rewrite HAp; exact Hmax) Hdz Hg
              ltac:(rewrite HAp; exact F1) F2)
    as (Q & R & E & _ & _ & HQp & _ & _ & _ & _ & Hshort).
  destruct (Hshort ltac:(lia)) as (HQa & ->).
  rewrite E. f_equal. f_equal.
  destruct Q as [pq aq]. simpl in *. subst. reflexivity.
Qed.

(** *** Divisibility and the greatest common divisor *)

Lemma divides_pdivides G A :
  wf G -> Poly.p G = md -> divides G A ->
  pdivides md (Poly.a G) (Poly.a A).
Proof.
  intros HG HGp (Q & HQ & HQp & E).
  destruct (mul_sem md Hmd Q G HQ HG ltac:(congruence) HGp)
    as (M & E' & _ & _ & S & _).
  assert (M = A) by congruence. subst M.
  exists (Poly.a Q). exact S.
Qed.

Lemma pdivides_divides G A :
  wf G -> wf A -> Poly.p G = md -> Poly.p A = md ->
  pdivides md (Poly.a G) (Poly.a A) -> divides G A.
Proof.
  intros HG HA HGp HAp (q & Hq).
  set (Q := Poly.Normalize (Poly.mk md (q ++ [0]))).
  assert (HQ : wf Q).
  { apply Normalize_wf; [exact Hmd |]. destruct q; discriminate. }
  assert (SQ : eqp md (Poly.a Q) q).
  { unfold Q. rewrite (Normalize_eqp md (q ++ [0]) Hmd).
    apply (snoc_zero_eqp md [] q 0). apply Z.mod_0_l. lia. }
  destruct (mul_sem md Hmd Q G HQ HG eq_refl HGp) as (M & E & WM & PM & S & _).
  exists Q. split; [exact HQ |]. split; [rewrite HGp; reflexivity |].
  rewrite E. f_equal. apply (wf_eq md); try assumption.
  rewrite S, SQ, Hq. reflexivity.
Qed.

Lemma GCD_loop_sem fuel : forall A B,
  wf A -> wf B -> Poly.p A = md -> Poly.p B = md ->
  (measure B + Z.to_nat md
   + Nat.max (length (Poly.a A)) (length (Poly.a B)) + 1 < fuel)%nat ->
  exists G,
    Poly.GCD_loop fuel A B = Val G /\ wf G /\ Poly.p G = md
    /\ pdivides md (Poly.a G) (Poly.a A)
    /\ pdivides md (Poly.a G) (Poly.a B)
    /\ (forall c, pdivides md c (Poly.a A) -> pdivides md c (Poly.a B) ->
                  pdivides md c (Poly.a G)).
Proof.
  induction fuel as [| fuel IH]; intros A B HA HB HAp HBp F; [lia |].
  cbn [Poly.GCD_loop].
  destruct (Poly.is_zero B) eqn:HBz; simpl negb; cbv iota.
  - exists A. split; [reflexivity |]. split; [exact HA |]. split; [exact HAp |].
    split; [| split].
    + exists [1]. symmetry. apply pmul_1_l.
    + apply is_zero_true in HBz. rewrite HBz. exists []. simpl.
      symmetry. apply eqp_nil_zero.
    + intros c Hc _. exact Hc.
  - assert (Hg : Z.gcd (last (Poly.a B) 0) (Poly.p A) = 1).
    { rewrite HAp, <- HBp. apply wf_lead_unit; [exact HB | | exact HBz].
      rewrite HBp. exact Hprime. }
    destruct (DivMod_spec fuel A B HA HB ltac:(congruence)
                ltac:(rewrite HAp; exact Hmax) HBz Hg
                ltac:(rewrite HAp; lia) ltac:(lia))
      as (Q & R & E & HR & HRp & _ & Hend & HRl & HE & _).
    rewrite HAp in HE, HRp.
    rewrite E. cbn [bind].
    destruct (IH B R HB HR HBp HRp) as (G & EG & WG & PG & DB & DR & Hgr).
    { pose proof (wf_length B HB) as LB. unfold measure in *.
      rewrite HBz in F.
      destruct (Poly.is_zero R) eqn:HRz.
      - lia.
      - destruct Hend as [Hl | Hl]; [lia | congruence]. }
    exists G. split; [exact EG |]. split; [exact WG |]. split; [exact PG |].
    split; [| split; [exact DB |]].
    + destruct DB as (qb & Hb). destruct DR as (qr & Hr).
      exists (padd (pmul (Poly.a Q) qb) qr). rewrite HE, Hb, Hr. ring.
    + intros c (qa & Ha) (qb & Hb). apply Hgr; [exists qb; exact Hb |].
      exists (psub qa (pmul (Poly.a Q) qb)).
      transitivity (psub (padd (pmul (Poly.a Q) (Poly.a B)) (Poly.a R))
                      (pmul (Poly.a Q) (Poly.a B))); [ring |].
      rewrite <- HE, Ha, Hb. ring.
Qed.

Lemma GCD_sem fuel A B :
  wf A -> wf B -> Poly.p A = md -> Poly.p B = md ->
  (Z.to_nat md + 2 * Nat.max (length (Poly.a A)) (length (Poly.a B)) + 1
   < fuel)%nat ->
  exists G,
    Poly.GCD fuel A B = Val G /\ wf G /\ Poly.p G = md
    /\ divides G A /\ divides G B
    /\ (forall C, wf C -> Poly.p C = md ->
                  divides C A -> divides C B -> divides C G).
Proof.
  intros HA HB HAp HBp F.
  destruct (GCD_loop_sem fuel A B HA HB HAp HBp)
    as (G & E & WG & PG & DA & DB & Hgr).
  - unfold measure. destruct (Poly.is_zero B); lia.
  - unfold Poly.GCD. rewrite E. cbn [bind].
    rewrite Normalize_wf_id by (try assumption; lia).
    exists G. split; [reflexivity |]. split; [exact WG |]. split; [exact PG |].
    split; [apply pdivides_divides; assumption |].
    split; [apply pdivides_divides; assumption |].
    intros C HC HCp CA CB. apply pdivides_divides; try assumption.
    apply Hgr; apply divides_pdivides; assumption.
Qed.

End PrimeField.

(** ** PowInt and PrimeDivisors *)

Lemma wrap64_mul_l r x : wrap64 (wrap64 r * x) = wrap64 (r * x).
Proof.
  unfold wrap64. f_equal.
  rewrite (Z.mod_eq (r + 2 ^ 63) (2 ^ 64)) by lia.
  replace ((r + 2 ^ 63 - 2 ^ 64 * ((r + 2 ^ 63) / 2 ^ 64) - 2 ^ 63) * x
           + 2 ^ 63)
    with (r * x + 2 ^ 63 + (- ((r + 2 ^ 63) / 2 ^ 64) * x) * 2 ^ 64) by ring.
  apply Z_mod_plus_full.
Qed.

Lemma wrap64_idemp z : wrap64 (wrap64 z) = wrap64 z.
Proof. apply wrap64_small. apply wrap64_range. Qed.

Lemma PowInt_loop_value fuel : forall x b r,
  0 <= b < 2 ^ 62 -> (Z.to_nat b < fuel)%nat ->
  Poly.PowInt_loop fuel x b (wrap64 r) = Val (wrap64 (r * x ^ b)).
Proof.
  induction fuel as [| fuel IH]; intros x b r Hb F; [lia |].
  simpl Poly.PowInt_loop. destruct (Z.eqb_spec b 0) as [-> | E].
  - rewrite Z.pow_0_r, Z.mul_1_r. reflexivity.
  - rewrite (wrap64_small (b - 1)) by lia.
    rewrite wrap64_mul_l, IH by lia. f_equal. f_equal.
    replace b with (Z.succ (b - 1)) at 2 by lia.
    rewrite Z.pow_succ_r by lia. ring.
Qed.

Lemma strip_factor_spec fuel : forall n i,
  1 <= n <= MAX_MOD -> Z.prime i -> (Z.to_nat n < fuel)%nat ->
  exists n',
    Poly.strip_factor fuel n i = Val n'
    /\ 1 <= n' <= n /\ (n' | n) /\ ~ (i | n')
    /\ (forall q, Z.prime q -> (q | n) -> (q | n') \/ q = i).
Proof.
  unfold MAX_MOD.
  induction fuel as [| fuel IH]; intros n i Hn Hi F; [lia |].
  pose proof (Z.prime_ge_2 i Hi) as Hi2.
  simpl. destruct (Z.eqb_spec (Z.rem n i) 0) as [E | E].
  - pose proof (Z.quot_rem' n i) as Hq. rewrite E in Hq.
    assert (Hq1 : 1 <= Z.quot n i < n) by nia.
    rewrite wrap32_small by lia.
    destruct (IH (Z.quot n i) i) as (n' & En & Hn' & D & ND & P);
      [lia | exact Hi | lia |].
    assert (Dn : (Z.quot n i | n)) by (exists i; lia).
    exists n'. split; [exact En |]. split; [lia |].
    split; [apply (Z.divide_trans _ _ _ D Dn) |]. split; [exact ND |].
    intros q Hq' Hqn.
    rewrite Hq, Z.add_0_r in Hqn.
    apply (Z.divide_prime_mul _ _ _ Hq') in Hqn.
    destruct Hqn as [Hqi | Hqq].
    + right. apply Z.divide_prime_prime; assumption.
    + apply P; assumption.
  - exists n. split; [reflexivity |]. split; [lia |].
    split; [apply Z.divide_refl |].
    split; [intros D; apply E; apply Z.rem_divide; [lia | exact D] |].
    intros q _ Hq. left. exact Hq.
Qed.

Lemma StronglySorted_snoc (d : list Z) x :
  StronglySorted Z.lt d -> (forall q, In q d -> q < x) ->
  StronglySorted Z.lt (d ++ [x]).
Proof.
  induction d as [| y d IH]; intros S H; simpl.
  - repeat constructor.
  - inversion S as [| y' d' S' F']; subst. constructor.
    + apply IH; [exact S' |]. intros q Hq. apply H. right. exact Hq.
    + apply Forall_app. split; [exact F' |].
      repeat constructor. apply H. left. reflexivity.
Qed.

Lemma PrimeDivisors_loop_spec n0 fuel : forall n i d,
  n0 <= MAX_MOD -> PrimeDivisors_inv n0 n i d ->
  (Z.to_nat (n0 + 2 - i) + Z.to_nat n0 + 1 < fuel)%nat ->
  exists n' i' d',
    Poly.PrimeDivisors_loop fuel n i d = Val (n', d')
    /\ PrimeDivisors_inv n0 n' i' d' /\ n' < i' * i'.
Proof.
  unfold MAX_MOD.
  induction fuel as [| fuel IH]; intros n i d Hn0 I F; [lia |].
  destruct I as (Hn & Hi & Hsq & Dn & Hno & Hcov & Hd & Hs).
  cbn [Poly.PrimeDivisors_loop].
  assert (Hi15 : i <= 2 ^ 15 + 1) by nia.
  rewrite (wrap32_small (i * i)) by nia.
  destruct (Z.leb_spec (i * i) n) as [Hle | Hgt].
  - rewrite (wrap32_small (i + 1)) by lia.
    assert (Hin : i <= n0) by nia.
    destruct (Z.eqb_spec (Z.rem n i) 0) as [E | E].
    + assert (Di : (i | n)) by (apply Z.rem_divide; [lia | exact E]).
      pose proof (no_small_divisor_prime n i Hi Di Hno) as Pi.
      destruct (strip_factor_spec fuel n i) as (n' & -> & Hn' & D' & ND & P');
        [unfold MAX_MOD; lia | exact Pi | lia |].
      cbn [bind]. apply IH; [lia | | lia].
      unfold PrimeDivisors_inv.
      split; [lia |]. split; [lia |]. split; [left; nia |].
      split; [apply (Z.divide_trans _ _ _ D' Dn) |].
      split; [| split; [| split]].
      * intros q Hq Dq. destruct (Z.eq_dec q i) as [-> | Hne];
          [exact (ND Dq) |].
        apply (Hno q); [lia |]. apply (Z.divide_trans _ _ _ Dq D').
      * intros q Pq Dq. destruct (Hcov q Pq Dq) as [H | H].
        -- destruct (P' q Pq H) as [H' | ->]; [left; exact H' |].
           right. apply in_or_app. right. left. reflexivity.
        -- right. apply in_or_app. left. exact H.
      * intros q Hq. apply in_app_or in Hq. destruct Hq as [Hq | [<- | []]].
        -- destruct (Hd q Hq) as (A1 & A2 & A3).
           split; [exact A1 | split; [exact A2 | lia]].
        -- split; [exact Pi |]. split; [| lia].
           apply (Z.divide_trans _ _ _ Di Dn).
      * apply StronglySorted_snoc; [exact Hs |]. intros q Hq. apply Hd, Hq.
    + apply IH; [lia | | lia].
      unfold PrimeDivisors_inv.
      split; [lia |]. split; [lia |]. split; [left; nia |].
      split; [exact Dn |]. split; [| split; [exact Hcov | split; [| exact Hs]]].
      * intros q Hq Dq. destruct (Z.eq_dec q i) as [-> | Hne].
        -- apply E. apply Z.rem_divide; [lia | exact Dq].
        -- apply (Hno q); [lia | exact Dq].
      * intros q Hq. destruct (Hd q Hq) as (A1 & A2 & A3).
        split; [exact A1 | split; [exact A2 | lia]].
  - exists n, i, d. split; [reflexivity |]. split; [| lia].
    unfold PrimeDivisors_inv.
    split; [exact Hn |]. split; [exact Hi |]. split; [exact Hsq |].
    split; [exact Dn |]. split; [exact Hno |]. split; [exact Hcov |].
    split; [exact Hd | exact Hs].
Qed.

Lemma PrimeDivisors_inv_init n : 1 <= n -> PrimeDivisors_inv n n 2 [].
Proof.
  intros Hn. unfold PrimeDivisors_inv.
  split; [lia |]. split; [lia |]. split; [right; reflexivity |].
  split; [apply Z.divide_refl |]. split; [intros q Hq; lia |].
  split; [intros q _ D; left; exact D |].
  split; [intros q [] | constructor].
Qed.

(** ** Edge cases of DivMod and GCD *)

Lemma DivMod_not_invertible_sem fuel A d :
  (Poly.Degree d =? 0) && (nth 0 (Poly.a d) 0 =? 0) = false ->
  0 <= last (Poly.a d) 0 <= INT_MAX -> 0 < Poly.p A <= MAX_MOD ->
  Z.gcd (last (Poly.a d) 0) (Poly.p A) <> 1 ->
  (Z.to_nat (Poly.p A) < fuel)%nat ->
  Poly.DivMod fuel A d = Throw NotInvertible.
Proof.
  intros Hc Hl Hp Hg F. unfold Poly.DivMod. rewrite Hc.
  destruct (InvMod_spec (last (Poly.a d) 0) (Poly.p A) Hl Hp fuel F) as (_ & H).
  rewrite (H Hg). reflexivity.
Qed.

Lemma GCD_zero_r_sem fuel A B :
  wf A -> Poly.p A <= MAX_MOD -> Poly.is_zero B = true -> (1 <= fuel)%nat ->
  Poly.GCD fuel A B = Val A.
Proof.
  intros HA Hp HB F. destruct fuel as [| fuel]; [lia |].
  unfold Poly.GCD. cbn [Poly.GCD_loop]. rewrite HB. simpl negb. cbv iota.
  cbn [bind]. rewrite Normalize_wf_id by assumption. reflexivity.
Qed.

Lemma GCD_zero_l_sem fuel A B :
  wf A -> wf B -> Poly.p A = Poly.p B -> Z.prime (Poly.p B) ->
  Poly.p B <= MAX_MOD -> Poly.is_zero A = true ->
  (Z.to_nat (Poly.p B) + 2 < fuel)%nat ->
  Poly.GCD fuel A B = Val B.
Proof.
  intros HA HB Hp Hprime Hmax HAz F.
  pose proof (Z.prime_ge_2 _ Hprime) as H2.
  assert (Hmd : 0 < Poly.p B <= MAX_MOD) by lia.
  assert (EA : A = Poly.zero (Poly.p B)).
  { apply is_zero_true in HAz. destruct A as [pa aa]. simpl in *. subst.
    reflexivity. }
  destruct (Poly.is_zero B) eqn:HBz.
  - rewrite (GCD_zero_r_sem fuel A B HA ltac:(lia) HBz ltac:(lia)).
    f_equal. rewrite EA. apply is_zero_true in HBz.
    destruct B as [pb ab]. simpl in *. subst. reflexivity.
  - destruct fuel as [| fuel]; [lia |].
    unfold Poly.GCD. cbn [Poly.GCD_loop]. rewrite HBz. simpl negb. cbv iota.
    destruct (zero_wf (Poly.p B) Hmd) as (Hz & Hzp).
    assert (EM : Poly.mul (Poly.zero (Poly.p B)) B
                 = Val (Poly.zero (Poly.p B))).
    { rewrite (mul_comm (Poly.p B) Hmd _ B Hz HB Hzp eq_refl).
      apply (mul_zero_r (Poly.p B) Hprime Hmax B HB eq_refl). }
    destruct (DivMod_unique_sem (Poly.p B) Hprime Hmax fuel A B
                (Poly.zero (Poly.p B)) (Poly.zero (Poly.p B))
                (Poly.zero (Poly.p B)))
      as (Q & EQ & _); try assumption; try reflexivity.
    + rewrite EA. apply (add_zero_r (Poly.p B) Hmd); assumption.
    + left. reflexivity.
    + lia.
    + rewrite EA. simpl. lia.
    + rewrite EQ. cbn [bind].
      destruct fuel as [| fuel]; [lia |].
      cbn [Poly.GCD_loop]. simpl negb. cbv iota. cbn [bind].
      rewrite Normalize_wf_id by assumption. reflexivity.
Qed.

Lemma PowInt_value fuel x b :
  0 <= b < 2 ^ 62 -> (Z.to_nat b < fuel)%nat ->
  Poly.PowInt fuel x b = Val (wrap64 (x ^ b)).
Proof.
  intros Hb F. unfold Poly.PowInt. change 1 with (wrap64 1) at 1.
  rewrite PowInt_loop_value by assumption. rewrite Z.mul_1_l. reflexivity.
Qed.

Lemma PowInt_exact fuel x b :
  0 <= b < 2 ^ 62 -> (Z.to_nat b < fuel)%nat -> - 2 ^ 63 <= x ^ b < 2 ^ 63 ->
  Poly.PowInt fuel x b = Val (x ^ b).
Proof.
  intros Hb F Hr. rewrite PowInt_value, wrap64_small by assumption.
  reflexivity.
Qed.

Lemma PrimeDivisors_sem n fuel :
  1 <= n <= MAX_MOD -> (2 * Z.to_nat n + 1 < fuel)%nat ->
  exists L,
    Poly.PrimeDivisors fuel n = Val L
    /\ (forall q, In q L <-> Z.prime q /\ (q | n))
    /\ StronglySorted Z.lt L.
Proof.
  intros Hn F. unfold Poly.PrimeDivisors.
  destruct (PrimeDivisors_loop_spec n fuel n 2 [] (proj2 Hn)
              (PrimeDivisors_inv_init n (proj1 Hn)) ltac:(lia))
    as (n' & i' & d' & -> & I & Hex).
  cbn [bind].
  destruct I as (Hn' & Hi & _ & Dn & Hno & Hcov & Hd & Hs).
  destruct (Z.ltb_spec 1 n') as [H1 | H1].
  + pose proof (no_divisor_below_sqrt_prime n' i' H1 ltac:(lia) Hex Hno)
      as Pn.
    assert (Hge : i' <= n').
    { destruct (Z.le_gt_cases i' n') as [H | H]; [exact H | exfalso].
      apply (Hno n'); [lia | apply Z.divide_refl]. }
    eexists. split; [reflexivity |]. split.
    * intros q. split.
      -- intros Hq. apply in_app_or in Hq. destruct Hq as [Hq | [<- | []]].
         ++ destruct (Hd q Hq) as (A1 & A2 & _). split; assumption.
         ++ split; assumption.
      -- intros (Pq & Dq). apply in_or_app.
         destruct (Hcov q Pq Dq) as [H | H]; [right | left; exact H].
         left. symmetry. apply Z.divide_prime_prime; assumption.
    * apply StronglySorted_snoc; [exact Hs |].
      intros q Hq. destruct (Hd q Hq) as (_ & _ & A3). lia.
  + assert (n' = 1) by lia. subst n'.
    exists d'. split; [reflexivity |]. split; [| exact Hs].
    intros q. split.
    * intros Hq. destruct (Hd q Hq) as (A1 & A2 & _). split; assumption.
    * intros (Pq & Dq). destruct (Hcov q Pq Dq) as [H | H]; [| exact H].
      exfalso. pose proof (Z.prime_ge_2 q Pq).
      apply Z.divide_pos_le in H; lia.
Qed.

(** ** Evaluation at a point, and the polynomials with a root *)

Lemma mod_eq_ex a b m : 0 < m -> a mod m = b mod m -> exists t, a = b + m * t.
Proof.
  intros Hm H. exists (a / m - b / m).
  pose proof (Z.div_mod a m ltac:(lia)). pose proof (Z.div_mod b m ltac:(lia)).
  lia.
Qed.

Lemma peval_padd u r : forall v, peval (padd u v) r = peval u r + peval v r.
Proof.
  induction u as [| x u IH]; intros [| y v]; cbn [padd peval]; try lia.
  rewrite IH. ring.
Qed.

Lemma peval_pscale c u r : peval (pscale c u) r = c * peval u r.
Proof.
  induction u as [| x u IH]; [cbn [pscale map peval]; lia |].
  rewrite pscale_cons. cbn [peval]. rewrite IH. ring.
Qed.

Lemma peval_pmul u v r : peval (pmul u v) r = peval u r * peval v r.
Proof.
  induction u as [| x u IH]; [reflexivity |].
  cbn [pmul]. rewrite peval_padd, peval_pscale. cbn [peval]. rewrite IH. ring.
Qed.

Lemma peval_psub u v r : peval (psub u v) r = peval u r - peval v r.
Proof. unfold psub, popp. rewrite peval_padd, peval_pscale. ring. Qed.

Lemma peval_ppow_x k r : peval (ppow [0; 1] k) r = r ^ Z.of_nat k.
Proof.
  induction k as [| k IH].
  { cbn [ppow peval Z.of_nat]. rewrite Z.pow_0_r. ring. }
  cbn [ppow]. rewrite peval_pmul, IH, Nat2Z.inj_succ, Z.pow_succ_r by lia.
  cbn [peval]. ring.
Qed.

Lemma exists_prime_divisor n : 2 <= n -> exists q, Z.prime q /\ (q | n).
Proof.
  intros Hn.
  assert (H : forall k i, (Z.to_nat (n - i) < k)%nat -> 2 <= i <= n ->
                          (forall q, 2 <= q < i -> ~ (q | n)) ->
                          exists q, Z.prime q /\ (q | n)).
  { induction k as [| k IH]; intros i Hk Hi Hno; [lia |].
    destruct (Z.eqb_spec (n mod i) 0) as [E | E].
    - apply Z.mod_divide in E; [| lia].
      exists i. split; [| exact E].
      apply (no_small_divisor_prime n i); [lia | exact E | exact Hno].
    - assert (Hin : i < n).
      { destruct (Z.eq_dec i n) as [-> | Hne]; [| lia].
        rewrite Z.mod_same in E by lia. congruence. }
      apply (IH (i + 1)); [lia | lia |].
      intros q Hq Dq. destruct (Z.eq_dec q i) as [-> | Hqi].
      + apply E. apply Z.mod_divide; [lia | exact Dq].
      + apply (Hno q); [lia | exact Dq]. }
  apply (H (S (Z.to_nat n)) 2); [lia | lia | intros q Hq; lia].
Qed.

Section Evaluation.

Variable md : Z.
Hypothesis Hmd : 0 < md.

#[local] Instance eqp_Equiv_ev : Equivalence (eqp md) := eqp_Equivalence md.
#[local] Instance padd_Prop_ev : Proper (eqp md ==> eqp md ==> eqp md) padd :=
  padd_Proper md Hmd.
#[local] Instance pmul_Prop_ev : Proper (eqp md ==> eqp md ==> eqp md) pmul :=
  pmul_Proper md Hmd.

Lemma horner_mod a a' b b' r :
  a mod md = a' mod md -> b mod md = b' mod md ->
  (a + r * b) mod md = (a' + r * b') mod md.
Proof.
  intros Ha Hb.
  rewrite Z.add_mod, Z.mul_mod, Ha, Hb, <- Z.mul_mod, <- Z.add_mod by lia.
  reflexivity.
Qed.

Lemma peval_eqp_nil r : forall v, eqp md [] v -> peval v r mod md = 0.
Proof.
  induction v as [| y v IH]; intros H; [reflexivity |].
  apply eqp_nil_cons in H. destruct H as (Hy & Hv).
  cbn [peval]. rewrite (horner_mod y 0 (peval v r) 0 r).
  - rewrite Z.mul_0_r. reflexivity.
  - rewrite <- Hy. reflexivity.
  - rewrite (IH Hv). reflexivity.
Qed.

(** Congruent coefficient lists take congruent values. *)
Lemma peval_eqp r : forall u v,
  eqp md u v -> peval u r mod md = peval v r mod md.
Proof.
  induction u as [| x u IH]; intros v H.
  - rewrite (peval_eqp_nil r v H). reflexivity.
  - destruct v as [| y v].
    + apply eqp_sym in H. rewrite (peval_eqp_nil r _ H). reflexivity.
    + apply eqp_cons_inv in H. destruct H as (Hx & Hu).
      cbn [peval]. apply horner_mod; [exact Hx | apply IH; exact Hu].
Qed.

(** Division by [x - r] leaves the value at [r] as remainder. *)
Lemma synthetic_division r : forall u,
  exists q, eqp md u (padd (pmul q [- r; 1]) [peval u r]).
Proof.
  induction u as [| x u (q & IH)].
  - exists []. cbn. apply eqp_nil_zero.
  - exists (peval u r :: q). cbn [pmul peval]. intros i.
    destruct i as [| i].
    + coef_simpl. f_equal. ring.
    + rewrite coef_cons_S, (IH i). coef_simpl. f_equal.
      destruct i as [| i]; coef_simpl; ring.
Qed.

(** The factor theorem: a root [r] makes [x - r] a divisor. *)
Lemma root_pdivides u r :
  peval u r mod md = 0 -> pdivides md [(- r) mod md; 1] u.
Proof.
  intros H. destruct (synthetic_division r u) as (q & E).
  exists q. rewrite E.
  assert (E1 : eqp md [peval u r] [0]).
  { apply eqp_cons; [rewrite H; reflexivity | reflexivity]. }
  assert (E2 : eqp md [- r; 1] [(- r) mod md; 1]).
  { apply eqp_cons; [rewrite Z.mod_mod by lia; reflexivity | reflexivity]. }
  rewrite E1, E2. apply padd_zero_r.
Qed.

End Evaluation.

(** Fermat's little theorem, iterated. *)
Lemma fermat_power md r (m : nat) :
  Z.prime md -> r ^ (md ^ Z.of_nat m) mod md = r mod md.
Proof.
  intros Hprime. pose proof (Z.prime_ge_2 _ Hprime) as H2.
  induction m as [| m IH].
  - change (md ^ Z.of_nat 0) with 1. rewrite Z.pow_1_r. reflexivity.
  - rewrite Nat2Z.inj_succ, Z.pow_succ_r, Z.mul_comm by lia.
    rewrite Z.pow_mul_r by (try apply Z.pow_nonneg; lia).
    rewrite Stdlib.Zmod.ZmodInv.Z.fermat by exact Hprime. exact IH.
Qed.

Section RootTest.

Variable f : Poly.t.
Hypothesis Hf : wf f.
Hypothesis Hprime : Z.prime (Poly.p f).
Hypothesis Hmax : Poly.p f <= MAX_MOD.
Hypothesis Hdeg : 2 <= Poly.Degree f.
Variable r : Z.
Hypothesis Hroot : peval (Poly.a f) r mod Poly.p f = 0.

Let md : Z := Poly.p f.
Let Hpos : 0 < md := wf_pos f Hf.
Let Hlen : (2 <= length (Poly.a f))%nat.
Proof. unfold Poly.Degree in Hdeg. lia. Qed.

(** The linear factor [x - r], as a value of the class. *)
Let C : Poly.t := Poly.mk md [(- r) mod md; 1].

Lemma linear_factor_wf : wf C /\ Poly.p C = md /\ Poly.Degree C = 1.
Proof.
  pose proof (Z.prime_ge_2 _ Hprime) as H2. fold md in H2.
  pose proof (Z.mod_pos_bound (- r) md Hpos) as Hb.
  split; [| split; reflexivity].
  unfold wf, C. cbn [Poly.a Poly.p].
  split; [discriminate |]. split; [| left; cbn; lia].
  repeat constructor; lia.
Qed.

Lemma linear_factor_divides_f : divides C f.
Proof.
  destruct linear_factor_wf as (HC & HCp & _).
  apply (pdivides_divides md Hprime Hmax C f HC Hf HCp eq_refl).
  apply (root_pdivides md Hpos). exact Hroot.
Qed.

(** [x^(p^m) - x] vanishes at every point of GF(p), so every reduced
    representative of it modulo [f] vanishes at the root of [f]. *)
Lemma linear_factor_divides_power X (m : nat) :
  reduced f X ->
  cong md (Poly.a f) (Poly.a X) (ppow [0; 1] (Z.to_nat (md ^ Z.of_nat m))) ->
  divides C (Poly.sub X (Poly.of_vector [0; 1] md)).
Proof.
  intros HX (q & Hq).
  destruct linear_factor_wf as (HC & HCp & _).
  destruct (sub_x_spec f Hf Hprime Hmax Hlen X HX) as (Hh & Hhp & _).
  fold md in Hh, Hhp.
  apply (pdivides_divides md Hprime Hmax C _ HC Hh HCp Hhp).
  apply (root_pdivides md Hpos).
  assert (Hmd : 0 < md <= MAX_MOD) by (split; [exact Hpos | exact Hmax]).
  pose proof (of_vector_x f Hf Hprime Hmax Hlen) as Ex. fold md in Ex.
  assert (Hx : wf (Poly.mk md [0; 1])).
  { rewrite <- Ex. apply Normalize_wf; [exact Hmd | discriminate]. }
  rewrite Ex.
  destruct (sub_sem md Hmd X (Poly.mk md [0; 1]) (proj1 HX) Hx
              (proj1 (proj2 HX)) eq_refl) as (_ & _ & E).
  rewrite (peval_eqp md Hpos r _ _ E). cbn [Poly.a].
  rewrite peval_psub.
  apply (peval_eqp md Hpos r) in Hq.
  rewrite peval_padd, peval_pmul, peval_ppow_x in Hq.
  rewrite Z2Nat.id in Hq by (apply Z.pow_nonneg; lia).
  destruct (mod_eq_ex _ _ md Hpos Hq) as (t1 & E1).
  destruct (mod_eq_ex _ 0 md Hpos Hroot) as (t2 & E2).
  destruct (mod_eq_ex _ _ md Hpos (fermat_power md r m Hprime)) as (t3 & E3).
  apply Z.mod_divide; [lia |].
  exists (t1 + peval q r * t2 + t3).
  rewrite E1, E3. fold md in E2. rewrite E2. cbn [peval]. ring.
Qed.

(** A common divisor of positive degree forces a GCD of positive degree. *)
Lemma root_gcd_degree fuel X (m : nat) :
  reduced f X ->
  cong md (Poly.a f) (Poly.a X) (ppow [0; 1] (Z.to_nat (md ^ Z.of_nat m))) ->
  (Z.to_nat md + 2 * length (Poly.a f) + 1 < fuel)%nat ->
  exists G,
    Poly.GCD fuel f (Poly.sub X (Poly.of_vector [0; 1] md)) = Val G
    /\ 0 < Poly.Degree G.
Proof.
  intros HX HC F.
  destruct linear_factor_wf as (HCw & HCp & HCd).
  destruct (sub_x_spec f Hf Hprime Hmax Hlen X HX) as (Hh & Hhp & Hhl).
  fold md in Hh, Hhp, Hhl.
  destruct (GCD_sem md Hprime Hmax fuel f _ Hf Hh eq_refl Hhp ltac:(lia))
    as (G & EG & HG & HGp & DGf & _ & Huniv).
  exists G. split; [exact EG |].
  destruct (Huniv C HCw HCp linear_factor_divides_f
              (linear_factor_divides_power X m HX HC))
    as (Q & HQ & HQp & EQ).
  rewrite HCp in HQp.
  assert (Hmd : 0 < md <= MAX_MOD) by (split; [exact Hpos | exact Hmax]).
  destruct (Poly.is_zero Q) eqn:Z.
  - exfalso. apply is_zero_true in Z.
    assert (EQ0 : Q = Poly.zero md).
    { destruct Q as [pQ aQ]. cbn in *. subst. reflexivity. }
    subst Q. rewrite (mul_comm md Hmd _ C HQ HCw HQp HCp) in EQ.
    rewrite (mul_zero_r md Hprime Hmax C HCw HCp) in EQ.
    injection EQ as <-.
    destruct DGf as (Q' & HQ' & HQ'p & EQ'). cbn [Poly.p Poly.zero] in HQ'p.
    rewrite (mul_zero_r md Hprime Hmax Q' HQ' HQ'p) in EQ'.
    injection EQ' as E'. rewrite <- E' in Hlen. cbn in Hlen. lia.
  - assert (ZC : Poly.is_zero C = false) by (apply long_not_zero; cbn; lia).
    destruct (mul_degree md Hprime Hmax Q C HQ HCw HQp HCp Z ZC)
      as (M & EM & _ & _ & _ & DM).
    rewrite EM in EQ. injection EQ as <-.
    rewrite DM, HCd.
    assert (0 <= Poly.Degree Q).
    { destruct HQ as (Hne & _). unfold Poly.Degree.
      destruct (Poly.a Q); [congruence | cbn [length]; lia]. }
    lia.
Qed.

(** A polynomial of degree at least 2 with a root in GF(p) fails the test,
    when [p^n] fits [long long]. *)
Lemma IsIrreducible_root_sem fuel :
  Poly.p f ^ Poly.Degree f < 2 ^ 63 ->
  (63 + Z.to_nat (Poly.p f) + 2 * length (Poly.a f) < fuel)%nat ->
  Poly.IsIrreducible fuel f = Val false.
Proof.
  intros Hfit F. fold md in Hfit, F.
  pose proof (Z.prime_ge_2 _ Hprime) as H2. fold md in H2.
  set (n := Poly.Degree f) in *.
  assert (Hn : n = Z.of_nat (length (Poly.a f)) - 1) by reflexivity.
  assert (Hn63 : n < 63).
  { apply (Z.pow_lt_mono_r_iff 2); [lia | lia |].
    eapply Z.le_lt_trans; [| exact Hfit].
    apply Z.pow_le_mono_l. lia. }
  assert (Hpow : forall m, 0 <= m <= n -> 0 < md ^ m < 2 ^ 63).
  { intros m Hm. split; [apply Z.pow_pos_nonneg; lia |].
    eapply Z.le_lt_trans; [| exact Hfit].
    apply Z.pow_le_mono_r; lia. }
  assert (HPI : forall m, 0 <= m <= n ->
                          Poly.PowInt fuel md m = Val (md ^ m)).
  { intros m Hm. apply PowInt_exact; [lia | lia |].
    specialize (Hpow m Hm). lia. }
  unfold Poly.IsIrreducible. fold n. cbv zeta.
  replace (n <=? 0) with false by (symmetry; apply Z.leb_gt; lia).
  fold md. rewrite (HPI n) by lia. cbn [bind].
  destruct (PowX_spec f Hf Hprime Hmax Hlen fuel (md ^ n)
              ltac:(apply Hpow; lia) F) as (X1 & -> & _ & _).
  cbn [bind].
  destruct (negb (Poly.is_zero
                    (Poly.sub X1 (Poly.of_vector [0; 1] md)))); [reflexivity |].
  destruct (PrimeDivisors_sem n fuel ltac:(unfold MAX_MOD; lia) ltac:(lia))
    as (L & -> & HL & _).
  cbn [bind].
  destruct (exists_prime_divisor n ltac:(lia)) as (q0 & Pq0 & Dq0).
  destruct L as [| q rest].
  { exfalso. apply (proj2 (HL q0)). split; assumption. }
  destruct (proj1 (HL q) (or_introl eq_refl)) as (Pq & Dq).
  pose proof (Z.prime_ge_2 _ Pq) as Hq2.
  assert (Hqn : q <= n) by (apply Z.divide_pos_le; [lia | exact Dq]).
  assert (Hm : 0 <= Z.quot n q <= n).
  { split; [apply Z.quot_pos; lia |].
    apply Z.quot_le_upper_bound; nia. }
  cbn [Poly.check_divs].
  rewrite wrap32_small by lia. fold md.
  rewrite (HPI _ Hm). cbn [bind].
  set (m := Z.quot n q) in *.
  destruct (PowX_spec f Hf Hprime Hmax Hlen fuel (md ^ m)
              ltac:(apply Hpow; lia) F) as (X & -> & HX & HC).
  cbn [bind]. fold md in HC.
  rewrite <- (Z2Nat.id m) in HC by lia.
  destruct (root_gcd_degree fuel X (Z.to_nat m) HX HC ltac:(lia))
    as (G & -> & HG).
  cbn [bind].
  replace (0 <? Poly.Degree G) with true by (symmetry; apply Z.ltb_lt; lia).
  reflexivity.
Qed.

End RootTest.

(** * Further properties, stated *)

(** X1: over one modulus, adding and then subtracting the same value (or
    subtracting and then adding it) gives back the value one started from. *)
Theorem add_sub_round_trip A B :
  wf A -> wf B -> Poly.p B = Poly.p A -> Poly.p A <= MAX_MOD ->
  Poly.sub (Poly.add A B) B = A /\ Poly.add (Poly.sub A B) B = A.
Proof.
  intros HA HB Hp Hmax. pose proof (wf_pos A HA).
  apply (add_sub_cancel (Poly.p A)); try assumption; try reflexivity; lia.
Qed.

Lemma add_sub_round_trip_witness :
  wf (Poly.mk 5 [1; 2; 3]) /\ wf (Poly.mk 5 [4; 4])
  /\ Poly.p (Poly.mk 5 [4; 4]) = Poly.p (Poly.mk 5 [1; 2; 3])
  /\ Poly.p (Poly.mk 5 [1; 2; 3]) <= MAX_MOD
  /\ Poly.sub (Poly.add (Poly.mk 5 [1; 2; 3]) (Poly.mk 5 [4; 4]))
       (Poly.mk 5 [4; 4]) = Poly.mk 5 [1; 2; 3]
  /\ Poly.add (Poly.sub (Poly.mk 5 [1; 2; 3]) (Poly.mk 5 [4; 4]))
       (Poly.mk 5 [4; 4]) = Poly.mk 5 [1; 2; 3].
Proof.
  assert (H1 : wf (Poly.mk 5 [1; 2; 3])) by wf_concrete.
  assert (H2 : wf (Poly.mk 5 [4; 4])) by wf_concrete.
  assert (H3 : Poly.p (Poly.mk 5 [1; 2; 3]) <= MAX_MOD)
    by (unfold MAX_MOD; simpl; lia).
  split; [exact H1 |]. split; [exact H2 |]. split; [reflexivity |].
  split; [exact H3 |].
  exact (add_sub_round_trip _ _ H1 H2 eq_refl H3).
Defined.

(** X2: over one modulus, addition is commutative and associative, the
    zero polynomial is its neutral element, and a value minus itself is the
    zero polynomial. *)
Theorem add_commutative_group A B C :
  wf A -> wf B -> wf C ->
  Poly.p B = Poly.p A -> Poly.p C = Poly.p A -> Poly.p A <= MAX_MOD ->
  Poly.add A B = Poly.add B A
  /\ Poly.add (Poly.add A B) C = Poly.add A (Poly.add B C)
  /\ Poly.add A (Poly.zero (Poly.p A)) = A
  /\ Poly.sub A A = Poly.zero (Poly.p A).
Proof.
  intros HA HB HC HBp HCp Hmax. pose proof (wf_pos A HA).
  assert (Hmd : 0 < Poly.p A <= MAX_MOD) by lia.
  split; [apply (add_comm (Poly.p A)); auto |].
  split; [apply (add_assoc (Poly.p A)); auto |].
  split; [apply (add_zero_r (Poly.p A)); auto |].
  apply (sub_diag (Poly.p A)); auto.
Qed.

Lemma add_commutative_group_witness :
  wf (Poly.mk 5 [1; 2; 3]) /\ wf (Poly.mk 5 [4; 4]) /\ wf (Poly.mk 5 [0; 3])
  /\ Poly.p (Poly.mk 5 [1; 2; 3]) <= MAX_MOD
  /\ Poly.add (Poly.mk 5 [1; 2; 3]) (Poly.mk 5 [4; 4])
     = Poly.add (Poly.mk 5 [4; 4]) (Poly.mk 5 [1; 2; 3]).
Proof.
  assert (H1 : wf (Poly.mk 5 [1; 2; 3])) by wf_concrete.
  assert (H2 : wf (Poly.mk 5 [4; 4])) by wf_concrete.
  assert (H3 : wf (Poly.mk 5 [0; 3])) by wf_concrete.
  assert (H4 : Poly.p (Poly.mk 5 [1; 2; 3]) <= MAX_MOD)
    by (unfold MAX_MOD; simpl; lia).
  split; [exact H1 |]. split; [exact H2 |]. split; [exact H3 |].
  split; [exact H4 |].
  exact (proj1 (add_commutative_group _ _ _ H1 H2 H3 eq_refl eq_refl H4)).
Defined.

(** X3: over one modulus, multiplication is commutative and associative
    and the constant 1 is its neutral element; none of these products
    throws. *)
Theorem mul_commutative_monoid A B C :
  wf A -> wf B -> wf C ->
  Poly.p B = Poly.p A -> Poly.p C = Poly.p A -> 2 <= Poly.p A <= MAX_MOD ->
  Poly.mul A B = Poly.mul B A
  /\ (exists AB BC L,
        Poly.mul A B = Val AB /\ Poly.mul B C = Val BC
        /\ Poly.mul AB C = Val L /\ Poly.mul A BC = Val L)
  /\ Poly.mul A (Poly.mk (Poly.p A) [1]) = Val A.
Proof.
  intros HA HB HC HBp HCp Hp.
  assert (Hmd : 0 < Poly.p A <= MAX_MOD) by lia.
  split; [apply (mul_comm (Poly.p A)); auto |].
  split; [apply (mul_assoc (Poly.p A)); auto |].
  apply (mul_one_r (Poly.p A)); auto; lia.
Qed.

Lemma mul_commutative_monoid_witness :
  wf (Poly.mk 5 [1; 2; 3]) /\ wf (Poly.mk 5 [4; 4]) /\ wf (Poly.mk 5 [0; 3])
  /\ 2 <= Poly.p (Poly.mk 5 [1; 2; 3]) <= MAX_MOD
  /\ Poly.mul (Poly.mk 5 [1; 2; 3]) (Poly.mk 5 [4; 4])
     = Poly.mul (Poly.mk 5 [4; 4]) (Poly.mk 5 [1; 2; 3]).
Proof.
  assert (H1 : wf (Poly.mk 5 [1; 2; 3])) by wf_concrete.
  assert (H2 : wf (Poly.mk 5 [4; 4])) by wf_concrete.
  assert (H3 : wf (Poly.mk 5 [0; 3])) by wf_concrete.
  assert (H4 : 2 <= Poly.p (Poly.mk 5 [1; 2; 3]) <= MAX_MOD)
    by (unfold MAX_MOD; simpl; lia).
  split; [exact H1 |]. split; [exact H2 |]. split; [exact H3 |].
  split; [exact H4 |].
  exact (proj1 (mul_commutative_monoid _ _ _ H1 H2 H3 eq_refl eq_refl H4)).
Defined.

(** X4: over one modulus, multiplication distributes over addition:
    [A * (B + C) == A*B + A*C]. *)
Theorem mul_distributes_over_add A B C :
  wf A -> wf B -> wf C ->
  Poly.p B = Poly.p A -> Poly.p C = Poly.p A -> Poly.p A <= MAX_MOD ->
  exists AB AC,
    Poly.mul A B = Val AB /\ Poly.mul A C = Val AC
    /\ Poly.mul A (Poly.add B C) = Val (Poly.add AB AC).
Proof.
  intros HA HB HC HBp HCp Hmax. pose proof (wf_pos A HA).
  apply (mul_add_distr (Poly.p A)); auto; lia.
Qed.

Lemma mul_distributes_over_add_witness :
  wf (Poly.mk 5 [1; 2; 3]) /\ wf (Poly.mk 5 [4; 4]) /\ wf (Poly.mk 5 [0; 3])
  /\ Poly.p (Poly.mk 5 [1; 2; 3]) <= MAX_MOD
  /\ exists AB AC,
       Poly.mul (Poly.mk 5 [1; 2; 3]) (Poly.mk 5 [4; 4]) = Val AB
       /\ Poly.mul (Poly.mk 5 [1; 2; 3]) (Poly.mk 5 [0; 3]) = Val AC
       /\ Poly.mul (Poly.mk 5 [1; 2; 3])
            (Poly.add (Poly.mk 5 [4; 4]) (Poly.mk 5 [0; 3]))
          = Val (Poly.add AB AC).
Proof.
  assert (H1 : wf (Poly.mk 5 [1; 2; 3])) by wf_concrete.
  assert (H2 : wf (Poly.mk 5 [4; 4])) by wf_concrete.
  assert (H3 : wf (Poly.mk 5 [0; 3])) by wf_concrete.
  assert (H4 : Poly.p (Poly.mk 5 [1; 2; 3]) <= MAX_MOD)
    by (unfold MAX_MOD; simpl; lia).
  split; [exact H1 |]. split; [exact H2 |]. split; [exact H3 |].
  split; [exact H4 |].
  exact (mul_distributes_over_add _ _ _ H1 H2 H3 eq_refl eq_refl H4).
Defined.

(** X5: over a prime modulus the product of two non-zero polynomials is
    non-zero and its degree is the sum of the two degrees, and the product
    with the zero polynomial is the zero polynomial. *)
Theorem mul_degree_additive A B :
  wf A -> wf B -> Poly.p B = Poly.p A ->
  Z.prime (Poly.p A) -> Poly.p A <= MAX_MOD ->
  (Poly.is_zero A = false -> Poly.is_zero B = false ->
   exists M,
     Poly.mul A B = Val M /\ wf M /\ Poly.is_zero M = false
     /\ Poly.Degree M = Poly.Degree A + Poly.Degree B)
  /\ Poly.mul A (Poly.zero (Poly.p A)) = Val (Poly.zero (Poly.p A)).
Proof.
  intros HA HB HBp Hprime Hmax. split.
  - intros HAz HBz.
    destruct (mul_degree (Poly.p A) Hprime Hmax A B HA HB eq_refl HBp HAz HBz)
      as (M & E & W & _ & Z & D).
    exists M. auto.
  - apply (mul_zero_r (Poly.p A) Hprime Hmax A HA eq_refl).
Qed.

Lemma mul_degree_additive_witness :
  wf (Poly.mk 3 [1; 2]) /\ wf (Poly.mk 3 [2; 0; 1])
  /\ Z.prime 3 /\ 3 <= MAX_MOD
  /\ Poly.mul (Poly.mk 3 [1; 2]) (Poly.zero 3) = Val (Poly.zero 3).
Proof.
  assert (H1 : wf (Poly.mk 3 [1; 2])) by wf_concrete.
  assert (H2 : wf (Poly.mk 3 [2; 0; 1])) by wf_concrete.
  assert (H3 : 3 <= MAX_MOD) by (unfold MAX_MOD; lia).
  split; [exact H1 |]. split; [exact H2 |]. split; [exact Z.prime_3 |].
  split; [exact H3 |].
  exact (proj2 (mul_degree_additive (Poly.mk 3 [1; 2]) (Poly.mk 3 [2; 0; 1])
                  H1 H2 eq_refl Z.prime_3 H3)).
Defined.

Lemma DivMod_identity_witness :
  wf (Poly.mk 3 [1; 2; 0; 1]) /\ wf (Poly.mk 3 [2; 1])
  /\ Z.prime 3 /\ 3 <= MAX_MOD
  /\ Poly.is_zero (Poly.mk 3 [2; 1]) = false
  /\ (Z.to_nat 3 < 10)%nat /\ (4 < 10)%nat
  /\ exists Q R M,
       Poly.DivMod 10 (Poly.mk 3 [1; 2; 0; 1]) (Poly.mk 3 [2; 1]) = Val (Q, R)
       /\ Poly.mul Q (Poly.mk 3 [2; 1]) = Val M
       /\ Poly.add M R = Poly.mk 3 [1; 2; 0; 1]
       /\ wf R
       /\ (Poly.is_zero R = true
           \/ Poly.Degree R < Poly.Degree (Poly.mk 3 [2; 1]))
       /\ ((2 <= 4)%nat -> wf Q)
       /\ ((4 < 2)%nat -> Poly.a Q = []).
Proof.
  assert (H1 : wf (Poly.mk 3 [1; 2; 0; 1])) by wf_concrete.
  assert (H2 : wf (Poly.mk 3 [2; 1])) by wf_concrete.
  assert (H3 : 3 <= MAX_MOD) by (unfold MAX_MOD; lia).
  assert (H4 : (Z.to_nat 3 < 10)%nat) by (simpl; lia).
  assert (H5 : (4 < 10)%nat) by lia.
  split; [exact H1 |]. split; [exact H2 |]. split; [exact Z.prime_3 |].
  split; [exact H3 |]. split; [reflexivity |]. split; [exact H4 |].
  split; [exact H5 |].
  exact (DivMod_identity 10 (Poly.mk 3 [1; 2; 0; 1]) (Poly.mk 3 [2; 1])
           H1 H2 eq_refl Z.prime_3 H3 eq_refl H4 H5).
Defined.

(** X7: quotient and remainder are unique among well-formed values over a
    prime modulus [p <= 2^30].  If [Q' * d + R' == A] with [R'] zero or of
    smaller degree than the non-zero divisor [d], then [DivMod(A, d)]
    returns the remainder [R'], and the quotient [Q'] when the dividend is
    not of smaller degree than the divisor. *)
Theorem DivMod_unique fuel A d Q' R' M' :
  wf A -> wf d -> wf Q' -> wf R' ->
  Poly.p d = Poly.p A -> Poly.p Q' = Poly.p A -> Poly.p R' = Poly.p A ->
  Z.prime (Poly.p A) -> Poly.p A <= MAX_MOD -> Poly.is_zero d = false ->
  Poly.mul Q' d = Val M' -> Poly.add M' R' = A ->
  (Poly.is_zero R' = true \/ Poly.Degree R' < Poly.Degree d) ->
  (Z.to_nat (Poly.p A) < fuel)%nat -> (length (Poly.a A) < fuel)%nat ->
  exists Q,
    Poly.DivMod fuel A d = Val (Q, R')
    /\ (Poly.Degree d <= Poly.Degree A -> Q = Q').
Proof.
  intros HA Hd HQ HR Hdp HQp HRp Hprime Hmax Hdz EM EA Hs F1 F2.
  apply (DivMod_unique_sem (Poly.p A) Hprime Hmax fuel A d Q' R' M');
    auto.
Qed.

Lemma DivMod_unique_witness :
  wf (Poly.mk 3 [1; 0; 0; 1]) /\ wf (Poly.mk 3 [2; 1])
  /\ wf (Poly.mk 3 [1; 1; 1]) /\ wf (Poly.mk 3 [2])
  /\ Z.prime 3 /\ 3 <= MAX_MOD
  /\ Poly.mul (Poly.mk 3 [1; 1; 1]) (Poly.mk 3 [2; 1])
     = Val (Poly.mk 3 [2; 0; 0; 1])
  /\ Poly.add (Poly.mk 3 [2; 0; 0; 1]) (Poly.mk 3 [2])
     = Poly.mk 3 [1; 0; 0; 1]
  /\ exists Q,
       Poly.DivMod 10 (Poly.mk 3 [1; 0; 0; 1]) (Poly.mk 3 [2; 1])
       = Val (Q, Poly.mk 3 [2])
       /\ (Poly.Degree (Poly.mk 3 [2; 1])
           <= Poly.Degree (Poly.mk 3 [1; 0; 0; 1]) ->
           Q = Poly.mk 3 [1; 1; 1]).
Proof.
  assert (H1 : wf (Poly.mk 3 [1; 0; 0; 1])) by wf_concrete.
  assert (H2 : wf (Poly.mk 3 [2; 1])) by wf_concrete.
  assert (H3 : wf (Poly.mk 3 [1; 1; 1])) by wf_concrete.
  assert (H4 : wf (Poly.mk 3 [2])) by wf_concrete.
  assert (H5 : 3 <= MAX_MOD) by (unfold MAX_MOD; lia).
  assert (H6 : Poly.mul (Poly.mk 3 [1; 1; 1]) (Poly.mk 3 [2; 1])
               = Val (Poly.mk 3 [2; 0; 0; 1])) by (vm_compute; reflexivity).
  assert (H7 : Poly.add (Poly.mk 3 [2; 0; 0; 1]) (Poly.mk 3 [2])
               = Poly.mk 3 [1; 0; 0; 1]) by (vm_compute; reflexivity).
  assert (H8 : (Z.to_nat 3 < 10)%nat) by (simpl; lia).
  assert (H9 : (4 < 10)%nat) by lia.
  split; [exact H1 |]. split; [exact H2 |]. split; [exact H3 |].
  split; [exact H4 |]. split; [exact Z.prime_3 |]. split; [exact H5 |].
  split; [exact H6 |]. split; [exact H7 |].
  exact (DivMod_unique 10 (Poly.mk 3 [1; 0; 0; 1]) (Poly.mk 3 [2; 1])
           (Poly.mk 3 [1; 1; 1]) (Poly.mk 3 [2]) (Poly.mk 3 [2; 0; 0; 1])
           H1 H2 H3 H4 eq_refl eq_refl eq_refl Z.prime_3 H5 eq_refl H6 H7
           (or_intror eq_refl) H8 H9).
Defined.

(** X8: multiplying and then dividing is a round trip.  For non-zero [M]
    and [d] over a prime modulus, [DivMod(M * d, d)] returns [M] and the
    zero remainder. *)
Theorem DivMod_exact_division fuel M d A :
  wf M -> wf d -> Poly.p d = Poly.p M ->
  Z.prime (Poly.p M) -> Poly.p M <= MAX_MOD ->
  Poly.is_zero M = false -> Poly.is_zero d = false ->
  Poly.mul M d = Val A ->
  (Z.to_nat (Poly.p M) < fuel)%nat -> (length (Poly.a A) < fuel)%nat ->
  Poly.DivMod fuel A d = Val (M, Poly.zero (Poly.p M)).
Proof.
  intros HM Hd Hdp Hprime Hmax HMz Hdz E F1 F2.
  apply (DivMod_exact_sem (Poly.p M) Hprime Hmax fuel M d A); auto.
Qed.

Lemma DivMod_exact_division_witness :
  wf (Poly.mk 3 [1; 1; 1]) /\ wf (Poly.mk 3 [2; 1])
  /\ Z.prime 3 /\ 3 <= MAX_MOD
  /\ Poly.mul (Poly.mk 3 [1; 1; 1]) (Poly.mk 3 [2; 1])
     = Val (Poly.mk 3 [2; 0; 0; 1])
  /\ Poly.DivMod 10 (Poly.mk 3 [2; 0; 0; 1]) (Poly.mk 3 [2; 1])
     = Val (Poly.mk 3 [1; 1; 1], Poly.zero 3).
Proof.
  assert (H2 : wf (Poly.mk 3 [2; 1])) by wf_concrete.
  assert (H3 : wf (Poly.mk 3 [1; 1; 1])) by wf_concrete.
  assert (H5 : 3 <= MAX_MOD) by (unfold MAX_MOD; lia).
  assert (H6 : Poly.mul (Poly.mk 3 [1; 1; 1]) (Poly.mk 3 [2; 1])
               = Val (Poly.mk 3 [2; 0; 0; 1])) by (vm_compute; reflexivity).
  assert (H8 : (Z.to_nat 3 < 10)%nat) by (simpl; lia).
  assert (H9 : (4 < 10)%nat) by lia.
  split; [exact H3 |]. split; [exact H2 |]. split; [exact Z.prime_3 |].
  split; [exact H5 |]. split; [exact H6 |].
  exact (DivMod_exact_division 10 (Poly.mk 3 [1; 1; 1]) (Poly.mk 3 [2; 1])
           (Poly.mk 3 [2; 0; 0; 1]) H3 H2 eq_refl Z.prime_3 H5 eq_refl
           eq_refl H6 H8 H9).
Defined.

(** X9: for well-formed operands over a prime modulus [p <= 2^30], when
    the dividend has smaller degree than the divisor, [DivMod]
    returns the dividend itself as remainder and a quotient whose
    coefficient vector is empty; the class's own zero test does not
    recognise that quotient, its degree is -1, and multiplying it by itself
    throws [std::length_error]. *)
Theorem DivMod_short_dividend fuel A d :
  wf A -> wf d -> Poly.p d = Poly.p A ->
  Z.prime (Poly.p A) -> Poly.p A <= MAX_MOD ->
  Poly.Degree A < Poly.Degree d ->
  (Z.to_nat (Poly.p A) < fuel)%nat -> (length (Poly.a A) < fuel)%nat ->
  exists Q,
    Poly.DivMod fuel A d = Val (Q, A)
    /\ Poly.a Q = [] /\ Poly.is_zero Q = false /\ Poly.Degree Q = -1
    /\ Poly.mul Q Q = Throw length_error.
Proof.
  intros HA Hd Hdp Hprime Hmax Hdeg F1 F2.
  exists (Poly.mk (Poly.p A) []).
  split; [| repeat split].
  apply (DivMod_short_sem (Poly.p A) Hprime Hmax fuel A d); auto.
Qed.

Lemma DivMod_short_dividend_witness :
  wf (Poly.mk 3 [2; 1]) /\ wf (Poly.mk 3 [1; 1; 1])
  /\ Z.prime 3 /\ 3 <= MAX_MOD
  /\ Poly.Degree (Poly.mk 3 [2; 1]) < Poly.Degree (Poly.mk 3 [1; 1; 1])
  /\ exists Q,
       Poly.DivMod 10 (Poly.mk 3 [2; 1]) (Poly.mk 3 [1; 1; 1])
       = Val (Q, Poly.mk 3 [2; 1])
       /\ Poly.a Q = [] /\ Poly.is_zero Q = false /\ Poly.Degree Q = -1
       /\ Poly.mul Q Q = Throw length_error.
Proof.
  assert (H2 : wf (Poly.mk 3 [2; 1])) by wf_concrete.
  assert (H3 : wf (Poly.mk 3 [1; 1; 1])) by wf_concrete.
  assert (H5 : 3 <= MAX_MOD) by (unfold MAX_MOD; lia).
  assert (H6 : Poly.Degree (Poly.mk 3 [2; 1])
               < Poly.Degree (Poly.mk 3 [1; 1; 1])) by reflexivity.
  assert (H8 : (Z.to_nat 3 < 10)%nat) by (simpl; lia).
  assert (H9 : (2 < 10)%nat) by lia.
  split; [exact H2 |]. split; [exact H3 |]. split; [exact Z.prime_3 |].
  split; [exact H5 |]. split; [exact H6 |].
  exact (DivMod_short_dividend 10 (Poly.mk 3 [2; 1]) (Poly.mk 3 [1; 1; 1])
           H2 H3 eq_refl Z.prime_3 H5 H6 H8 H9).
Defined.

(** X10: when the leading coefficient of a divisor with a non-empty,
    non-zero coefficient vector lies in [[0, INT_MAX]] and is not a unit
    modulo [p], [0 < p <= 2^30] (which needs a composite modulus or an
    unnormalised divisor), [DivMod] throws the not-invertible error of
    [InvMod]; it does so before the loop is entered, whatever the
    dividend. *)
Theorem DivMod_not_invertible fuel A d :
  Poly.a d <> [] ->
  (Poly.Degree d =? 0) && (nth 0 (Poly.a d) 0 =? 0) = false ->
  0 <= last (Poly.a d) 0 <= INT_MAX -> 0 < Poly.p A <= MAX_MOD ->
  Z.gcd (last (Poly.a d) 0) (Poly.p A) <> 1 ->
  (Z.to_nat (Poly.p A) < fuel)%nat ->
  Poly.DivMod fuel A d = Throw NotInvertible.
Proof. intros _. apply DivMod_not_invertible_sem. Qed.

Lemma DivMod_not_invertible_witness :
  [1; 2] <> [] /\ 0 <= 2 <= INT_MAX /\ 0 < 4 <= MAX_MOD /\ Z.gcd 2 4 <> 1
  /\ (Z.to_nat 4 < 10)%nat
  /\ Poly.DivMod 10 (Poly.mk 4 [1; 2; 3]) (Poly.mk 4 [1; 2])
     = Throw NotInvertible.
Proof.
  assert (H0 : [1; 2] <> []) by discriminate.
  assert (H1 : 0 <= 2 <= INT_MAX) by (unfold INT_MAX; lia).
  assert (H2 : 0 < 4 <= MAX_MOD) by (unfold MAX_MOD; lia).
  assert (H3 : Z.gcd 2 4 <> 1) by (vm_compute; discriminate).
  assert (H4 : (Z.to_nat 4 < 10)%nat) by (simpl; lia).
  split; [exact H0 |]. split; [exact H1 |]. split; [exact H2 |].
  split; [exact H3 |]. split; [exact H4 |].
  exact (DivMod_not_invertible 10 (Poly.mk 4 [1; 2; 3]) (Poly.mk 4 [1; 2])
           H0 eq_refl H1 H2 H3 H4).
Defined.

(** X11: over a prime modulus, [GCD(A, B)] is a well-formed common divisor
    of [A] and [B], and every common divisor of [A] and [B] divides it. *)
Theorem GCD_greatest_common_divisor fuel A B :
  wf A -> wf B -> Poly.p B = Poly.p A ->
  Z.prime (Poly.p A) -> Poly.p A <= MAX_MOD ->
  (Z.to_nat (Poly.p A)
   + 2 * Nat.max (length (Poly.a A)) (length (Poly.a B)) + 1 < fuel)%nat ->
  exists G,
    Poly.GCD fuel A B = Val G /\ wf G /\ Poly.p G = Poly.p A
    /\ divides G A /\ divides G B
    /\ (forall C, wf C -> Poly.p C = Poly.p A ->
                  divides C A -> divides C B -> divides C G).
Proof.
  intros HA HB HBp Hprime Hmax F.
  apply (GCD_sem (Poly.p A) Hprime Hmax fuel A B); auto.
Qed.

Lemma GCD_greatest_common_divisor_witness :
  wf (Poly.mk 3 [2; 0; 0; 1]) /\ wf (Poly.mk 3 [2; 0; 1])
  /\ Z.prime 3 /\ 3 <= MAX_MOD
  /\ (Z.to_nat 3 + 2 * Nat.max 4 3 + 1 < 20)%nat
  /\ exists G,
       Poly.GCD 20 (Poly.mk 3 [2; 0; 0; 1]) (Poly.mk 3 [2; 0; 1]) = Val G
       /\ wf G /\ Poly.p G = 3
       /\ divides G (Poly.mk 3 [2; 0; 0; 1])
       /\ divides G (Poly.mk 3 [2; 0; 1])
       /\ (forall C, wf C -> Poly.p C = 3 ->
                     divides C (Poly.mk 3 [2; 0; 0; 1]) ->
                     divides C (Poly.mk 3 [2; 0; 1]) -> divides C G).
Proof.
  assert (H1 : wf (Poly.mk 3 [2; 0; 0; 1])) by wf_concrete.
  assert (H2 : wf (Poly.mk 3 [2; 0; 1])) by wf_concrete.
  assert (H3 : 3 <= MAX_MOD) by (unfold MAX_MOD; lia).
  assert (H4 : (Z.to_nat 3 + 2 * Nat.max 4 3 + 1 < 20)%nat) by (simpl; lia).
  split; [exact H1 |]. split; [exact H2 |]. split; [exact Z.prime_3 |].
  split; [exact H3 |]. split; [exact H4 |].
  exact (GCD_greatest_common_divisor 20 (Poly.mk 3 [2; 0; 0; 1])
           (Poly.mk 3 [2; 0; 1]) H1 H2 eq_refl Z.prime_3 H3 H4).
Defined.

(** X12: [GCD(A, 0)] is [A] and [GCD(0, B)] is [B], for well-formed
    operands over a prime modulus. *)
Theorem GCD_zero_operands fuel A B :
  wf A -> wf B -> Poly.p A = Poly.p B ->
  Z.prime (Poly.p B) -> Poly.p B <= MAX_MOD ->
  (Z.to_nat (Poly.p B) + 2 < fuel)%nat ->
  (Poly.is_zero B = true -> Poly.GCD fuel A B = Val A)
  /\ (Poly.is_zero A = true -> Poly.GCD fuel A B = Val B).
Proof.
  intros HA HB Hp Hprime Hmax F. split; intros Hz.
  - apply GCD_zero_r_sem; [exact HA | lia | exact Hz | lia].
  - apply GCD_zero_l_sem; assumption.
Qed.

Lemma GCD_zero_operands_witness :
  wf (Poly.zero 3) /\ wf (Poly.mk 3 [2; 0; 1])
  /\ Z.prime 3 /\ 3 <= MAX_MOD /\ (Z.to_nat 3 + 2 < 10)%nat
  /\ (Poly.is_zero (Poly.zero 3) = true ->
      Poly.GCD 10 (Poly.zero 3) (Poly.mk 3 [2; 0; 1])
      = Val (Poly.mk 3 [2; 0; 1])).
Proof.
  assert (H1 : wf (Poly.zero 3)) by wf_concrete.
  assert (H2 : wf (Poly.mk 3 [2; 0; 1])) by wf_concrete.
  assert (H3 : 3 <= MAX_MOD) by (unfold MAX_MOD; lia).
  assert (H4 : (Z.to_nat 3 + 2 < 10)%nat) by (simpl; lia).
  split; [exact H1 |]. split; [exact H2 |]. split; [exact Z.prime_3 |].
  split; [exact H3 |]. split; [exact H4 |].
  exact (proj2 (GCD_zero_operands 10 (Poly.zero 3) (Poly.mk 3 [2; 0; 1])
                  H1 H2 eq_refl Z.prime_3 H3 H4)).
Defined.

(** X13: for a modulus polynomial [f] of degree at least 1 over a prime
    modulus, [PowX(k, f)] is the canonical representative of [x^k] modulo
    [f]: a well-formed value with fewer coefficients than [f] that differs
    from [x^k] by a multiple of [f].  The fuel needed does not depend on
    [k]. *)
Theorem PowX_canonical_power f k fuel :
  wf f -> Z.prime (Poly.p f) -> Poly.p f <= MAX_MOD -> 1 <= Poly.Degree f ->
  0 <= k < 2 ^ 63 ->
  (63 + Z.to_nat (Poly.p f) + 2 * length (Poly.a f) < fuel)%nat ->
  exists X,
    Poly.PowX fuel k f = Val X
    /\ wf X /\ Poly.p X = Poly.p f /\ Poly.Degree X < Poly.Degree f
    /\ cong (Poly.p f) (Poly.a f) (ppow [0; 1] (Z.to_nat k)) (Poly.a X).
Proof.
  intros Hf Hprime Hmax Hdeg Hk F.
  destruct (PowX_spec f Hf Hprime Hmax
              ltac:(unfold Poly.Degree in Hdeg; lia) fuel k ltac:(lia) F)
    as (X & E & (W & P & L) & C).
  exists X. split; [exact E |]. split; [exact W |]. split; [exact P |].
  split; [unfold Poly.Degree; lia |].
  apply cong_sym; [apply wf_pos, Hf | exact C].
Qed.

Lemma PowX_canonical_power_witness :
  wf (Poly.mk 2 [1; 1; 1]) /\ Z.prime 2 /\ 2 <= MAX_MOD
  /\ 1 <= Poly.Degree (Poly.mk 2 [1; 1; 1]) /\ 0 <= 5 < 2 ^ 63
  /\ (63 + Z.to_nat 2 + 2 * 3 < 100)%nat
  /\ exists X,
       Poly.PowX 100 5 (Poly.mk 2 [1; 1; 1]) = Val X
       /\ wf X /\ Poly.p X = 2
       /\ Poly.Degree X < Poly.Degree (Poly.mk 2 [1; 1; 1])
       /\ cong 2 [1; 1; 1] (ppow [0; 1] (Z.to_nat 5)) (Poly.a X).
Proof.
  assert (H1 : wf (Poly.mk 2 [1; 1; 1])) by wf_concrete.
  assert (H2 : 2 <= MAX_MOD) by (unfold MAX_MOD; lia).
  assert (H3 : 1 <= Poly.Degree (Poly.mk 2 [1; 1; 1]))
    by (unfold Poly.Degree; simpl; lia).
  assert (H4 : 0 <= 5 < 2 ^ 63) by lia.
  assert (H5 : (63 + Z.to_nat 2 + 2 * 3 < 100)%nat) by (simpl; lia).
  split; [exact H1 |]. split; [exact Z.prime_2 |]. split; [exact H2 |].
  split; [exact H3 |]. split; [exact H4 |]. split; [exact H5 |].
  exact (PowX_canonical_power (Poly.mk 2 [1; 1; 1]) 5 100
           H1 Z.prime_2 H2 H3 H4 H5).
Defined.

(** X14: for an exponent [k <= 0] the loop of [PowX] is not entered and
    the result is [Poly({1}, p)], whatever the modulus polynomial over a
    modulus [p <> 0]; and for a well-formed modulus polynomial of degree at
    least 2 over a prime modulus [p <= 2^30], [PowX(1, f)] is [x]. *)
Theorem PowX_small_exponents f k fuel :
  Poly.p f <> 0 -> (1 <= fuel)%nat ->
  (k <= 0 -> Poly.PowX fuel k f = Val (Poly.of_vector [1] (Poly.p f)))
  /\ (wf f -> Z.prime (Poly.p f) -> Poly.p f <= MAX_MOD ->
      2 <= Poly.Degree f ->
      (63 + Z.to_nat (Poly.p f) + 2 * length (Poly.a f) < fuel)%nat ->
      Poly.PowX fuel 1 f = Val (Poly.mk (Poly.p f) [0; 1])).
Proof.
  intros _ F. split.
  - intros Hk. destruct fuel as [| fuel]; [lia |].
    unfold Poly.PowX. cbn [Poly.PowX_loop].
    replace (0 <? k) with false by (symmetry; apply Z.ltb_ge; exact Hk).
    reflexivity.
  - intros Hf Hprime Hmax Hdeg F'.
    assert (Hlen : (3 <= length (Poly.a f))%nat)
      by (unfold Poly.Degree in Hdeg; lia).
    pose proof (wf_pos f Hf) as Hpos.
    pose proof (Z.prime_ge_2 _ Hprime) as H2.
    destruct (PowX_spec f Hf Hprime Hmax ltac:(lia) fuel 1 ltac:(lia) F')
      as (X & E & HX & C).
    rewrite E. f_equal.
    apply (reduced_unique f Hf Hprime ltac:(lia) X _ HX).
    + split; [wf_concrete |]. split; [reflexivity | simpl; lia].
    + apply (cong_trans _ Hpos _ _ _ _ C). apply eqp_cong.
      simpl Poly.a. change (Z.to_nat 1) with 1%nat. simpl ppow.
      apply (pmul_1_r (Poly.p f) Hpos [0; 1]).
Qed.

Lemma PowX_small_exponents_witness :
  Poly.p (Poly.mk 2 [1; 1; 1]) <> 0 /\ (1 <= 100)%nat
  /\ (-3 <= 0 ->
      Poly.PowX 100 (-3) (Poly.mk 2 [1; 1; 1]) = Val (Poly.of_vector [1] 2)).
Proof.
  assert (H0 : Poly.p (Poly.mk 2 [1; 1; 1]) <> 0) by discriminate.
  assert (H1 : (1 <= 100)%nat) by lia.
  split; [exact H0 |]. split; [exact H1 |].
  exact (proj1 (PowX_small_exponents (Poly.mk 2 [1; 1; 1]) (-3) 100 H0 H1)).
Defined.

(** X15: for an exponent [0 <= b < 2^62], [PowInt(a, b)] is [a^b] wrapped
    into the signed 64-bit range, hence exactly [a^b] when that fits
    [long long]. *)
Theorem PowInt_wraps_power a b fuel :
  0 <= b < 2 ^ 62 -> (Z.to_nat b < fuel)%nat ->
  Poly.PowInt fuel a b = Val (wrap64 (a ^ b))
  /\ (- 2 ^ 63 <= a ^ b < 2 ^ 63 -> Poly.PowInt fuel a b = Val (a ^ b)).
Proof.
  intros Hb F. split.
  - apply PowInt_value; assumption.
  - intros Hr. apply PowInt_exact; assumption.
Qed.

Lemma PowInt_wraps_power_witness :
  0 <= 4 < 2 ^ 62 /\ (Z.to_nat 4 < 10)%nat
  /\ Poly.PowInt 10 3 4 = Val (wrap64 (3 ^ 4))
  /\ (- 2 ^ 63 <= 3 ^ 4 < 2 ^ 63 -> Poly.PowInt 10 3 4 = Val (3 ^ 4)).
Proof.
  assert (H1 : 0 <= 4 < 2 ^ 62) by lia.
  assert (H2 : (Z.to_nat 4 < 10)%nat) by (simpl; lia).
  split; [exact H1 |]. split; [exact H2 |].
  exact (PowInt_wraps_power 3 4 10 H1 H2).
Defined.

(** X16: for [1 <= n <= 2^30], [PrimeDivisors(n)] returns exactly the
    primes that divide [n], each once, in increasing order; for [n <= 1]
    it returns the empty list. *)
Theorem PrimeDivisors_correct n fuel :
  (n <= 1 -> (1 <= fuel)%nat -> Poly.PrimeDivisors fuel n = Val [])
  /\ (1 <= n <= MAX_MOD -> (2 * Z.to_nat n + 1 < fuel)%nat ->
      exists L,
        Poly.PrimeDivisors fuel n = Val L
        /\ (forall q, In q L <-> Z.prime q /\ (q | n))
        /\ StronglySorted Z.lt L).
Proof.
  split.
  - intros Hn F. destruct fuel as [| fuel]; [lia |].
    unfold Poly.PrimeDivisors. cbn [Poly.PrimeDivisors_loop].
    change (wrap32 (2 * 2)) with 4.
    replace (4 <=? n) with false by (symmetry; apply Z.leb_gt; lia).
    cbn [bind].
    replace (1 <? n) with false by (symmetry; apply Z.ltb_ge; lia).
    reflexivity.
  - apply PrimeDivisors_sem.
Qed.

Lemma PrimeDivisors_correct_witness :
  1 <= 12 <= MAX_MOD /\ (2 * Z.to_nat 12 + 1 < 30)%nat
  /\ exists L,
       Poly.PrimeDivisors 30 12 = Val L
       /\ (forall q, In q L <-> Z.prime q /\ (q | 12))
       /\ StronglySorted Z.lt L.
Proof.
  assert (H1 : 1 <= 12 <= MAX_MOD) by (unfold MAX_MOD; lia).
  assert (H2 : (2 * Z.to_nat 12 + 1 < 30)%nat) by (simpl; lia).
  split; [exact H1 |]. split; [exact H2 |].
  exact (proj2 (PrimeDivisors_correct 12 30) H1 H2).
Defined.

(** X17: the constructor from a non-empty raw sequence establishes the
    three invariants: the value is well-formed, its coefficient of [x^i] is
    the raw coefficient reduced into [[0, p-1]], and it has at most as many
    coefficients as the raw sequence. *)
Theorem of_vector_establishes_invariants v md :
  v <> [] -> 0 < md <= MAX_MOD ->
  wf (Poly.of_vector v md)
  /\ Poly.p (Poly.of_vector v md) = md
  /\ (forall i, nth i (Poly.a (Poly.of_vector v md)) 0 = nth i v 0 mod md)
  /\ (length (Poly.a (Poly.of_vector v md)) <= length v)%nat.
Proof.
  intros Hv Hmd. unfold Poly.of_vector.
  split; [apply Normalize_wf; assumption |].
  split; [reflexivity |].
  split; [intros i; apply Normalize_nth; exact Hmd |].
  apply Normalize_length_le. exact Hmd.
Qed.

Lemma of_vector_establishes_invariants_witness :
  [7; -3; 10; 0] <> [] /\ 0 < 5 <= MAX_MOD
  /\ wf (Poly.of_vector [7; -3; 10; 0] 5)
  /\ Poly.p (Poly.of_vector [7; -3; 10; 0] 5) = 5
  /\ (forall i, nth i (Poly.a (Poly.of_vector [7; -3; 10; 0] 5)) 0
                = nth i [7; -3; 10; 0] 0 mod 5)
  /\ (length (Poly.a (Poly.of_vector [7; -3; 10; 0]%Z 5%Z)) <= 4)%nat.
Proof.
  assert (H1 : [7; -3; 10; 0] <> []) by discriminate.
  assert (H2 : 0 < 5 <= MAX_MOD) by (unfold MAX_MOD; lia).
  split; [exact H1 |]. split; [exact H2 |].
  exact (of_vector_establishes_invariants [7; -3; 10; 0] 5 H1 H2).
Defined.

Lemma operations_preserve_invariants_witness :
  wf (Poly.mk 5 [1; 2; 3]) /\ wf (Poly.mk 5 [4; 4])
  /\ Poly.p (Poly.mk 5 [1; 2; 3]) <= MAX_MOD
  /\ wf (Poly.add (Poly.mk 5 [1; 2; 3]) (Poly.mk 5 [4; 4]))
  /\ wf (Poly.sub (Poly.mk 5 [1; 2; 3]) (Poly.mk 5 [4; 4]))
  /\ exists M,
       Poly.mul (Poly.mk 5 [1; 2; 3]) (Poly.mk 5 [4; 4]) = Val M /\ wf M.
Proof.
  assert (H1 : wf (Poly.mk 5 [1; 2; 3])) by wf_concrete.
  assert (H2 : wf (Poly.mk 5 [4; 4])) by wf_concrete.
  assert (H3 : Poly.p (Poly.mk 5 [1; 2; 3]) <= MAX_MOD)
    by (unfold MAX_MOD; simpl; lia).
  split; [exact H1 |]. split; [exact H2 |]. split; [exact H3 |].
  exact (operations_preserve_invariants _ _ H1 H2 eq_refl H3).
Defined.

(** X19: a polynomial of degree [n >= 2] over a prime modulus [p] that has
    a root in GF(p) is reported as not irreducible, whenever [p^n] fits
    [long long]: the linear factor of the root divides [x^(p^m) - x] for
    every [m], so the first GCD of the loop over the prime divisors of [n]
    has positive degree (unless the first test has already failed). *)
Theorem IsIrreducible_rejects_root f r fuel :
  wf f -> Z.prime (Poly.p f) -> Poly.p f <= MAX_MOD ->
  2 <= Poly.Degree f ->
  peval (Poly.a f) r mod Poly.p f = 0 ->
  Poly.p f ^ Poly.Degree f < 2 ^ 63 ->
  (63 + Z.to_nat (Poly.p f) + 2 * length (Poly.a f) < fuel)%nat ->
  Poly.IsIrreducible fuel f = Val false.
Proof.
  intros Hf Hprime Hmax Hdeg Hroot Hfit F.
  exact (IsIrreducible_root_sem f Hf Hprime Hmax Hdeg r Hroot fuel Hfit F).
Qed.

Lemma IsIrreducible_rejects_root_witness :
  wf (Poly.mk 3 [2; 0; 0; 1]) /\ Z.prime 3 /\ 3 <= MAX_MOD
  /\ 2 <= Poly.Degree (Poly.mk 3 [2; 0; 0; 1])
  /\ peval [2; 0; 0; 1] 1 mod 3 = 0
  /\ 3 ^ Poly.Degree (Poly.mk 3 [2; 0; 0; 1]) < 2 ^ 63
  /\ (63 + Z.to_nat 3 + 2 * 4 < 100)%nat
  /\ Poly.IsIrreducible 100 (Poly.mk 3 [2; 0; 0; 1]) = Val false.
Proof.
  assert (H1 : wf (Poly.mk 3 [2; 0; 0; 1])) by wf_concrete.
  assert (H2 : 3 <= MAX_MOD) by (unfold MAX_MOD; lia).
  assert (H3 : 2 <= Poly.Degree (Poly.mk 3 [2; 0; 0; 1]))
    by (unfold Poly.Degree; simpl; lia).
  assert (H4 : peval [2; 0; 0; 1] 1 mod 3 = 0) by reflexivity.
  assert (H5 : 3 ^ Poly.Degree (Poly.mk 3 [2; 0; 0; 1]) < 2 ^ 63)
    by (unfold Poly.Degree; simpl; lia).
  assert (H6 : (63 + Z.to_nat 3 + 2 * 4 < 100)%nat) by (simpl; lia).
  split; [exact H1 |]. split; [exact Z.prime_3 |]. split; [exact H2 |].
  split; [exact H3 |]. split; [exact H4 |]. split; [exact H5 |].
  split; [exact H6 |].
  exact (IsIrreducible_rejects_root (Poly.mk 3 [2; 0; 0; 1]) 1 100
           H1 Z.prime_3 H2 H3 H4 H5 H6).
Defined.

(** X20: the stored form is canonical.  Two non-empty raw sequences give
    the same Polynomial value exactly when their coefficients are congruent
    modulo [p] (a missing coefficient counting for 0), and the constructor
    applied to the coefficients of a well-formed value gives that value
    back. *)
Theorem of_vector_canonical v v' md :
  v <> [] -> v' <> [] -> 0 < md <= MAX_MOD ->
  (Poly.of_vector v md = Poly.of_vector v' md <-> eqp md v v')
  /\ (forall f, wf f -> Poly.p f = md -> Poly.of_vector (Poly.a f) md = f).
Proof.
  intros Hv Hv' Hmd. split; [split |].
  - intros E i. unfold coef.
    rewrite <- (Normalize_nth md Hmd v i), <- (Normalize_nth md Hmd v' i).
    unfold Poly.of_vector in E. rewrite E. reflexivity.
  - intros E. unfold Poly.of_vector.
    apply (wf_eq md);
      [apply Normalize_wf; assumption | apply Normalize_wf; assumption
      | reflexivity | reflexivity |].
    intros i. unfold coef. rewrite !Normalize_nth by exact Hmd.
    rewrite !Z.mod_mod by lia. apply E.
  - intros f Hf Hp. unfold Poly.of_vector. rewrite <- Hp.
    destruct f as [pf af]. cbn [Poly.p Poly.a] in *.
    apply Normalize_wf_id; [exact Hf | cbn [Poly.p]; lia].
Qed.

Lemma of_vector_canonical_witness :
  [7; -3; 10; 0] <> [] /\ [2; 2] <> [] /\ 0 < 5 <= MAX_MOD
  /\ (Poly.of_vector [7; -3; 10; 0] 5 = Poly.of_vector [2; 2] 5
      <-> eqp 5 [7; -3; 10; 0] [2; 2])
  /\ (forall f, wf f -> Poly.p f = 5 -> Poly.of_vector (Poly.a f) 5 = f).
Proof.
  assert (H1 : [7; -3; 10; 0] <> []) by discriminate.
  assert (H2 : [2; 2] <> []) by discriminate.
  assert (H3 : 0 < 5 <= MAX_MOD) by (unfold MAX_MOD; lia).
  split; [exact H1 |]. split; [exact H2 |]. split; [exact H3 |].
  exact (of_vector_canonical [7; -3; 10; 0] [2; 2] 5 H1 H2 H3).
Defined.
